(** * Lookup strategies of the learned-index benchmark (fyp_node)

    A shallow embedding of the lookup code of [index.js] (and of the older
    copy of the same handlers, which differs in how it sorts and in its
    [tricksearch]) together with the facts the specification states about
    them.

    Wall-clock timing, heap measurements and the MongoDB write of each
    handler are not part of the model: they do not influence which lookups
    run nor what they return. *)

From stdpp Require Import gmap list sorting.
From Equations Require Import Equations.
From Equations.Prop Require Import Logic.

Local Open Scope Z_scope.

(** ** JavaScript values

    The arrays of the program hold integers ([parseInt(...)] and
    [Math.round(...)] results).  Reading past the end of an array, or at a
    negative or non-numeric index, gives [undefined]; arithmetic on
    [undefined] gives [NaN]. *)

Inductive jsval : Type :=
| JUndef
| JNaN
| JNum (z : Z).

Global Instance jsval_eq_dec : EqDecision jsval.
Proof. solve_decision. Defined.

Definition jsval_to_sum (v : jsval) : Z + bool :=
  match v with
  | JNum z => inl z
  | JUndef => inr false
  | JNaN => inr true
  end.

Definition jsval_of_sum (s : Z + bool) : jsval :=
  match s with
  | inl z => JNum z
  | inr false => JUndef
  | inr true => JNaN
  end.

Global Instance jsval_countable : Countable jsval.
Proof.
  refine (inj_countable' jsval_to_sum jsval_of_sum _).
  intros []; reflexivity.
Defined.

(** [a[i]] *)
Definition js_get (a : list Z) (i : jsval) : jsval :=
  match i with
  | JNum z =>
      if bool_decide (0 <= z)
      then from_option JNum JUndef (a !! Z.to_nat z)
      else JUndef
  | _ => JUndef
  end.

(** [a.length] *)
Definition js_length (a : list Z) : Z := Z.of_nat (length a).

(** [a < b]: false as soon as one side is [undefined] or [NaN]. *)
Definition js_lt (a b : jsval) : bool :=
  match a, b with
  | JNum x, JNum y => bool_decide (x < y)
  | _, _ => false
  end.

(** [a > b] *)
Definition js_gt (a b : jsval) : bool := js_lt b a.

(** [a == b] on numbers and [undefined]. *)
Definition js_eq (a b : jsval) : bool :=
  match a, b with
  | JNum x, JNum y => bool_decide (x = y)
  | JUndef, JUndef => true
  | _, _ => false
  end.

(** [a === b]; coincides with [==] on numbers and [undefined]. *)
Definition js_seq (a b : jsval) : bool :=
  match a, b with
  | JNum x, JNum y => bool_decide (x = y)
  | JUndef, JUndef => true
  | _, _ => false
  end.

(** [!v]: [undefined], [NaN] and [0] are falsy. *)
Definition js_not (v : jsval) : bool :=
  match v with
  | JUndef | JNaN => true
  | JNum z => bool_decide (z = 0)
  end.

(** [v + d] for an integer constant [d] ([index++], [index + 1],
    [index - 1]). *)
Definition js_add (v : jsval) (d : Z) : jsval :=
  match v with
  | JNum z => JNum (z + d)
  | _ => JNaN
  end.

(** What a caller can read off a search result: the index found, if any.
    Both [-1] and [undefined] carry no index. *)
Definition found_index (r : jsval) : option Z :=
  match r with
  | JNum i => if bool_decide (0 <= i) then Some i else None
  | _ => None
  end.

(** ** [Array.prototype.sort((a, b) => a - b)]

    The sort itself belongs to the JavaScript engine.  It is modelled by a
    merge sort driven by the comparator: [x] may stay before [y] when
    [cmp x y <= 0]. *)

Definition cmp_asc (a b : Z) : Z := a - b.

Definition cmp_le (cmp : Z → Z → Z) (x y : Z) : Prop := cmp x y <= 0.

Global Instance cmp_le_dec cmp x y : Decision (cmp_le cmp x y).
Proof. unfold cmp_le. apply _. Defined.

Definition js_sort (cmp : Z → Z → Z) (a : list Z) : list Z :=
  merge_sort (cmp_le cmp) a.

(** ** Hash map ([Map]) *)

(** [for (let i = 0; i < dataset.length; i++) map.set(dataset[i], i)] on a
    fresh [Map]. *)
Definition hash_build (dataset : list Z) : gmap jsval Z :=
  foldl (λ map i, <[js_get dataset (JNum i) := i]> map) ∅
        (seqZ 0 (js_length dataset)).

(** [map.has(k)] and [map.get(k)] *)
Definition map_has (map : gmap jsval Z) (k : jsval) : bool :=
  bool_decide (is_Some (map !! k)).

Definition map_get (map : gmap jsval Z) (k : jsval) : jsval :=
  from_option JNum JUndef (map !! k).

(** The body of the query loop:
    [if (map.has(k)) result = map.get(k) else result = -1]. *)
Definition hash_lookup (map : gmap jsval Z) (k : jsval) : jsval :=
  if map_has map k then map_get map k else JNum (-1).

(** ** Binary search *)

(** The loop of [binsearch], from the current [low] and [high]:
    [while (low <= high) {
       const mid = Math.floor((high - low) / 2) + low;
       const num = nums[mid];
       if (num === target) return mid;
       else if (num > target) high = mid - 1;
       else low = mid + 1; }
     return -1;] *)
Equations? binsearch_loop (nums : list Z) (target : jsval) (low high : Z) : jsval
  by wf (Z.to_nat (high - low + 1)) lt :=
  binsearch_loop nums target low high with decide (low <= high) := {
    | right _ => JNum (-1)
    | left _ =>
        let mid := (high - low) `div` 2 + low in
        let num := js_get nums (JNum mid) in
        if js_seq num target then JNum mid
        else if js_gt num target then binsearch_loop nums target low (mid - 1)
        else binsearch_loop nums target (mid + 1) high }.
Proof.
  all: pose proof (Z.div_pos (high - low) 2);
    pose proof (Z.mul_div_le (high - low) 2); lia.
Qed.

(** [binsearch(nums, target)], with [low = 0, high = nums.length - 1]. *)
Definition binsearch (nums : list Z) (target : jsval) : jsval :=
  binsearch_loop nums target 0 (js_length nums - 1).

(** ** Interpolation ("trick") search, [index.js] *)

(** Cells left between [index] and the end of the array. *)
Definition cells_ahead (a : list Z) (index : jsval) : nat :=
  match index with
  | JNum z => Z.to_nat (js_length a - z)
  | _ => 0%nat
  end.

Lemma js_lt_get_in_range a index target :
  js_lt (js_get a index) target = true →
  ∃ z, index = JNum z ∧ 0 <= z < js_length a.
Proof.
  destruct index as [| |z]; simpl; try discriminate.
  case_bool_decide; simpl; [|discriminate].
  destruct (a !! Z.to_nat z) eqn:E; simpl; [|discriminate].
  intros _. exists z. split; [done|].
  apply lookup_lt_Some in E. unfold js_length. lia.
Qed.

(** [while (set[index] < target) index++] ; the value is the final
    [index]. *)
Equations? while_below (a : list Z) (index target : jsval) : jsval
  by wf (cells_ahead a index) lt :=
  while_below a index target with inspect (js_lt (js_get a index) target) := {
    | exist _ true Hlt => while_below a (js_add index 1) target
    | exist _ false Hlt => index }.
Proof.
  apply js_lt_get_in_range in Hlt as (z & -> & Hz).
  simpl. lia.
Qed.

(** [tricksearch(set, index, target)] of [index.js] ([a] is the source's
    [set]).  A path that reaches the end of the function body returns
    [undefined]: the empty first branch, and the case where the cell is
    neither below nor above the target. *)
Definition tricksearch (a : list Z) (index target : jsval) : jsval :=
  if js_not (js_get a index) then JUndef
  else if js_lt (js_get a index) target then
    let index' := while_below a index target in
    if js_eq (js_get a index') target then index' else JNum (-1)
  else if js_gt (js_get a index) target then
    let index' := while_below a index target in
    if js_eq (js_get a index') target then index' else JNum (-1)
  else JUndef.

(** ** Interpolation search, older recursive variant *)

(** What decreases along the recursion: while the cell is above the target
    the search steps down, otherwise it steps up. *)
Definition rec_measure (a : list Z) (index target : jsval) : nat :=
  match index with
  | JNum z =>
      if js_gt (js_get a index) target
      then Z.to_nat (js_length a + z + 2)
      else Z.to_nat (js_length a - z)
  | _ => 0%nat
  end.

Lemma js_get_num_in_range a index x :
  js_get a index = JNum x →
  ∃ z, index = JNum z ∧ 0 <= z < js_length a.
Proof.
  destruct index as [| |z]; simpl; try discriminate.
  case_bool_decide; simpl; [|discriminate].
  destruct (a !! Z.to_nat z) eqn:E; simpl; [|discriminate].
  intros _. exists z. split; [done|].
  apply lookup_lt_Some in E. unfold js_length. lia.
Qed.

Lemma js_lt_gt_exclusive x y : js_lt x y = true → js_gt x y = false.
Proof.
  unfold js_gt. destruct x, y; simpl; try done.
  intros. repeat case_bool_decide; try done; lia.
Qed.

Lemma rec_measure_advance a index target :
  js_lt (js_get a index) target = true →
  js_gt (js_get a (js_add index 1)) target = false →
  (rec_measure a (js_add index 1) target < rec_measure a index target)%nat.
Proof.
  intros Hlt Hnext.
  pose proof (js_lt_gt_exclusive _ _ Hlt) as Hngt.
  apply js_lt_get_in_range in Hlt as (z & -> & Hz).
  unfold rec_measure. cbn [js_add] in *. rewrite Hnext, Hngt. lia.
Qed.

Lemma rec_measure_retreat a index target :
  js_gt (js_get a index) target = true →
  (rec_measure a (js_add index (-1)) target < rec_measure a index target)%nat.
Proof.
  intros Hgt.
  assert (∃ x, js_get a index = JNum x) as [x Hx].
  { unfold js_gt in Hgt. destruct (js_get a index); [destruct target; done..|eauto]. }
  apply js_get_num_in_range in Hx as (z & -> & Hz).
  unfold rec_measure. cbn [js_add]. rewrite Hgt.
  destruct (js_gt (js_get a (JNum (z + -1))) target); lia.
Qed.

(** [tricksearch(set, index, target)] of the older copy of the handlers:
    [if (set[index] == target) return index;
     else if (index < 0) return -1;
     else if (index > set.length) return -1;
     else if (set[index] < target && set[index + 1] > target) return -1;
     else if (set[index] < target) return tricksearch(set, index + 1, target)
     else if (set[index] > target) return tricksearch(set, index - 1, target)]

    [tricksearch_rec] is the value the recursion returns when the call
    stack has room for it; [tricksearch_rec_stack] below runs the same body
    with a bound on the nesting. *)
Equations? tricksearch_rec (a : list Z) (index target : jsval) : jsval
  by wf (rec_measure a index target) lt :=
  tricksearch_rec a index target with inspect (js_eq (js_get a index) target) := {
    | exist _ true Hhit => index
    | exist _ false Hmiss with inspect (js_lt index (JNum 0)) := {
      | exist _ true Hneg => JNum (-1)
      | exist _ false Hpos with inspect (js_gt index (JNum (js_length a))) := {
        | exist _ true Hbig => JNum (-1)
        | exist _ false Hsmall with inspect (js_lt (js_get a index) target
                                      && js_gt (js_get a (js_add index 1)) target) := {
          | exist _ true Hrev => JNum (-1)
          | exist _ false Hrev with inspect (js_lt (js_get a index) target) := {
            | exist _ true Hlt => tricksearch_rec a (js_add index 1) target
            | exist _ false Hlt with inspect (js_gt (js_get a index) target) := {
              | exist _ true Hgt => tricksearch_rec a (js_add index (-1)) target
              | exist _ false Hgt => JUndef } } } } } }.
Proof.
  - apply rec_measure_advance; [done|].
    rewrite Hlt in Hrev. exact Hrev.
  - by apply rec_measure_retreat.
Qed.

(** The same function on an engine whose call stack has room for [frames]
    nested calls of it, the outermost call included.  Each cell the scan
    passes costs one nested call; when the recursion needs more than
    [frames] the engine throws a [RangeError] ("Maximum call stack size
    exceeded") and no value is returned: [None]. *)
Fixpoint tricksearch_rec_stack (frames : nat) (a : list Z) (index target : jsval)
    : option jsval :=
  match frames with
  | O => None
  | S frames' =>
      if js_eq (js_get a index) target then Some index
      else if js_lt index (JNum 0) then Some (JNum (-1))
      else if js_gt index (JNum (js_length a)) then Some (JNum (-1))
      else if js_lt (js_get a index) target && js_gt (js_get a (js_add index 1)) target
           then Some (JNum (-1))
      else if js_lt (js_get a index) target
           then tricksearch_rec_stack frames' a (js_add index 1) target
      else if js_gt (js_get a index) target
           then tricksearch_rec_stack frames' a (js_add index (-1)) target
      else Some JUndef
  end.

(** Ascending order, cell by cell. *)
Definition ascending (a : list Z) : Prop := Sorted Z.le a.

(** ** The correction scan as the specification words it

    "From index [g], scan monotonically toward the target: if
    [array[g] < key], advance; if [array[g] > key], retreat; stop on exact
    match, on leaving [[0, N)] (not found), or on detecting a sign reversal
    between adjacent cells without an exact hit (not found)."

    [scan_up] walks the cells after the guess, [scan_down] the cells before
    it (nearest first); [i] is the index of the first cell of [cells]. *)

Fixpoint scan_up (cells : list Z) (i key : Z) : option Z :=
  match cells with
  | [] => None
  | x :: rest =>
      if bool_decide (x = key) then Some i
      else if bool_decide (x < key) then scan_up rest (i + 1) key
      else None
  end.

Fixpoint scan_down (cells : list Z) (i key : Z) : option Z :=
  match cells with
  | [] => None
  | x :: rest =>
      if bool_decide (x = key) then Some i
      else if bool_decide (key < x) then scan_down rest (i - 1) key
      else None
  end.

Definition correction_scan (a : list Z) (g key : Z) : option Z :=
  if bool_decide (0 ≤ g) then
    match a !! Z.to_nat g with
    | None => None
    | Some x =>
        if bool_decide (x = key) then Some g
        else if bool_decide (x < key)
             then scan_up (drop (S (Z.to_nat g)) a) (g + 1) key
             else scan_down (reverse (take (Z.to_nat g) a)) (g - 1) key
    end
  else None.

(** ** AVL tree

    The tree is the [AVLTree] of the package [@yetzt/binary-search-tree],
    whose code is not part of the sources; the handlers only call its
    [insert] and [search]. *)

(** Modelled from the spec: the AVL index, "balanced BST keyed by value,
    each node holding one or more associated positions (duplicates retained
    as distinct entries, not overwritten)". *)
Inductive avl_tree : Type :=
| AvlLeaf
| AvlNode (l : avl_tree) (key : Z) (data : list Z) (r : avl_tree).

Fixpoint avl_height (t : avl_tree) : nat :=
  match t with
  | AvlLeaf => 0
  | AvlNode l _ _ r => S (avl_height l `max` avl_height r)
  end.

(** [height(left) - height(right)] *)
Definition balance_factor (t : avl_tree) : Z :=
  match t with
  | AvlLeaf => 0
  | AvlNode l _ _ r => Z.of_nat (avl_height l) - Z.of_nat (avl_height r)
  end.

(** Modelled from the spec: "balance invariant
    [|height(left) - height(right)| <= 1] at every node". *)
Fixpoint avl_balanced (t : avl_tree) : Prop :=
  match t with
  | AvlLeaf => True
  | AvlNode l _ _ r =>
      avl_balanced l ∧ avl_balanced r ∧ -1 ≤ balance_factor t ≤ 1
  end.

Definition rotate_right (t : avl_tree) : avl_tree :=
  match t with
  | AvlNode (AvlNode ll lk ld lr) k d r => AvlNode ll lk ld (AvlNode lr k d r)
  | _ => t
  end.

Definition rotate_left (t : avl_tree) : avl_tree :=
  match t with
  | AvlNode l k d (AvlNode rl rk rd rr) => AvlNode (AvlNode l k d rl) rk rd rr
  | _ => t
  end.

(** Modelled from the spec: the balance is "restored via standard
    LL/RR/LR/RL rotations after each insert". *)
Definition rebalance (t : avl_tree) : avl_tree :=
  match t with
  | AvlLeaf => AvlLeaf
  | AvlNode l k d r =>
      if bool_decide (1 < balance_factor t) then
        if bool_decide (balance_factor l < 0)
        then rotate_right (AvlNode (rotate_left l) k d r)
        else rotate_right t
      else if bool_decide (balance_factor t < -1) then
        if bool_decide (0 < balance_factor r)
        then rotate_left (AvlNode l k d (rotate_right r))
        else rotate_left t
      else t
  end.

(** Modelled from the spec: the [insert] of the AVL package, "insert
    [(key, position)] pairs one at a time into a self-balancing BST keyed
    by value; duplicates create additional entries rather than
    overwriting". *)
Fixpoint avl_insert (key pos : Z) (t : avl_tree) : avl_tree :=
  match t with
  | AvlLeaf => AvlNode AvlLeaf key [pos] AvlLeaf
  | AvlNode l k d r =>
      if bool_decide (key < k) then rebalance (AvlNode (avl_insert key pos l) k d r)
      else if bool_decide (k < key) then rebalance (AvlNode l k d (avl_insert key pos r))
      else AvlNode l k (d ++ [pos]) r
  end.

(** Modelled from the spec: the [search] of the AVL package, "returns the
    set of positions matching [key] (empty set = not found)". *)
Fixpoint avl_search (t : avl_tree) (key : Z) : list Z :=
  match t with
  | AvlLeaf => []
  | AvlNode l k d r =>
      if bool_decide (key < k) then avl_search l key
      else if bool_decide (k < key) then avl_search r key
      else d
  end.

(** The keys of a tree from left to right, and the search-tree order. *)
Fixpoint avl_keys (t : avl_tree) : list Z :=
  match t with
  | AvlLeaf => []
  | AvlNode l k _ r => avl_keys l ++ k :: avl_keys r
  end.

Definition avl_ordered (t : avl_tree) : Prop := StronglySorted Z.lt (avl_keys t).

(** Every position stored under [key] anywhere in the tree. *)
Fixpoint stored_positions (t : avl_tree) (key : Z) : list Z :=
  match t with
  | AvlLeaf => []
  | AvlNode l k d r =>
      stored_positions l key
        ++ (if bool_decide (k = key) then d else [])
        ++ stored_positions r key
  end.

(** [avl.insert(dataset[i], i)] and [avl.search(testset[index])] as the
    handlers call them.  The keys inserted are array cells below
    [dataset.length], hence integers; a search key that is no integer
    ([undefined] past the end of [testset]) matches no stored position.
    This is the empty set of the specification; the package itself compares
    the key with the root of a non-empty tree and gives up with an error on
    a key it cannot compare, so what is stated about the AVL handlers is
    stated for numeric keys, for the empty tree, or for runs that reach
    their end. *)
Definition avl_insert_js (key : jsval) (pos : Z) (t : avl_tree) : avl_tree :=
  match key with
  | JNum k => avl_insert k pos t
  | _ => t
  end.

Definition avl_search_js (t : avl_tree) (key : jsval) : list Z :=
  match key with
  | JNum k => avl_search t k
  | _ => []
  end.

(** [for (let i = 0; i < dataset.length; i++) avl.insert(dataset[i], i)] on
    a fresh tree. *)
Definition avl_build (dataset : list Z) : avl_tree :=
  foldl (λ t i, avl_insert_js (js_get dataset (JNum i)) i t) AvlLeaf
        (seqZ 0 (js_length dataset)).

(** ** Rank guesses of the interpolation search *)

(** The constants at the head of the file. *)
Record Config : Type := mkConfig {
  mean : Z;
  variance : Z;
  num_nor : Z;
  low : Z;
  high : Z;
  num_uni : Z
}.

Definition index_js : Config :=
  {| mean := 0; variance := 100000000; num_nor := 20000;
     low := 0; high := 10000000; num_uni := 10000000 |}.

(** The constants of the older copy of the handlers. *)
Definition older_copy : Config :=
  {| mean := 0; variance := 1000000; num_nor := 2000;
     low := 0; high := 1000000; num_uni := 1000000 |}.

(** [Math.floor(num_uni * (key - low) / (high - low))].  On integers the
    quotient is the floor division (with the constants of the source the
    product stays below 2^53 and the division is exact, since
    [num_uni = high - low]).  An [undefined] key gives [NaN]; so does, in
    this model, the division by zero of a configuration with [high = low]:
    the non-finite result indexes no cell either. *)
Definition uniform_rank (c : Config) (key : jsval) : jsval :=
  match key with
  | JNum k =>
      if bool_decide (high c - low c = 0) then JNaN
      else JNum ((num_uni c * (k - low c)) `div` (high c - low c))
  | _ => JNaN
  end.

(** The object [gaussian(mean, variance)] of the package [gaussian], which
    is not part of the sources and computes in floating point.  The
    handlers use its [cdf] only inside
    [Math.floor(num_nor * distribution.cdf(key))]: [rank d n key] stands for
    that number. *)
Record Gaussian : Type := mkGaussian {
  rank : Z → jsval → jsval
}.

(** ** Process state, shared arrays and the handler monad *)

(** References to arrays. *)
Abbreviation loc := nat (only parsing).

(** The globals [dataset], [testset] and [distribution]; arrays live in
    [heap] and variables hold references to them, so that an in-place sort
    is seen through every reference. *)
Record State : Type := mkState {
  heap : list (list Z);
  dataset : loc;
  testset : loc;
  distribution : option Gaussian
}.

(** [var dataset = []; var testset = []; var distribution;] *)
Definition initial_state : State :=
  {| heap := [[]; []]; dataset := 0%nat; testset := 1%nat; distribution := None |}.

Definition wf_state (s : State) : Prop :=
  (dataset s < length (heap s))%nat ∧ (testset s < length (heap s))%nat.

Global Instance wf_state_dec s : Decision (wf_state s).
Proof. unfold wf_state. apply _. Defined.

(** The array a reference points to ([[]] for a reference outside the
    heap, which no handler produces). *)
Definition array_at (s : State) (l : loc) : list Z := default [] (heap s !! l).

Definition population (s : State) : list Z := array_at s (dataset s).
Definition queryset (s : State) : list Z := array_at s (testset s).

Inductive error : Type :=
| TypeError.

(** Outcome of running a piece of a handler: a value and the new state, an
    uncaught exception, or [Stuck] when a reference points outside the
    heap (unreachable from well-formed states). *)
Inductive outcome (A : Type) : Type :=
| Ok (a : A) (s : State)
| Throw (e : error)
| Stuck.
Global Arguments Ok {A} a s.
Global Arguments Throw {A} e.
Global Arguments Stuck {A}.

(** A piece of a handler: a function of the state. *)
Record M (A : Type) : Type := Handler { run : State → outcome A }.
Global Arguments Handler {A} run.
Global Arguments run {A} m s.

Global Instance handler_ret : MRet M := λ A a, Handler (λ s, Ok a s).

Global Instance handler_bind : MBind M := λ A B f m,
  Handler (λ s,
    match run m s with
    | Ok a s' => run (f a) s'
    | Throw e => Throw e
    | Stuck => Stuck
    end).

Definition throw {A} (e : error) : M A := Handler (λ _, Throw e).

Definition read_dataset : M loc := Handler (λ s, Ok (dataset s) s).
Definition read_testset : M loc := Handler (λ s, Ok (testset s) s).
Definition read_distribution : M (option Gaussian) :=
  Handler (λ s, Ok (distribution s) s).

Definition assign_dataset (l : loc) : M unit :=
  Handler (λ s, Ok () {| heap := heap s; dataset := l; testset := testset s;
                         distribution := distribution s |}).
Definition assign_testset (l : loc) : M unit :=
  Handler (λ s, Ok () {| heap := heap s; dataset := dataset s; testset := l;
                         distribution := distribution s |}).
Definition assign_distribution (d : Gaussian) : M unit :=
  Handler (λ s, Ok () {| heap := heap s; dataset := dataset s;
                         testset := testset s; distribution := Some d |}).

(** The state with its heap replaced. *)
Definition with_heap (s : State) (h : list (list Z)) : State :=
  {| heap := h; dataset := dataset s; testset := testset s;
     distribution := distribution s |}.

(** A new array object. *)
Definition alloc (a : list Z) : M loc :=
  Handler (λ s, Ok (length (heap s)) (with_heap s (heap s ++ [a]))).

(** The cells of the array behind a reference. *)
Definition contents (l : loc) : M (list Z) :=
  Handler (λ s, match heap s !! l with
                | Some a => Ok a s
                | None => Stuck
                end).

(** [x.slice(0)]: a new array with the same cells. *)
Definition slice0 (l : loc) : M loc :=
  a ← contents l; alloc a.

(** [x.sort((a, b) => a - b)]: sorts the array in place and returns the
    same reference. *)
Definition sort_asc (l : loc) : M loc :=
  a ← contents l;
  Handler (λ s, Ok l (with_heap s (<[l := js_sort cmp_asc a]> (heap s)))).

(** [while (index < num) { body; index++ }] with [index] starting at 0;
    an exception in the body leaves the loop. *)
Fixpoint for_each {A} (body : Z → M A) (indices : list Z) : M (list A) :=
  match indices with
  | [] => mret []
  | index :: rest =>
      x ← body index;
      xs ← for_each body rest;
      mret (x :: xs)
  end.

Definition while_index_below {A} (num : Z) (body : Z → M A) : M (list A) :=
  for_each body (seqZ 0 num).

(** ** The handlers of [index.js] *)

(** What one pass of a query loop does, iteration by iteration: the calls
    made on the index and the value left in [result]. *)
Inductive call : Type :=
| MapHas (k : jsval)
| MapGet (k : jsval)
| Binsearch (k : jsval)
| AvlSearch (k : jsval)
| Tricksearch (g k : jsval).

Inductive answer : Type :=
| Value (v : jsval)
| Positions (ps : list Z).

Record iteration : Type := mkIteration {
  calls : list call;
  result : answer
}.

(** The timed query pass and, where the handler has one, the control pass
    that follows it. *)
Record report : Type := mkReport {
  timed : list iteration;
  control : list iteration
}.

Definition call_key (c : call) : jsval :=
  match c with
  | MapHas k | MapGet k | Binsearch k | AvlSearch k | Tricksearch _ k => k
  end.

(** [testset[index]] *)
Definition read_query (index : Z) : M jsval :=
  t ← read_testset; ts ← contents t; mret (js_get ts (JNum index)).

(** [/generatenum_uniform] and [/generatenum_normal].  [samples i] is the
    value of the [i]-th draw, [parseInt(Math.random() * (high - low) + low)]
    or [Math.round(distribution.ppf(Math.random()))]; [g] is the object the
    call [gaussian(mean, variance)] returns. *)
Definition generatenum_uniform (samples : Z → Z) (num : Z) : M loc :=
  alloc (samples <$> seqZ 0 num).

Definition generatenum_normal (g : Gaussian) (samples : Z → Z) (num : Z) : M loc :=
  assign_distribution g;; alloc (samples <$> seqZ 0 num).

Definition route_generatenum_uniform (c : Config) (samples1 samples2 : Z → Z) : M unit :=
  d ← generatenum_uniform samples1 (num_uni c); assign_dataset d;;
  t ← generatenum_uniform samples2 (num_uni c); assign_testset t.

Definition route_generatenum_normal (c : Config) (g : Gaussian)
    (samples1 samples2 : Z → Z) : M unit :=
  d ← generatenum_normal g samples1 (num_nor c); assign_dataset d;;
  t ← generatenum_normal g samples2 (num_nor c); assign_testset t.

(** The build phase of the binarysearch and trick handlers:
    [let set = dataset.slice(0); let arr = set.sort(...).slice(0);
     let sett = dataset.slice(0); let array = sett.sort(...);] *)
Definition sorted_array_build : M loc :=
  d ← read_dataset; set ← slice0 d;
  sorted ← sort_asc set; arr ← slice0 sorted;
  d' ← read_dataset; sett ← slice0 d';
  sort_asc sett.

(** The same phase in the older copy of the handlers:
    [let arr = dataset.sort(...); let array = dataset.sort(...);] *)
Definition sorted_array_build_older : M loc :=
  d ← read_dataset; arr ← sort_asc d;
  d' ← read_dataset; sort_asc d'.

(** The bodies of the query loops, given the key [testset[index]]. *)

(** [if (map.has(k)) { let result = map.get(k) } else { let result = -1 }] *)
Definition hashtable_iteration (map : gmap jsval Z) (k : jsval) : iteration :=
  if map_has map k
  then {| calls := [MapHas k; MapGet k]; result := Value (map_get map k) |}
  else {| calls := [MapHas k]; result := Value (JNum (-1)) |}.

(** [let result = binsearch(array, k)] *)
Definition binarysearch_iteration (array : list Z) (k : jsval) : iteration :=
  {| calls := [Binsearch k]; result := Value (binsearch array k) |}.

(** [if (avl.search(k).length > 0) { let result = avl.search(k) }
     else { let result = -1 }] *)
Definition avl_iteration (avl : avl_tree) (k : jsval) : iteration :=
  if bool_decide (0 < js_length (avl_search_js avl k))
  then {| calls := [AvlSearch k; AvlSearch k];
          result := Positions (avl_search_js avl k) |}
  else {| calls := [AvlSearch k]; result := Value (JNum (-1)) |}.

(** The control loop of the AVL handlers:
    [if (avl.search(k).length > 0) { let result } else { let result = -1 }] *)
Definition avl_control_iteration (avl : avl_tree) (k : jsval) : iteration :=
  if bool_decide (0 < js_length (avl_search_js avl k))
  then {| calls := [AvlSearch k]; result := Value JUndef |}
  else {| calls := [AvlSearch k]; result := Value (JNum (-1)) |}.

(** [let result = tricksearch(array, guess, k)] *)
Definition trick_iteration (array : list Z) (guess k : jsval) : iteration :=
  {| calls := [Tricksearch guess k]; result := Value (tricksearch array guess k) |}.

(** The control loops of the trick handlers: [let result = guess]. *)
Definition trick_control_iteration (guess : jsval) : iteration :=
  {| calls := []; result := Value guess |}.

Definition hashtable (num : Z) : M report :=
  d ← read_dataset; a ← contents d;
  let mapp := hash_build a in
  let map := hash_build a in
  log ← while_index_below num (λ index,
    k ← read_query index;
    mret (hashtable_iteration map k));
  mret {| timed := log; control := [] |}.

Definition binarysearch (num : Z) : M report :=
  array ← sorted_array_build;
  log ← while_index_below num (λ index,
    k ← read_query index;
    a ← contents array;
    mret (binarysearch_iteration a k));
  mret {| timed := log; control := [] |}.

Definition avl (num : Z) : M report :=
  d ← read_dataset; a ← contents d;
  let aavl := avl_build a in
  let avl := avl_build a in
  log ← while_index_below num (λ index,
    k ← read_query index;
    mret (avl_iteration avl k));
  log' ← while_index_below num (λ index,
    k ← read_query index;
    mret (avl_control_iteration avl k));
  mret {| timed := log; control := log' |}.

(** [Math.floor(num_nor * distribution.cdf(key))]: reading [cdf] off an
    [undefined] [distribution] throws a [TypeError]. *)
Definition normal_rank (c : Config) (key : jsval) : M jsval :=
  d ← read_distribution;
  match d with
  | Some g => mret (rank g (num_nor c) key)
  | None => throw TypeError
  end.

Definition trick_normal (c : Config) : M report :=
  array ← sorted_array_build;
  log ← while_index_below (num_nor c) (λ i,
    k ← read_query i;
    guess ← normal_rank c k;
    a ← contents array;
    mret (trick_iteration a guess k));
  log' ← while_index_below (num_nor c) (λ i,
    k ← read_query i;
    guess ← normal_rank c k;
    mret (trick_control_iteration guess));
  mret {| timed := log; control := log' |}.

(** The control loop of [/trick_uniform] counts with [i] up to [num_nor]
    and reads [testset[index]], where [index] is what the timed loop left
    it at. *)
Definition trick_uniform (c : Config) : M report :=
  array ← sorted_array_build;
  log ← while_index_below (num_uni c) (λ index,
    k ← read_query index;
    a ← contents array;
    mret (trick_iteration a (uniform_rank c k) k));
  let index := 0 `max` num_uni c in
  log' ← while_index_below (num_nor c) (λ i,
    k ← read_query index;
    mret (trick_control_iteration (uniform_rank c k)));
  mret {| timed := log; control := log' |}.

Inductive route : Type :=
| HashtableNormal
| BinarysearchNormal
| AvlNormal
| TrickNormal
| BinarysearchUniform
| TrickUniform
| HashtableUniform
| AvlUniform.

Definition benchmark (c : Config) (r : route) : M report :=
  match r with
  | HashtableNormal => hashtable (num_nor c)
  | BinarysearchNormal => binarysearch (num_nor c)
  | AvlNormal => avl (num_nor c)
  | TrickNormal => trick_normal c
  | BinarysearchUniform => binarysearch (num_uni c)
  | TrickUniform => trick_uniform c
  | HashtableUniform => hashtable (num_uni c)
  | AvlUniform => avl (num_uni c)
  end.

(** The loop bound of a handler's query pass. *)
Definition route_num (c : Config) (r : route) : Z :=
  match r with
  | HashtableNormal | BinarysearchNormal | AvlNormal | TrickNormal => num_nor c
  | BinarysearchUniform | TrickUniform | HashtableUniform | AvlUniform => num_uni c
  end.

(** The state a binarysearch or trick handler of [index.js] leaves. *)
Definition after_build (s : State) : State :=
  let sorted := js_sort cmp_asc (population s) in
  with_heap s (heap s ++ [sorted; sorted; sorted]).

(** The keys [testset[0]], ..., [testset[num - 1]] a query loop reads. *)
Definition keys_queried (s : State) (num : Z) : list jsval :=
  (λ index, js_get (queryset s) (JNum index)) <$> seqZ 0 num.

(** ** Statements of the specification about the query pass and the build *)

(** An iteration looks up the entry [k] of the query set and nothing
    else. *)
Definition looks_up (it : iteration) (k : Z) : Prop :=
  calls it ≠ [] ∧ Forall (λ c, call_key c = JNum k) (calls it).

(** The lookups of the index an iteration performs, in the specification's
    sense of [lookup(key)]: every call of [binsearch], [tricksearch] or
    [avl.search] is one, and so is [map.has]; [map.get] fetches what the
    [map.has] of the same lookup found. *)
Definition is_lookup (c : call) : bool :=
  match c with
  | MapGet _ => false
  | MapHas _ | Binsearch _ | AvlSearch _ | Tricksearch _ _ => true
  end.

Definition lookups (it : iteration) : list call :=
  filter (λ c, is_lookup c) (calls it).

(** "The timed query pass performs exactly one lookup for each entry of the
    current QuerySet, and no lookups of anything outside the QuerySet." *)
Definition one_lookup_per_entry (c : Config) (r : route) (s : State) : Prop :=
  ∀ rep s', run (benchmark c r) s = Ok rep s' →
    Forall2 (λ it k, looks_up it k ∧ length (lookups it) = 1%nat)
            (timed rep) (queryset s).

(** "After the build phase the shared Population itself is unchanged." *)
Definition build_preserves_population (build : M loc) (s : State) : Prop :=
  ∀ array s', run build s = Ok array s' → population s' = population s.

(** The calls one iteration of a handler's timed loop may make for the
    key [k]. *)
Definition calls_of_route (r : route) (k : jsval) (cs : list call) : Prop :=
  match r with
  | HashtableNormal | HashtableUniform => cs = [MapHas k] ∨ cs = [MapHas k; MapGet k]
  | BinarysearchNormal | BinarysearchUniform => cs = [Binsearch k]
  | AvlNormal | AvlUniform => cs = [AvlSearch k] ∨ cs = [AvlSearch k; AvlSearch k]
  | TrickNormal | TrickUniform => ∃ g, cs = [Tricksearch g k]
  end.

(** The calls the timed loop of a handler makes for the entry [k], read off
    its loop body: [hit] says whether [k] occurs in the population, [guess]
    is the rank the trick handlers compute for [k]. *)
Definition calls_of_lookup (r : route) (guess : jsval) (hit : bool) (k : jsval)
    : list call :=
  match r with
  | HashtableNormal | HashtableUniform =>
      if hit then [MapHas k; MapGet k] else [MapHas k]
  | BinarysearchNormal | BinarysearchUniform => [Binsearch k]
  | AvlNormal | AvlUniform =>
      if hit then [AvlSearch k; AvlSearch k] else [AvlSearch k]
  | TrickNormal | TrickUniform => [Tricksearch guess k]
  end.

(** What an iteration that reports "not found" looks like: the membership
    test of the hash map is false ([map.get] is not called) and [result] is
    [-1]; [binsearch] returns [-1]; the one [avl.search] returns the empty
    array and [result] is [-1]; [tricksearch] returns no index. *)
Definition reports_not_found (r : route) (it : iteration) : Prop :=
  match r with
  | HashtableNormal | HashtableUniform =>
      ∃ k, it = {| calls := [MapHas k]; result := Value (JNum (-1)) |}
  | BinarysearchNormal | BinarysearchUniform =>
      ∃ k, it = {| calls := [Binsearch k]; result := Value (JNum (-1)) |}
  | AvlNormal | AvlUniform =>
      ∃ k, it = {| calls := [AvlSearch k]; result := Value (JNum (-1)) |}
  | TrickNormal | TrickUniform =>
      ∃ g k v, it = {| calls := [Tricksearch g k]; result := Value v |}
               ∧ found_index v = None
  end.

(** "For all [i] in [[0, N-2]]: [array[i] <= array[i+1]]." *)
Definition fully_ordered (A : list Z) : Prop :=
  ∀ i, 0 ≤ i ≤ js_length A - 2 →
    ∃ x y, js_get A (JNum i) = JNum x ∧ js_get A (JNum (i + 1)) = JNum y ∧ x ≤ y.

(** ** The handlers of the older copy

    In the older copy of the file only [dataset] is a global: every
    benchmark handler draws its own [testset] with [generatenum_normal] or
    [generatenum_uniform], [generatenum_normal] keeps its [distribution] in
    a local, and the handlers have no control pass and write no record for
    the sorted-array and AVL methods. *)

(** [generatenum_normal(mean, variance, num_nor)] of the older copy:
    [distribution] is a [let] of the function, so nothing but the new array
    leaves it.  [samples i] is the value of the [i]-th draw. *)
Definition generatenum_normal_older (samples : Z → Z) (num : Z) : M loc :=
  alloc (samples <$> seqZ 0 num).

(** [/generatenum_normal] and [/generatenum_uniform] of the older copy:
    [dataset = generatenum_...(...)]. *)
Definition route_generatenum_older (samples : Z → Z) (num : Z) : M unit :=
  d ← generatenum_normal_older samples num; assign_dataset d.

(** [testset[index]] for the handler's local [testset]. *)
Definition query_at (testset : loc) (index : Z) : M jsval :=
  ts ← contents testset; mret (js_get ts (JNum index)).

(** What a handler of the older copy can fail with: its [/trick_normal]
    evaluates [distribution.cdf(...)], and the older copy binds the
    identifier [distribution] only inside [generatenum_normal]; the
    recursive [tricksearch] can exhaust the call stack. *)
Inductive older_error : Type :=
| ReferenceError
| RangeError.

(** [let result = tricksearch(array, guess, k)] with the recursive
    [tricksearch], on a call stack with room for [frames] nested calls. *)
Definition trick_rec_iteration (frames : nat) (array : list Z) (guess k : jsval)
    : older_error + iteration :=
  match tricksearch_rec_stack frames array guess k with
  | Some v => inr {| calls := [Tricksearch guess k]; result := Value v |}
  | None => inl RangeError
  end.

(** [/hashtable_normal] of the older copy: the warm-up map, the query set,
    the timed map, the query loop. *)
Definition hashtable_normal_older (samples : Z → Z) (num : Z) : M report :=
  d ← read_dataset; a ← contents d;
  let mapp := hash_build a in
  testset ← generatenum_normal_older samples num;
  d' ← read_dataset; a' ← contents d';
  let map := hash_build a' in
  log ← while_index_below num (λ index,
    k ← query_at testset index;
    mret (hashtable_iteration map k));
  mret {| timed := log; control := [] |}.

(** [/hashtable_uniform] of the older copy draws the query set first. *)
Definition hashtable_uniform_older (samples : Z → Z) (num : Z) : M report :=
  testset ← generatenum_uniform samples num;
  d ← read_dataset; a ← contents d;
  let mapp := hash_build a in
  d' ← read_dataset; a' ← contents d';
  let map := hash_build a' in
  log ← while_index_below num (λ index,
    k ← query_at testset index;
    mret (hashtable_iteration map k));
  mret {| timed := log; control := [] |}.

(** [/binarysearch_normal] and [/binarysearch_uniform] of the older copy. *)
Definition binarysearch_older (samples : Z → Z) (num : Z) : M report :=
  array ← sorted_array_build_older;
  testset ← generatenum_uniform samples num;
  log ← while_index_below num (λ index,
    k ← query_at testset index;
    a ← contents array;
    mret (binarysearch_iteration a k));
  mret {| timed := log; control := [] |}.

(** [Math.floor(num_nor * distribution.cdf(key))] in the older copy:
    resolving [distribution] fails. *)
Definition normal_rank_older (key : jsval) : M (older_error + jsval) :=
  mret (inl ReferenceError).

(** A query loop whose body may raise: the first exception leaves the
    loop. *)
Fixpoint for_each_raising {E A} (body : Z → M (E + A)) (indices : list Z)
    : M (E + list A) :=
  match indices with
  | [] => mret (inr [])
  | index :: rest =>
      r ← body index;
      match r with
      | inl e => mret (inl e)
      | inr x =>
          rs ← for_each_raising body rest;
          mret (match rs with
                | inl e => inl e
                | inr xs => inr (x :: xs)
                end)
      end
  end.

(** [/trick_uniform] of the older copy. *)
Definition trick_uniform_older (c : Config) (frames : nat) (samples : Z → Z)
    : M (older_error + report) :=
  array ← sorted_array_build_older;
  testset ← generatenum_uniform samples (num_uni c);
  r ← for_each_raising (λ index,
         k ← query_at testset index;
         a ← contents array;
         mret (trick_rec_iteration frames a (uniform_rank c k) k))
       (seqZ 0 (num_uni c));
  mret (match r with
        | inl e => inl e
        | inr log => inr {| timed := log; control := [] |}
        end).

(** [/trick_normal] of the older copy. *)
Definition trick_normal_older (c : Config) (frames : nat) (samples : Z → Z)
    : M (older_error + report) :=
  d ← read_dataset; arr ← sort_asc d;
  testset ← generatenum_normal_older samples (num_nor c);
  d' ← read_dataset; array ← sort_asc d';
  r ← for_each_raising (λ i,
         k ← query_at testset i;
         guess ← normal_rank_older k;
         match guess with
         | inl e => mret (inl e)
         | inr g =>
             a ← contents array;
             mret (trick_rec_iteration frames a g k)
         end) (seqZ 0 (num_nor c));
  mret (match r with
        | inl e => inl e
        | inr log => inr {| timed := log; control := [] |}
        end).

(** [/avl_normal] and [/avl_uniform] of the older copy: the query set is
    drawn before the trees are built. *)
Definition avl_older (samples : Z → Z) (num : Z) : M report :=
  testset ← generatenum_uniform samples num;
  d ← read_dataset; a ← contents d;
  let aavl := avl_build a in
  d' ← read_dataset; a' ← contents d';
  let avl := avl_build a' in
  log ← while_index_below num (λ index,
    k ← query_at testset index;
    mret (avl_iteration avl k));
  mret {| timed := log; control := [] |}.

(** The benchmark handlers of the older copy, one per route; [samples] are
    the draws of the handler's query set, [frames] the nested calls of
    [tricksearch] the call stack has room for. *)
Definition benchmark_older (c : Config) (frames : nat) (samples : Z → Z) (r : route)
    : M (older_error + report) :=
  match r with
  | HashtableNormal => rep ← hashtable_normal_older samples (num_nor c); mret (inr rep)
  | BinarysearchNormal => rep ← binarysearch_older samples (num_nor c); mret (inr rep)
  | AvlNormal => rep ← avl_older samples (num_nor c); mret (inr rep)
  | TrickNormal => trick_normal_older c frames samples
  | BinarysearchUniform => rep ← binarysearch_older samples (num_uni c); mret (inr rep)
  | TrickUniform => trick_uniform_older c frames samples
  | HashtableUniform => rep ← hashtable_uniform_older samples (num_uni c); mret (inr rep)
  | AvlUniform => rep ← avl_older samples (num_uni c); mret (inr rep)
  end.

(** The draws [samples 0], ..., [samples (num - 1)]. *)
Definition drawn (samples : Z → Z) (num : Z) : list Z := samples <$> seqZ 0 num.

(** * Properties *)

(** ** Unfolding equations *)

Lemma while_below_step a index target :
  while_below a index target =
  if js_lt (js_get a index) target
  then while_below a (js_add index 1) target
  else index.
Proof.
  rewrite while_below_equation_1.
  generalize (inspect (js_lt (js_get a index) target)).
  intros [[] H]; simp while_below; by rewrite H.
Qed.

Lemma binsearch_loop_step nums target low high :
  binsearch_loop nums target low high =
  if bool_decide (low ≤ high) then
    let mid := (high - low) `div` 2 + low in
    let num := js_get nums (JNum mid) in
    if js_seq num target then JNum mid
    else if js_gt num target then binsearch_loop nums target low (mid - 1)
    else binsearch_loop nums target (mid + 1) high
  else JNum (-1).
Proof.
  rewrite binsearch_loop_equation_1.
  destruct (decide (low ≤ high)); simp binsearch_loop.
  - by rewrite bool_decide_eq_true_2.
  - by rewrite bool_decide_eq_false_2.
Qed.

Lemma tricksearch_rec_step a index target :
  tricksearch_rec a index target =
  if js_eq (js_get a index) target then index
  else if js_lt index (JNum 0) then JNum (-1)
  else if js_gt index (JNum (js_length a)) then JNum (-1)
  else if js_lt (js_get a index) target && js_gt (js_get a (js_add index 1)) target
       then JNum (-1)
  else if js_lt (js_get a index) target then tricksearch_rec a (js_add index 1) target
  else if js_gt (js_get a index) target then tricksearch_rec a (js_add index (-1)) target
  else JUndef.
Proof.
  funelim (tricksearch_rec a index target);
    rewrite ?Hhit, ?Hmiss, ?Hneg, ?Hpos, ?Hbig, ?Hsmall, ?Hrev, ?Hlt, ?Hgt;
    try done.
Qed.

Lemma ascending_lookup a i j x y :
  ascending a → (i ≤ j)%nat → a !! i = Some x → a !! j = Some y → x ≤ y.
Proof.
  intros Hs%(Sorted_StronglySorted _). revert i j.
  induction Hs as [|z l Hs IH Hall]; intros i j Hij Hi Hj; [done|].
  destruct i as [|i], j as [|j]; simplify_eq/=; try lia.
  - rewrite Forall_forall in Hall. apply Hall. eapply list_elem_of_lookup_2; eauto.
  - eapply IH; [|done..]. lia.
Qed.

Lemma js_get_in_range a z :
  0 ≤ z < js_length a → ∃ x, a !! Z.to_nat z = Some x ∧ js_get a (JNum z) = JNum x.
Proof.
  intros Hz. unfold js_length in Hz.
  destruct (lookup_lt_is_Some_2 a (Z.to_nat z)) as [x Hx]; [lia|].
  exists x. split; [done|]. simpl. rewrite bool_decide_eq_true_2 by lia.
  by rewrite Hx.
Qed.

Lemma binsearch_loop_spec a t low high :
  ascending a →
  0 ≤ low → high < js_length a →
  (∀ j x, a !! j = Some x → Z.of_nat j < low → x < t) →
  (∀ j x, a !! j = Some x → high < Z.of_nat j → t < x) →
  (∃ i, binsearch_loop a (JNum t) low high = JNum i ∧ low ≤ i ≤ high
        ∧ a !! Z.to_nat i = Some t)
  ∨ (binsearch_loop a (JNum t) low high = JNum (-1) ∧ t ∉ a).
Proof.
  intros Hasc.
  remember (Z.to_nat (high - low + 1)) as n eqn:Hn.
  revert low high Hn.
  induction n as [n IH] using lt_wf_ind.
  intros low high Hn Hlow Hhigh Hbelow Habove.
  rewrite binsearch_loop_step.
  case_bool_decide as Hle; cycle 1.
  { right. split; [done|]. intros (j & Hj)%list_elem_of_lookup_1.
    destruct (decide (Z.of_nat j < low)).
    - pose proof (Hbelow _ _ Hj). lia.
    - pose proof (Habove j _ Hj). lia. }
  set (mid := (high - low) `div` 2 + low).
  assert (low ≤ mid ≤ high) as Hmid.
  { pose proof (Z.div_pos (high - low) 2). pose proof (Z.mul_div_le (high - low) 2).
    unfold mid. lia. }
  destruct (js_get_in_range a mid) as (x & Hx & Hget); [lia|].
  cbv zeta. rewrite Hget. cbn [js_seq js_gt js_lt].
  case_bool_decide as Hxt.
  { left. exists mid. subst x. eauto. }
  case_bool_decide as Hgt.
  - destruct (IH (Z.to_nat (mid - 1 - low + 1)) ltac:(lia) low (mid - 1) eq_refl)
      as [(i & Hi & ? & ?)|[Hi Hnot]]; try done; try lia.
    + intros j y Hj Hlt. apply Z.lt_le_trans with x; [done|].
      eapply (ascending_lookup a (Z.to_nat mid) j); [done|lia|done..].
    + left. exists i. rewrite Hi. split; [done|]. split; [lia|done].
    + right. by rewrite Hi.
  - assert (x < t) by (assert (x ≠ t) by congruence; lia).
    destruct (IH (Z.to_nat (high - (mid + 1) + 1)) ltac:(lia) (mid + 1) high eq_refl)
      as [(i & Hi & ? & ?)|[Hi Hnot]]; try done; try lia.
    + intros j y Hj Hlt. apply Z.le_lt_trans with x; [|lia].
      eapply (ascending_lookup a j (Z.to_nat mid)); [done|lia|done..].
    + left. exists i. rewrite Hi. split; [done|]. split; [lia|done].
    + right. by rewrite Hi.
Qed.

Lemma binsearch_spec a t :
  ascending a →
  (t ∈ a → ∃ i, binsearch a (JNum t) = JNum i ∧ 0 ≤ i < js_length a ∧ a !! Z.to_nat i = Some t)
  ∧ (t ∉ a → binsearch a (JNum t) = JNum (-1)).
Proof.
  intros Hasc. unfold binsearch.
  destruct (binsearch_loop_spec a t 0 (js_length a - 1) Hasc) as [(i & Hi & ? & ?)|[Hi Hnot]];
    try lia.
  - intros j x Hj. pose proof (lookup_lt_Some _ _ _ Hj). unfold js_length. lia.
  - split; [|intros []; by eapply list_elem_of_lookup_2].
    intros _. exists i. split; [done|]. split; [lia|done].
  - split; [done|]. by intros.
Qed.

(** ** The engine's sort *)

Global Instance cmp_le_asc_total : Total (cmp_le cmp_asc).
Proof. intros x y. unfold cmp_le, cmp_asc. lia. Qed.

Lemma js_sort_ascending P : ascending (js_sort cmp_asc P).
Proof.
  unfold ascending, js_sort.
  pose proof (Sorted_merge_sort (cmp_le cmp_asc) P) as Hs.
  induction Hs as [|x l _ IH Hhd]; constructor; [done|].
  destruct Hhd; constructor. unfold cmp_le, cmp_asc in *. lia.
Qed.

Lemma js_sort_perm cmp P : js_sort cmp P ≡ₚ P.
Proof. apply merge_sort_Permutation. Qed.

Lemma js_sort_length cmp P : length (js_sort cmp P) = length P.
Proof. by rewrite js_sort_perm. Qed.

Lemma js_sort_elem_of cmp P x : x ∈ js_sort cmp P ↔ x ∈ P.
Proof. by rewrite js_sort_perm. Qed.

Lemma ascending_adjacent a i x y :
  ascending a → a !! i = Some x → a !! S i = Some y → x ≤ y.
Proof. intros Ha. apply (ascending_lookup a i (S i)); [done|lia]. Qed.

(** ** The loop of the iterative [tricksearch] *)

Lemma while_below_exit a index target :
  js_lt (js_get a (while_below a index target)) target = false.
Proof. funelim (while_below a index target); done. Qed.

Lemma js_not_get_out_of_range a g :
  g < 0 ∨ js_length a ≤ g → js_get a (JNum g) = JUndef.
Proof.
  intros Hg. simpl. case_bool_decide; [|done].
  rewrite lookup_ge_None_2; [done|]. unfold js_length in Hg. lia.
Qed.

Lemma tricksearch_falsy a index target :
  js_not (js_get a index) = true → tricksearch a index target = JUndef.
Proof. intros H. unfold tricksearch. by rewrite H. Qed.

Lemma tricksearch_above a index target :
  js_gt (js_get a index) target = true →
  tricksearch a index target = JUndef ∨ tricksearch a index target = JNum (-1).
Proof.
  intros Hgt. unfold tricksearch.
  destruct (js_not (js_get a index)); [by left|].
  assert (js_lt (js_get a index) target = false) as Hlt.
  { unfold js_gt in Hgt. destruct (js_get a index), target; simpl in *; try done.
    repeat case_bool_decide; try done; lia. }
  rewrite Hlt, Hgt, while_below_step, Hlt.
  assert (js_eq (js_get a index) target = false) as ->; [|by right].
  unfold js_gt in Hgt. destruct (js_get a index), target; simpl in *; try done.
  repeat case_bool_decide; try done; lia.
Qed.

Lemma tricksearch_exact_hit a index target :
  js_lt (js_get a index) target = false →
  js_gt (js_get a index) target = false →
  tricksearch a index target = JUndef.
Proof.
  intros Hlt Hgt. unfold tricksearch. rewrite Hlt, Hgt.
  by destruct (js_not _).
Qed.

Lemma tricksearch_sound a index target i :
  found_index (tricksearch a index target) = Some i →
  ∃ t, target = JNum t ∧ 0 ≤ i ∧ a !! Z.to_nat i = Some t.
Proof.
  assert ((∃ t, target = JNum t) ∨ ¬ (∃ t, target = JNum t)) as [[t ->]|Hnot].
  { destruct target; [right; by intros [? ?]..|left; eauto]. }
  - unfold tricksearch.
    assert (∀ ix, found_index (if js_eq (js_get a ix) (JNum t) then ix else JNum (-1)) = Some i →
                  ∃ t', JNum t = JNum t' ∧ 0 ≤ i ∧ a !! Z.to_nat i = Some t') as Hret.
    { intros ix. destruct (js_eq (js_get a ix) (JNum t)) eqn:Heq; [|done].
      destruct ix as [| |z]; simpl; try done.
      case_bool_decide; [|done]. intros [= ->].
      simpl in Heq. rewrite bool_decide_eq_true_2 in Heq by done.
      destruct (a !! Z.to_nat i) as [x|]; simpl in Heq; [|done].
      case_bool_decide; [|done]. subst. eauto. }
    destruct (js_not _); [done|].
    destruct (js_lt _ _); [apply Hret|].
    destruct (js_gt _ _); [apply Hret|done].
  - rewrite tricksearch_exact_hit; [done|..].
    + destruct (js_get a index), target; try done. destruct Hnot; eauto.
    + unfold js_gt. destruct (js_get a index), target; try done. destruct Hnot; eauto.
Qed.

(** ** The recursive [tricksearch] walks the specified correction scan *)

Lemma tricksearch_rec_out_of_range a g t :
  g < 0 ∨ js_length a ≤ g →
  tricksearch_rec a (JNum g) (JNum t) =
  if bool_decide (g = js_length a) then JUndef else JNum (-1).
Proof.
  intros Hg. rewrite tricksearch_rec_step.
  rewrite (js_not_get_out_of_range a g Hg). cbn [js_eq js_lt js_gt andb].
  unfold js_length in *.
  repeat case_bool_decide; try done; exfalso; lia.
Qed.

Lemma js_get_lookup a (n : nat) :
  js_get a (JNum (Z.of_nat n)) = from_option JNum JUndef (a !! n).
Proof.
  simpl. rewrite bool_decide_eq_true_2 by lia. by rewrite Nat2Z.id.
Qed.

Lemma tricksearch_rec_scan_up a t cells (n : nat) :
  drop n a = cells →
  js_gt (js_get a (JNum (Z.of_nat n))) (JNum t) = false →
  found_index (tricksearch_rec a (JNum (Z.of_nat n)) (JNum t))
  = scan_up cells (Z.of_nat n) t.
Proof.
  revert n. induction cells as [|x rest IH]; intros n Hdrop Hngt.
  - apply drop_nil_inv in Hdrop.
    rewrite tricksearch_rec_out_of_range by (unfold js_length; lia).
    by case_bool_decide.
  - assert (a !! n = Some x) as Hx.
    { rewrite <-(Nat.add_0_r n), <-lookup_drop, Hdrop. done. }
    assert (drop (S n) a = rest) as Hrest.
    { rewrite (drop_S _ _ _ Hx) in Hdrop. by injection Hdrop. }
    pose proof (lookup_lt_Some _ _ _ Hx) as Hlen.
    rewrite tricksearch_rec_step.
    rewrite js_get_lookup, Hx in Hngt |- *. cbn [from_option js_eq js_lt js_gt] in *.
    simpl scan_up.
    apply bool_decide_eq_false in Hngt.
    case_bool_decide as Hxt.
    { simpl. rewrite bool_decide_eq_true_2 by lia. done. }
    rewrite (bool_decide_eq_false_2 (Z.of_nat n < 0)) by lia.
    rewrite (bool_decide_eq_false_2 (js_length a < Z.of_nat n))
      by (unfold js_length; lia).
    rewrite (bool_decide_eq_true_2 (x < t)) by lia.
    cbn [andb js_add].
    replace (Z.of_nat n + 1) with (Z.of_nat (S n)) by lia.
    rewrite js_get_lookup.
    destruct (a !! S n) as [y|] eqn:Hy; cbn [from_option].
    + case_bool_decide as Hty.
      * rewrite <-Hrest, (drop_S _ _ _ Hy). simpl.
        rewrite !bool_decide_eq_false_2 by lia. done.
      * apply IH; [done|]. rewrite js_get_lookup, Hy. simpl.
        by rewrite bool_decide_eq_false_2.
    + apply IH; [done|]. by rewrite js_get_lookup, Hy.
Qed.

Lemma tricksearch_rec_scan_down a t cells (n : nat) :
  reverse (take n a) = cells →
  js_gt (js_get a (JNum (Z.of_nat n))) (JNum t) = true →
  found_index (tricksearch_rec a (JNum (Z.of_nat n - 1)) (JNum t))
  = scan_down cells (Z.of_nat n - 1) t.
Proof.
  revert n. induction cells as [|x rest IH]; intros n Hrev Hgt.
  - rewrite js_get_lookup in Hgt.
    destruct (a !! n) as [y|] eqn:Hy; [|done].
    apply lookup_lt_Some in Hy.
    assert (n = 0%nat) as ->.
    { apply (f_equal length) in Hrev.
      rewrite length_reverse, length_take in Hrev. simpl in Hrev. lia. }
    rewrite tricksearch_rec_out_of_range by lia.
    by case_bool_decide.
  - destruct n as [|m].
    { by rewrite take_0 in Hrev. }
    assert (is_Some (a !! m)) as [x' Hx].
    { apply lookup_lt_is_Some_2. rewrite js_get_lookup in Hgt.
      destruct (a !! S m) eqn:E; [|done]. apply lookup_lt_Some in E. lia. }
    rewrite (take_S_r _ _ _ Hx), reverse_snoc in Hrev.
    injection Hrev as -> Hrest.
    pose proof (lookup_lt_Some _ _ _ Hx) as Hlen.
    replace (Z.of_nat (S m) - 1) with (Z.of_nat m) by lia.
    rewrite tricksearch_rec_step.
    cbn [js_add]. replace (Z.of_nat m + 1) with (Z.of_nat (S m)) by lia.
    rewrite Hgt.
    rewrite js_get_lookup, Hx. cbn [from_option js_eq js_lt js_gt].
    simpl scan_down.
    case_bool_decide as Hxt.
    { simpl. rewrite bool_decide_eq_true_2 by lia. done. }
    rewrite (bool_decide_eq_false_2 (Z.of_nat m < 0)) by lia.
    rewrite (bool_decide_eq_false_2 (js_length a < Z.of_nat m))
      by (unfold js_length; lia).
    rewrite andb_true_r.
    destruct (decide (x < t)) as [Hlt|Hge].
    + rewrite (bool_decide_eq_true_2 (x < t)) by done.
      rewrite (bool_decide_eq_false_2 (t < x)) by lia. done.
    + rewrite (bool_decide_eq_false_2 (x < t)) by done.
      rewrite (bool_decide_eq_true_2 (t < x)) by lia.
      replace (Z.of_nat m + -1) with (Z.of_nat m - 1) by lia.
      apply IH; [done|].
      rewrite js_get_lookup, Hx. simpl. rewrite bool_decide_eq_true_2 by lia. done.
Qed.

Lemma tricksearch_rec_correction_scan a g t :
  found_index (tricksearch_rec a (JNum g) (JNum t)) = correction_scan a g t.
Proof.
  unfold correction_scan.
  case_bool_decide as Hg; cycle 1.
  { rewrite tricksearch_rec_out_of_range by lia. by case_bool_decide. }
  destruct (a !! Z.to_nat g) as [x|] eqn:Hx; cycle 1.
  { apply lookup_ge_None_1 in Hx.
    rewrite tricksearch_rec_out_of_range by (unfold js_length; lia).
    by case_bool_decide. }
  pose proof (lookup_lt_Some _ _ _ Hx) as Hlen.
  rewrite <-(Z2Nat.id g) by done.
  set (n := Z.to_nat g) in *. rewrite Nat2Z.id.
  rewrite tricksearch_rec_step.
  rewrite js_get_lookup, Hx. cbn [from_option js_eq js_lt js_gt js_add].
  case_bool_decide as Hxt.
  { simpl. rewrite bool_decide_eq_true_2 by lia. done. }
  rewrite (bool_decide_eq_false_2 (Z.of_nat n < 0)) by lia.
  rewrite (bool_decide_eq_false_2 (js_length a < Z.of_nat n))
    by (unfold js_length; lia).
  replace (Z.of_nat n + 1) with (Z.of_nat (S n)) by lia.
  destruct (decide (x < t)) as [Hlt|Hge].
  - rewrite (bool_decide_eq_true_2 (x < t)) by done. cbn [andb].
    rewrite js_get_lookup.
    destruct (a !! S n) as [y|] eqn:Hy; cbn [from_option].
    + case_bool_decide as Hty.
      * rewrite (drop_S _ _ _ Hy). simpl.
        rewrite !bool_decide_eq_false_2 by lia. done.
      * apply tricksearch_rec_scan_up; [done|].
        rewrite js_get_lookup, Hy. simpl. by rewrite bool_decide_eq_false_2.
    + apply tricksearch_rec_scan_up; [done|]. by rewrite js_get_lookup, Hy.
  - rewrite (bool_decide_eq_false_2 (x < t)) by done. cbn [andb].
    rewrite (bool_decide_eq_true_2 (t < x)) by lia.
    replace (Z.of_nat n + -1) with (Z.of_nat n - 1) by lia.
    apply tricksearch_rec_scan_down; [done|].
    rewrite js_get_lookup, Hx. simpl. rewrite bool_decide_eq_true_2 by lia. done.
Qed.

(** ** The specified scan finds every key of an ascending array *)

Lemma scan_up_finds cells i k :
  StronglySorted Z.le cells → k ∈ cells →
  ∃ n, scan_up cells i k = Some (i + Z.of_nat n) ∧ cells !! n = Some k.
Proof.
  intros Hs. revert i. induction Hs as [|x rest Hs IH Hall]; intros i Hk.
  - by apply elem_of_nil in Hk.
  - simpl. case_bool_decide as Hx.
    + exists 0%nat. subst. split; [f_equal; lia|done].
    + apply elem_of_cons in Hk as [->|Hk]; [done|].
      rewrite Forall_forall in Hall. pose proof (Hall _ Hk).
      rewrite bool_decide_eq_true_2 by lia.
      destruct (IH (i + 1) Hk) as (n & Hn & Hcell).
      exists (S n). split; [rewrite Hn; f_equal; lia|done].
Qed.

Lemma scan_down_finds cells i k :
  StronglySorted (flip Z.le) cells → k ∈ cells →
  ∃ n, scan_down cells i k = Some (i - Z.of_nat n) ∧ cells !! n = Some k.
Proof.
  intros Hs. revert i. induction Hs as [|x rest Hs IH Hall]; intros i Hk.
  - by apply elem_of_nil in Hk.
  - simpl. case_bool_decide as Hx.
    + exists 0%nat. subst. split; [f_equal; lia|done].
    + apply elem_of_cons in Hk as [->|Hk]; [done|].
      rewrite Forall_forall in Hall. pose proof (Hall _ Hk) as Hle.
      unfold flip in Hle.
      rewrite bool_decide_eq_true_2 by lia.
      destruct (IH (i - 1) Hk) as (n & Hn & Hcell).
      exists (S n). split; [rewrite Hn; f_equal; lia|done].
Qed.

Lemma StronglySorted_reverse_flip (l : list Z) :
  StronglySorted Z.le l → StronglySorted (flip Z.le) (reverse l).
Proof.
  induction 1 as [|x l Hs IH Hall]; [constructor|].
  rewrite reverse_cons. apply StronglySorted_app_2.
  - intros x1 x2 Hx1 Hx2. rewrite elem_of_reverse in Hx1.
    rewrite list_elem_of_singleton in Hx2. subst.
    rewrite Forall_forall in Hall. by apply Hall.
  - done.
  - repeat constructor.
Qed.

Lemma correction_scan_finds a g k :
  ascending a → k ∈ a → 0 ≤ g < js_length a →
  ∃ i, correction_scan a g k = Some i ∧ 0 ≤ i ∧ a !! Z.to_nat i = Some k.
Proof.
  intros Hasc Hk Hg. unfold correction_scan.
  pose proof Hg as Hg'. unfold js_length in Hg'.
  rewrite bool_decide_eq_true_2 by lia.
  destruct (js_get_in_range a g Hg) as (x & Hx & _). rewrite Hx.
  case_bool_decide as Hxk.
  { exists g. subst. split; [done|]. split; [lia|done]. }
  apply (Sorted_StronglySorted _) in Hasc.
  pose proof (take_drop_middle a (Z.to_nat g) x Hx) as Hsplit.
  rewrite <-Hsplit in Hasc, Hk.
  apply StronglySorted_app in Hasc as (Hcross & Hleft & Hright).
  apply StronglySorted_cons in Hright as [Hall Hright].
  rewrite Forall_forall in Hall.
  apply elem_of_app in Hk as [Hk|Hk].
  - (* the key is left of the guess *)
    assert (k ≤ x) by (apply (Hcross k x); [done|left]).
    rewrite bool_decide_eq_false_2 by lia.
    destruct (scan_down_finds (reverse (take (Z.to_nat g) a)) (g - 1) k)
      as (n & Hn & Hcell).
    { by apply StronglySorted_reverse_flip. }
    { by rewrite elem_of_reverse. }
    pose proof (lookup_lt_Some _ _ _ Hcell) as Hlen.
    rewrite length_reverse, length_take in Hlen.
    rewrite reverse_lookup in Hcell by (rewrite length_take; lia).
    rewrite length_take in Hcell.
    rewrite lookup_take_lt in Hcell by lia.
    exists (g - 1 - Z.of_nat n). split; [done|]. split; [lia|].
    rewrite <-Hcell. f_equal. lia.
  - apply elem_of_cons in Hk as [->|Hk]; [done|].
    pose proof (Hall _ Hk).
    rewrite bool_decide_eq_true_2 by lia.
    destruct (scan_up_finds (drop (S (Z.to_nat g)) a) (g + 1) k Hright Hk)
      as (n & Hn & Hcell).
    rewrite lookup_drop in Hcell.
    exists (g + 1 + Z.of_nat n). split; [done|]. split; [lia|].
    rewrite <-Hcell. f_equal. lia.
Qed.

(** Started inside the array, the recursive [tricksearch] of the older copy
    finds every key of an ascending array. *)
Lemma tricksearch_rec_finds a g k :
  ascending a → k ∈ a → 0 ≤ g < js_length a →
  ∃ i, found_index (tricksearch_rec a (JNum g) (JNum k)) = Some i
       ∧ 0 ≤ i ∧ a !! Z.to_nat i = Some k.
Proof.
  intros. rewrite tricksearch_rec_correction_scan.
  by apply correction_scan_finds.
Qed.

(** ** Hash map build and lookup *)

Lemma hash_build_prefix dataset (n : nat) key i :
  foldl (λ map i, <[js_get dataset (JNum i) := i]> map) (∅ : gmap jsval Z)
        (seqZ 0 (Z.of_nat n)) !! key = Some i
  ↔ 0 ≤ i < Z.of_nat n ∧ js_get dataset (JNum i) = key
    ∧ ∀ j, 0 ≤ j < Z.of_nat n → js_get dataset (JNum j) = key → j ≤ i.
Proof.
  revert i. induction n as [|n IH]; intros i.
  - simpl. rewrite lookup_empty. split; [done|lia].
  - rewrite seqZ_S, foldl_app, Z.add_0_l. cbn [foldl].
    destruct (decide (js_get dataset (JNum (Z.of_nat n)) = key)) as [Heq|Hne].
    + rewrite Heq, lookup_insert_eq. split.
      * intros [= <-]. split; [lia|]. split; [done|]. intros; lia.
      * intros (Hi & _ & Hmax). f_equal.
        pose proof (Hmax (Z.of_nat n) ltac:(lia) Heq). lia.
    + rewrite lookup_insert_ne by done. rewrite IH. split.
      * intros (Hi & Hk & Hmax). split; [lia|]. split; [done|].
        intros j Hj Hjk. destruct (decide (j = Z.of_nat n)) as [->|]; [done|].
        apply Hmax; [lia|done].
      * intros (Hi & Hk & Hmax).
        assert (i ≠ Z.of_nat n) by congruence.
        split; [lia|]. split; [done|]. intros j Hj. apply Hmax. lia.
Qed.

Lemma hash_build_lookup dataset key i :
  hash_build dataset !! key = Some i
  ↔ 0 ≤ i < js_length dataset ∧ js_get dataset (JNum i) = key
    ∧ ∀ j, 0 ≤ j < js_length dataset → js_get dataset (JNum j) = key → j ≤ i.
Proof. apply hash_build_prefix. Qed.

Lemma hash_build_lookup_None dataset (k : Z) :
  k ∉ dataset → hash_build dataset !! JNum k = None.
Proof.
  intros Hk. destruct (hash_build dataset !! JNum k) as [i|] eqn:E; [|done].
  apply hash_build_lookup in E as (Hi & Hget & _).
  destruct (js_get_in_range dataset i Hi) as (x & Hx & Hget').
  rewrite Hget' in Hget. injection Hget as ->.
  destruct Hk. by eapply list_elem_of_lookup_2.
Qed.

Lemma hash_build_lookup_Some dataset (k : Z) :
  k ∈ dataset → is_Some (hash_build dataset !! JNum k).
Proof.
  intros Hk.
  destruct (hash_build dataset !! JNum k) as [i|] eqn:E; [eauto|].
  exfalso.
  (* some position holds [k]; take the last one *)
  assert (∃ n, (n ≤ length dataset)%nat ∧
               foldl (λ map i, <[js_get dataset (JNum i) := i]> map) (∅ : gmap jsval Z)
                 (seqZ 0 (Z.of_nat n)) !! JNum k = None ∧
               ∀ j, (n ≤ j)%nat → dataset !! j ≠ Some k) as (n & Hn & Hnone & Hrest).
  { exists (length dataset). split; [done|]. split; [exact E|].
    intros j Hj Hjk. apply lookup_lt_Some in Hjk. lia. }
  induction n as [|n IH].
  - apply list_elem_of_lookup_1 in Hk as [j Hj]. apply (Hrest j); [lia|done].
  - rewrite seqZ_S, foldl_app, Z.add_0_l in Hnone. cbn [foldl] in Hnone.
    destruct (decide (js_get dataset (JNum (Z.of_nat n)) = JNum k)) as [Heq|Hne].
    + by rewrite Heq, lookup_insert_eq in Hnone.
    + rewrite lookup_insert_ne in Hnone by done.
      apply IH; [lia|done|].
      intros j Hj. destruct (decide (j = n)) as [->|]; [|apply Hrest; lia].
      intros Hjk. apply Hne. by rewrite js_get_lookup, Hjk.
Qed.

(** ** What the iterative [tricksearch] finds *)

Lemma while_below_scan_up a t cells (n : nat) :
  drop n a = cells →
  found_index (if js_eq (js_get a (while_below a (JNum (Z.of_nat n)) (JNum t))) (JNum t)
               then while_below a (JNum (Z.of_nat n)) (JNum t)
               else JNum (-1))
  = scan_up cells (Z.of_nat n) t.
Proof.
  revert n. induction cells as [|x rest IH]; intros n Hdrop.
  - apply drop_nil_inv in Hdrop.
    rewrite while_below_step, js_get_lookup, (lookup_ge_None_2 a n) by done.
    cbn [from_option js_lt]. by rewrite js_get_lookup, (lookup_ge_None_2 a n).
  - assert (a !! n = Some x) as Hx.
    { rewrite <-(Nat.add_0_r n), <-lookup_drop, Hdrop. done. }
    assert (drop (S n) a = rest) as Hrest.
    { rewrite (drop_S _ _ _ Hx) in Hdrop. by injection Hdrop. }
    rewrite while_below_step, js_get_lookup, Hx. cbn [from_option js_lt js_add].
    simpl scan_up.
    destruct (decide (x < t)) as [Hlt|Hge].
    + rewrite (bool_decide_eq_true_2 (x < t)) by done.
      rewrite (bool_decide_eq_false_2 (x = t)) by lia.
      replace (Z.of_nat n + 1) with (Z.of_nat (S n)) by lia.
      by apply IH.
    + rewrite (bool_decide_eq_false_2 (x < t)) by done.
      rewrite js_get_lookup, Hx. cbn [from_option js_eq].
      case_bool_decide; [|done].
      simpl. by rewrite bool_decide_eq_true_2 by lia.
Qed.

Lemma tricksearch_characterization a g t :
  found_index (tricksearch a (JNum g) (JNum t))
  = match js_get a (JNum g) with
    | JNum x => if bool_decide (x ≠ 0 ∧ x < t) then correction_scan a g t else None
    | _ => None
    end.
Proof.
  destruct (decide (0 ≤ g ∧ g < js_length a)) as [Hg|Hg]; cycle 1.
  { rewrite js_not_get_out_of_range by lia.
    by rewrite tricksearch_falsy by by rewrite js_not_get_out_of_range by lia. }
  destruct (js_get_in_range a g Hg) as (x & Hx & Hget). rewrite Hget.
  unfold tricksearch. rewrite Hget. cbn [js_not js_lt js_gt].
  destruct (decide (x = 0)) as [->|Hx0].
  { rewrite bool_decide_eq_true_2 by done.
    rewrite bool_decide_eq_false_2; [done|]. intros [? _]. done. }
  rewrite (bool_decide_eq_false_2 (x = 0)) by done.
  destruct (decide (x < t)) as [Hlt|Hge].
  - rewrite (bool_decide_eq_true_2 (x < t)) by done.
    rewrite (bool_decide_eq_true_2 (x ≠ 0 ∧ x < t)) by done.
    rewrite <-(Z2Nat.id g) by lia.
    rewrite (while_below_scan_up a t (drop (Z.to_nat g) a)) by done.
    unfold correction_scan. rewrite bool_decide_eq_true_2 by lia.
    rewrite Nat2Z.id, Hx, (drop_S _ _ _ Hx). simpl.
    rewrite (bool_decide_eq_false_2 (x = t)) by lia.
    by rewrite (bool_decide_eq_true_2 (x < t)) by done.
  - rewrite (bool_decide_eq_false_2 (x < t)) by done.
    rewrite (bool_decide_eq_false_2 (x ≠ 0 ∧ x < t)) by tauto.
    case_bool_decide; [|done].
    rewrite while_below_step, Hget. cbn [js_lt].
    rewrite (bool_decide_eq_false_2 (x < t)) by done.
    rewrite Hget. cbn [js_eq].
    by rewrite bool_decide_eq_false_2 by lia.
Qed.

(** ** The AVL tree: search returns the positions inserted for the key *)

Lemma rotate_right_keys t : avl_keys (rotate_right t) = avl_keys t.
Proof.
  destruct t as [|[|ll lk ld lr] k d r]; simpl; try done.
  by rewrite <-(assoc_L (++)).
Qed.

Lemma rotate_left_keys t : avl_keys (rotate_left t) = avl_keys t.
Proof.
  destruct t as [|l k d [|rl rk rd rr]]; simpl; try done.
  by rewrite <-(assoc_L (++)).
Qed.

Lemma rotate_right_positions t key :
  stored_positions (rotate_right t) key = stored_positions t key.
Proof.
  destruct t as [|[|ll lk ld lr] k d r]; simpl; try done.
  by rewrite <-!(assoc_L (++)).
Qed.

Lemma rotate_left_positions t key :
  stored_positions (rotate_left t) key = stored_positions t key.
Proof.
  destruct t as [|l k d [|rl rk rd rr]]; simpl; try done.
  by rewrite <-!(assoc_L (++)).
Qed.

Lemma rebalance_keys t : avl_keys (rebalance t) = avl_keys t.
Proof.
  destruct t as [|l k d r]; [done|]. unfold rebalance.
  repeat case_bool_decide;
    rewrite ?rotate_right_keys, ?rotate_left_keys; try done;
    cbn [avl_keys]; by rewrite ?rotate_right_keys, ?rotate_left_keys.
Qed.

Lemma rebalance_positions t key :
  stored_positions (rebalance t) key = stored_positions t key.
Proof.
  destruct t as [|l k d r]; [done|]. unfold rebalance.
  repeat case_bool_decide;
    rewrite ?rotate_right_positions, ?rotate_left_positions; try done;
    cbn [stored_positions];
    by rewrite ?rotate_right_positions, ?rotate_left_positions.
Qed.

Lemma stored_positions_absent t key :
  key ∉ avl_keys t → stored_positions t key = [].
Proof.
  induction t as [|l IHl k d r IHr]; [done|]. cbn [avl_keys stored_positions].
  rewrite elem_of_app, elem_of_cons. intros Hnot.
  rewrite IHl, IHr by tauto.
  rewrite bool_decide_eq_false_2; [done|]. intros ->. tauto.
Qed.

Lemma avl_ordered_node l k d r :
  avl_ordered (AvlNode l k d r) ↔
  avl_ordered l ∧ avl_ordered r
  ∧ (∀ x, x ∈ avl_keys l → x < k) ∧ (∀ x, x ∈ avl_keys r → k < x).
Proof.
  unfold avl_ordered. cbn [avl_keys].
  rewrite StronglySorted_app, StronglySorted_cons, Forall_forall.
  split.
  - intros (Hlr & Hl & Hk & Hr). repeat split; try done.
    intros x Hx. apply (Hlr x k); [done|left].
  - intros (Hl & Hr & Hlk & Hkr). repeat split; try done.
    intros x1 x2 Hx1 [->|Hx2]%elem_of_cons; [by apply Hlk|].
    pose proof (Hlk _ Hx1). pose proof (Hkr _ Hx2). lia.
Qed.

Lemma avl_search_positions t key :
  avl_ordered t → avl_search t key = stored_positions t key.
Proof.
  induction t as [|l IHl k d r IHr]; [done|].
  intros (Hl & Hr & Hlk & Hkr)%avl_ordered_node.
  cbn [avl_search stored_positions].
  repeat case_bool_decide; try lia.
  - rewrite IHl by done.
    rewrite (stored_positions_absent r); [by rewrite !app_nil_r|].
    intros Hin%Hkr. lia.
  - rewrite IHr by done.
    rewrite (stored_positions_absent l); [done|].
    intros Hin%Hlk. lia.
  - rewrite (stored_positions_absent l), (stored_positions_absent r).
    + by rewrite app_nil_r.
    + intros Hin%Hkr. lia.
    + intros Hin%Hlk. lia.
Qed.

Lemma avl_insert_keys key pos t x :
  x ∈ avl_keys (avl_insert key pos t) ↔ x = key ∨ x ∈ avl_keys t.
Proof.
  induction t as [|l IHl k d r IHr]; cbn [avl_insert avl_keys].
  - set_solver.
  - repeat case_bool_decide; rewrite ?rebalance_keys; cbn [avl_keys];
      rewrite !elem_of_app, !elem_of_cons, ?IHl, ?IHr, ?elem_of_app, ?elem_of_cons.
    + tauto.
    + tauto.
    + assert (key = k) by lia. subst. tauto.
Qed.

Lemma avl_insert_ordered key pos t :
  avl_ordered t → avl_ordered (avl_insert key pos t).
Proof.
  induction t as [|l IHl k d r IHr]; cbn [avl_insert].
  - intros _. unfold avl_ordered. simpl. repeat constructor.
  - intros (Hl & Hr & Hlk & Hkr)%avl_ordered_node.
    repeat case_bool_decide.
    + unfold avl_ordered. rewrite rebalance_keys. apply avl_ordered_node.
      repeat split; [by apply IHl|done| |done].
      intros x [->|Hx]%avl_insert_keys; [done|by apply Hlk].
    + unfold avl_ordered. rewrite rebalance_keys. apply avl_ordered_node.
      repeat split; [done|by apply IHr|done|].
      intros x [->|Hx]%avl_insert_keys; [done|by apply Hkr].
    + by apply avl_ordered_node.
Qed.

Lemma avl_insert_positions key pos t key' :
  avl_ordered t →
  stored_positions (avl_insert key pos t) key'
  = if bool_decide (key = key')
    then stored_positions t key' ++ [pos]
    else stored_positions t key'.
Proof.
  induction t as [|l IHl k d r IHr]; cbn [avl_insert].
  - intros _. simpl. by case_bool_decide.
  - intros (Hl & Hr & Hlk & Hkr)%avl_ordered_node.
    destruct (decide (key < k)) as [Hlt|Hge].
    { rewrite (bool_decide_eq_true_2 (key < k)) by done.
      rewrite rebalance_positions. cbn [stored_positions]. rewrite IHl by done.
      case_bool_decide as Hkk; [|done]. subst key'.
      rewrite (stored_positions_absent r); [|intros Hin%Hkr; lia].
      rewrite (bool_decide_eq_false_2 (k = key)) by lia.
      by rewrite !app_nil_r. }
    rewrite (bool_decide_eq_false_2 (key < k)) by done.
    destruct (decide (k < key)) as [Hgt|Hle].
    { rewrite (bool_decide_eq_true_2 (k < key)) by done.
      rewrite rebalance_positions. cbn [stored_positions]. rewrite IHr by done.
      case_bool_decide as Hkk; [|done]. subst key'.
      by rewrite !(assoc_L (++)). }
    rewrite (bool_decide_eq_false_2 (k < key)) by done.
    assert (key = k) as -> by lia.
    cbn [stored_positions].
    case_bool_decide as Hkk; [|done]. subst key'.
    rewrite (stored_positions_absent r); [|intros Hin%Hkr; lia].
    by rewrite !app_nil_r, (assoc_L (++)).
Qed.

Lemma avl_build_prefix dataset (n : nat) :
  (n ≤ length dataset)%nat →
  let t := foldl (λ t i, avl_insert_js (js_get dataset (JNum i)) i t) AvlLeaf
             (seqZ 0 (Z.of_nat n)) in
  avl_ordered t ∧
  ∀ key, stored_positions t key
         = filter (λ i, js_get dataset (JNum i) = JNum key) (seqZ 0 (Z.of_nat n)).
Proof.
  induction n as [|n IH]; intros Hn; cbv zeta.
  - split; [constructor|done].
  - destruct IH as [Hord Hpos]; [lia|].
    rewrite seqZ_S, foldl_app, Z.add_0_l. cbn [foldl].
    destruct (lookup_lt_is_Some_2 dataset n) as [x Hx]; [lia|].
    rewrite js_get_lookup, Hx. cbn [from_option avl_insert_js].
    split; [by apply avl_insert_ordered|].
    intros key. rewrite avl_insert_positions by done.
    rewrite filter_app, Hpos.
    rewrite filter_cons, filter_nil, js_get_lookup, Hx. cbn [from_option].
    case_bool_decide as Hk.
    + subst. by rewrite decide_True.
    + rewrite decide_False by congruence. by rewrite app_nil_r.
Qed.

Lemma avl_build_ordered dataset : avl_ordered (avl_build dataset).
Proof. by apply (avl_build_prefix dataset (length dataset)). Qed.

Lemma avl_build_search dataset key :
  avl_search (avl_build dataset) key
  = filter (λ i, js_get dataset (JNum i) = JNum key) (seqZ 0 (js_length dataset)).
Proof.
  rewrite avl_search_positions by apply avl_build_ordered.
  by apply (avl_build_prefix dataset (length dataset)).
Qed.

Lemma avl_build_search_present dataset key :
  key ∈ dataset → avl_search (avl_build dataset) key ≠ [].
Proof.
  intros [n Hn]%list_elem_of_lookup_1. rewrite avl_build_search.
  intros Hnil.
  assert (Z.of_nat n ∈ filter (λ i, js_get dataset (JNum i) = JNum key)
                        (seqZ 0 (js_length dataset))) as Hin.
  { apply list_elem_of_filter. split.
    - by rewrite js_get_lookup, Hn.
    - apply elem_of_seqZ. apply lookup_lt_Some in Hn. unfold js_length. lia. }
  rewrite Hnil in Hin. by apply not_elem_of_nil in Hin.
Qed.

Lemma avl_build_search_absent dataset key :
  key ∉ dataset → avl_search (avl_build dataset) key = [].
Proof.
  intros Hnot. rewrite avl_build_search.
  destruct (filter _ _) as [|i rest] eqn:E; [done|].
  assert (i ∈ filter (λ i, js_get dataset (JNum i) = JNum key)
                (seqZ 0 (js_length dataset))) as Hin by (rewrite E; left).
  apply list_elem_of_filter in Hin as [Hget Hin].
  apply elem_of_seqZ in Hin.
  destruct (js_get_in_range dataset i) as (x & Hx & Hget'); [lia|].
  rewrite Hget' in Hget. injection Hget as ->.
  destruct Hnot. by eapply list_elem_of_lookup_2.
Qed.

(** ** The AVL tree: the balance holds after every insert *)

Lemma rebalance_balanced l k d r :
  avl_balanced l → avl_balanced r →
  -2 ≤ balance_factor (AvlNode l k d r) ≤ 2 →
  avl_balanced (rebalance (AvlNode l k d r))
  ∧ (avl_height (AvlNode l k d r) - 1 ≤ avl_height (rebalance (AvlNode l k d r))
     ≤ avl_height (AvlNode l k d r))%nat
  ∧ (-1 ≤ balance_factor (AvlNode l k d r) ≤ 1 →
     rebalance (AvlNode l k d r) = AvlNode l k d r).
Proof.
  intros Hl Hr Hbf. unfold rebalance.
  case_bool_decide as H1.
  - case_bool_decide as H2.
    + destruct l as [|ll lk ld [|lrl lrk lrd lrr]]; cbn in *; try lia.
      repeat split; try tauto; lia.
    + destruct l as [|ll lk ld lr]; cbn in *; try lia.
      repeat split; try tauto; lia.
  - case_bool_decide as H3.
    + case_bool_decide as H4.
      * destruct r as [|[|rll rlk rld rlr] rk rd rr]; cbn in *; try lia.
        repeat split; try tauto; lia.
      * destruct r as [|rl rk rd rr]; cbn in *; try lia.
        repeat split; try tauto; lia.
    + cbn in *. repeat split; try tauto; lia.
Qed.

Lemma avl_insert_balanced key pos t :
  avl_balanced t →
  avl_balanced (avl_insert key pos t)
  ∧ (avl_height t ≤ avl_height (avl_insert key pos t) ≤ S (avl_height t))%nat.
Proof.
  induction t as [|l IHl k d r IHr]; cbn [avl_insert].
  - intros _. cbn. lia.
  - intros (Hl & Hr & Hbf).
    specialize (IHl Hl). specialize (IHr Hr).
    repeat case_bool_decide.
    + destruct IHl as [Hl' Hh].
      destruct (rebalance_balanced (avl_insert key pos l) k d r Hl' Hr) as (Hb & Hhb & Hid).
      { cbn in *. lia. }
      split; [done|].
      destruct (decide (-1 ≤ balance_factor (AvlNode (avl_insert key pos l) k d r) ≤ 1)) as [Hok|Hbad].
      * rewrite Hid by done. cbn in *. lia.
      * cbn in *. lia.
    + destruct IHr as [Hr' Hh].
      destruct (rebalance_balanced l k d (avl_insert key pos r) Hl Hr') as (Hb & Hhb & Hid).
      { cbn in *. lia. }
      split; [done|].
      destruct (decide (-1 ≤ balance_factor (AvlNode l k d (avl_insert key pos r)) ≤ 1)) as [Hok|Hbad].
      * rewrite Hid by done. cbn in *. lia.
      * cbn in *. lia.
    + cbn in *. split; [tauto|lia].
Qed.

Lemma avl_build_balanced dataset : avl_balanced (avl_build dataset).
Proof.
  unfold avl_build.
  assert (avl_balanced AvlLeaf) as H by done.
  revert H. generalize AvlLeaf. generalize (seqZ 0 (js_length dataset)).
  intros l. induction l as [|i l IH]; intros t Ht; [done|].
  cbn [foldl]. apply IH.
  destruct (js_get dataset (JNum i)); cbn [avl_insert_js]; try done.
  by apply avl_insert_balanced.
Qed.

(** ** Present keys and the three other strategies *)

(** The hash map, the binary search and the AVL tree find every key of the
    population. *)
Lemma other_strategies_find P k :
  k ∈ P →
  map_has (hash_build P) (JNum k) = true
  ∧ (∃ i, binsearch (js_sort cmp_asc P) (JNum k) = JNum i
          ∧ js_sort cmp_asc P !! Z.to_nat i = Some k)
  ∧ avl_search (avl_build P) k ≠ [].
Proof.
  intros Hk. split; [|split].
  - unfold map_has. apply bool_decide_eq_true_2. by apply hash_build_lookup_Some.
  - destruct (binsearch_spec (js_sort cmp_asc P) k (js_sort_ascending P)) as [Hin _].
    destruct Hin as (i & Hi & _ & Hcell); [by apply js_sort_elem_of|].
    eauto.
  - by apply avl_build_search_present.
Qed.

(** ** Running the handlers *)

Lemma run_bind {A B} (m : M A) (f : A → M B) s :
  run (m ≫= f) s =
  match run m s with
  | Ok a s' => run (f a) s'
  | Throw e => Throw e
  | Stuck => Stuck
  end.
Proof. done. Qed.

Lemma run_ret {A} (a : A) s : run (mret a) s = Ok a s.
Proof. done. Qed.

Lemma run_contents s l a :
  heap s !! l = Some a → run (contents l) s = Ok a s.
Proof. intros H. unfold contents. simpl. by rewrite H. Qed.

Lemma wf_state_population s :
  wf_state s → heap s !! dataset s = Some (population s).
Proof.
  intros [Hd _]. unfold population, array_at.
  destruct (lookup_lt_is_Some_2 _ _ Hd) as [a Ha]. by rewrite Ha.
Qed.

Lemma wf_state_queryset s :
  wf_state s → heap s !! testset s = Some (queryset s).
Proof.
  intros [_ Ht]. unfold queryset, array_at.
  destruct (lookup_lt_is_Some_2 _ _ Ht) as [a Ha]. by rewrite Ha.
Qed.

Lemma run_read_query s index :
  wf_state s → run (read_query index) s = Ok (js_get (queryset s) (JNum index)) s.
Proof.
  intros Hwf. unfold read_query. rewrite run_bind. cbn [run read_testset].
  rewrite run_bind, (run_contents _ _ _ (wf_state_queryset s Hwf)).
  done.
Qed.

Lemma run_for_each_pure {A} (body : Z → M A) (f : Z → A) s indices :
  (∀ i, i ∈ indices → run (body i) s = Ok (f i) s) →
  run (for_each body indices) s = Ok (f <$> indices) s.
Proof.
  induction indices as [|i rest IH]; intros Hbody; [done|].
  cbn [for_each]. rewrite run_bind, Hbody by left.
  rewrite run_bind, IH; [done|]. intros j Hj. apply Hbody. by right.
Qed.

Lemma run_for_each_throw {A} (body : Z → M A) s index rest e :
  run (body index) s = Throw e →
  run (for_each body (index :: rest)) s = Throw e.
Proof. intros H. cbn [for_each]. by rewrite run_bind, H. Qed.

Lemma run_alloc s a :
  run (alloc a) s = Ok (length (heap s)) (with_heap s (heap s ++ [a])).
Proof. done. Qed.

Lemma run_slice0 s l a :
  heap s !! l = Some a →
  run (slice0 l) s = Ok (length (heap s)) (with_heap s (heap s ++ [a])).
Proof.
  intros H. unfold slice0. by rewrite run_bind, (run_contents _ _ _ H).
Qed.

Lemma run_sort_asc s l a :
  heap s !! l = Some a →
  run (sort_asc l) s = Ok l (with_heap s (<[l := js_sort cmp_asc a]> (heap s))).
Proof.
  intros H. unfold sort_asc. by rewrite run_bind, (run_contents _ _ _ H).
Qed.

Lemma run_read_dataset s : run read_dataset s = Ok (dataset s) s.
Proof. done. Qed.

Lemma lookup_snoc_last {A} (h : list A) x : (h ++ [x]) !! length h = Some x.
Proof. by rewrite list_lookup_middle. Qed.

Lemma insert_snoc_last {A} (h : list A) x y : <[length h := y]> (h ++ [x]) = h ++ [y].
Proof. rewrite insert_app_r_alt by lia. by rewrite Nat.sub_diag. Qed.

Lemma run_sorted_array_build s :
  wf_state s →
  let sorted := js_sort cmp_asc (population s) in
  run sorted_array_build s
  = Ok (S (S (length (heap s))))
       (with_heap s (heap s ++ [sorted; sorted; sorted])).
Proof.
  intros Hwf sorted.
  pose proof (wf_state_population s Hwf) as HP.
  unfold sorted_array_build.
  rewrite run_bind, run_read_dataset.
  rewrite run_bind, (run_slice0 _ _ _ HP).
  rewrite run_bind, (run_sort_asc _ _ (population s))
    by apply lookup_snoc_last.
  cbn [heap with_heap dataset testset distribution].
  rewrite insert_snoc_last. fold sorted.
  rewrite run_bind, (run_slice0 _ _ sorted) by apply lookup_snoc_last.
  rewrite run_bind, run_read_dataset.
  cbn [heap with_heap dataset testset distribution].
  rewrite run_bind, (run_slice0 _ _ (population s)); cycle 1.
  { cbn [heap with_heap]. by do 2 apply lookup_app_l_Some. }
  cbn [heap with_heap dataset testset distribution].
  rewrite (run_sort_asc _ _ (population s)); cycle 1.
  { cbn [heap with_heap]. apply lookup_snoc_last. }
  cbn [heap with_heap dataset testset distribution].
  rewrite insert_snoc_last. fold sorted.
  rewrite !length_app, <-!(assoc_L (++)). simpl.
  f_equal. lia.
Qed.

Global Instance cmp_le_asc_trans : Transitive (cmp_le cmp_asc).
Proof. intros x y z. unfold cmp_le, cmp_asc. lia. Qed.

Global Instance cmp_le_asc_antisymm : AntiSymm (=) (cmp_le cmp_asc).
Proof. intros x y. unfold cmp_le, cmp_asc. lia. Qed.

Lemma js_sort_idempotent P :
  js_sort cmp_asc (js_sort cmp_asc P) = js_sort cmp_asc P.
Proof.
  unfold js_sort. apply (Sorted_unique (cmp_le cmp_asc)).
  - apply Sorted_merge_sort, _.
  - apply Sorted_merge_sort, _.
  - by rewrite !merge_sort_Permutation.
Qed.

Lemma run_sorted_array_build_older s :
  wf_state s →
  run sorted_array_build_older s
  = Ok (dataset s)
       (with_heap s (<[dataset s := js_sort cmp_asc (population s)]> (heap s))).
Proof.
  intros Hwf.
  pose proof (wf_state_population s Hwf) as HP.
  unfold sorted_array_build_older.
  rewrite run_bind, run_read_dataset.
  rewrite run_bind, (run_sort_asc _ _ _ HP).
  rewrite run_bind, run_read_dataset.
  cbn [heap with_heap dataset testset distribution].
  rewrite (run_sort_asc _ _ (js_sort cmp_asc (population s))); cycle 1.
  { cbn [heap with_heap]. apply list_lookup_insert_eq. by eapply lookup_lt_Some. }
  cbn [heap with_heap dataset testset distribution].
  by rewrite list_insert_insert_eq, js_sort_idempotent.
Qed.

(** States that differ from [s] by arrays added at the end of the heap. *)
Lemma wf_state_grow s extra : wf_state s → wf_state (with_heap s (heap s ++ extra)).
Proof.
  intros [Hd Ht]. unfold wf_state. cbn [heap with_heap dataset testset].
  rewrite length_app. lia.
Qed.

Lemma queryset_grow s extra :
  wf_state s → queryset (with_heap s (heap s ++ extra)) = queryset s.
Proof.
  intros [_ Ht]. unfold queryset, array_at. cbn [heap with_heap testset].
  by rewrite lookup_app_l.
Qed.

Lemma population_grow s extra :
  wf_state s → population (with_heap s (heap s ++ extra)) = population s.
Proof.
  intros [Hd _]. unfold population, array_at. cbn [heap with_heap dataset].
  by rewrite lookup_app_l.
Qed.

Lemma keys_queried_grow s extra num :
  wf_state s → keys_queried (with_heap s (heap s ++ extra)) num = keys_queried s num.
Proof. intros Hwf. unfold keys_queried. by rewrite queryset_grow. Qed.

Lemma run_hashtable num s :
  wf_state s →
  run (hashtable num) s
  = Ok {| timed := hashtable_iteration (hash_build (population s)) <$> keys_queried s num;
          control := [] |} s.
Proof.
  intros Hwf. unfold hashtable.
  rewrite run_bind, run_read_dataset.
  rewrite run_bind, (run_contents _ _ _ (wf_state_population s Hwf)).
  cbv zeta. rewrite run_bind. unfold while_index_below.
  rewrite (run_for_each_pure _
    (λ index, hashtable_iteration (hash_build (population s))
                (js_get (queryset s) (JNum index)))).
  - unfold keys_queried. by rewrite <-list_fmap_compose.
  - intros i _. by rewrite run_bind, run_read_query.
Qed.

Lemma run_avl num s :
  wf_state s →
  run (avl num) s
  = Ok {| timed := avl_iteration (avl_build (population s)) <$> keys_queried s num;
          control := avl_control_iteration (avl_build (population s))
                       <$> keys_queried s num |} s.
Proof.
  intros Hwf. unfold avl.
  rewrite run_bind, run_read_dataset.
  rewrite run_bind, (run_contents _ _ _ (wf_state_population s Hwf)).
  cbv zeta. rewrite run_bind. unfold while_index_below.
  rewrite (run_for_each_pure _
    (λ index, avl_iteration (avl_build (population s))
                (js_get (queryset s) (JNum index)))); cycle 1.
  { intros i _. by rewrite run_bind, run_read_query. }
  rewrite run_bind.
  rewrite (run_for_each_pure _
    (λ index, avl_control_iteration (avl_build (population s))
                (js_get (queryset s) (JNum index)))); cycle 1.
  { intros i _. by rewrite run_bind, run_read_query. }
  unfold keys_queried. by rewrite <-!list_fmap_compose.
Qed.

Lemma wf_state_after_build s : wf_state s → wf_state (after_build s).
Proof. apply wf_state_grow. Qed.

Lemma queryset_after_build s : wf_state s → queryset (after_build s) = queryset s.
Proof. apply queryset_grow. Qed.

Lemma population_after_build s : wf_state s → population (after_build s) = population s.
Proof. apply population_grow. Qed.

Lemma run_contents_after_build s :
  run (contents (S (S (length (heap s))))) (after_build s)
  = Ok (js_sort cmp_asc (population s)) (after_build s).
Proof.
  apply run_contents. unfold after_build. cbn [heap with_heap].
  rewrite lookup_app_r by lia.
  by replace (S (S (length (heap s))) - length (heap s))%nat with 2%nat by lia.
Qed.

Lemma run_binarysearch num s :
  wf_state s →
  run (binarysearch num) s
  = Ok {| timed := binarysearch_iteration (js_sort cmp_asc (population s))
                     <$> keys_queried s num;
          control := [] |} (after_build s).
Proof.
  intros Hwf. unfold binarysearch.
  rewrite run_bind, (run_sorted_array_build s Hwf). cbv zeta. fold (after_build s).
  rewrite run_bind. unfold while_index_below.
  rewrite (run_for_each_pure _
    (λ index, binarysearch_iteration (js_sort cmp_asc (population s))
                (js_get (queryset s) (JNum index)))).
  - unfold keys_queried. by rewrite <-list_fmap_compose.
  - intros i _. rewrite run_bind, run_read_query by by apply wf_state_after_build.
    rewrite !queryset_after_build by done.
    by rewrite run_bind, run_contents_after_build.
Qed.

Lemma run_trick_uniform c s :
  wf_state s →
  run (trick_uniform c) s
  = Ok {| timed := (λ k, trick_iteration (js_sort cmp_asc (population s))
                           (uniform_rank c k) k) <$> keys_queried s (num_uni c);
          control := (λ _, trick_control_iteration
                             (uniform_rank c (js_get (queryset s)
                                                (JNum (0 `max` num_uni c)))))
                       <$> seqZ 0 (num_nor c) |} (after_build s).
Proof.
  intros Hwf. unfold trick_uniform.
  rewrite run_bind, (run_sorted_array_build s Hwf). cbv zeta. fold (after_build s).
  rewrite run_bind. unfold while_index_below.
  rewrite (run_for_each_pure _
    (λ index, trick_iteration (js_sort cmp_asc (population s))
                (uniform_rank c (js_get (queryset s) (JNum index)))
                (js_get (queryset s) (JNum index)))); cycle 1.
  { intros i _. rewrite run_bind, run_read_query by by apply wf_state_after_build.
    rewrite !queryset_after_build by done.
    by rewrite run_bind, run_contents_after_build. }
  rewrite run_bind.
  rewrite (run_for_each_pure _
    (λ _, trick_control_iteration
            (uniform_rank c (js_get (queryset s) (JNum (0 `max` num_uni c)))))); cycle 1.
  { intros i _. rewrite run_bind, run_read_query by by apply wf_state_after_build.
    rewrite queryset_after_build by done. done. }
  unfold keys_queried. by rewrite <-!list_fmap_compose.
Qed.

Lemma run_normal_rank_Some c k s g :
  distribution s = Some g →
  run (normal_rank c k) s = Ok (rank g (num_nor c) k) s.
Proof. intros H. unfold normal_rank. rewrite run_bind. simpl. by rewrite H. Qed.

Lemma run_normal_rank_None c k s :
  distribution s = None → run (normal_rank c k) s = Throw TypeError.
Proof. intros H. unfold normal_rank. rewrite run_bind. simpl. by rewrite H. Qed.

Lemma run_trick_normal c s g :
  wf_state s → distribution s = Some g →
  run (trick_normal c) s
  = Ok {| timed := (λ k, trick_iteration (js_sort cmp_asc (population s))
                           (rank g (num_nor c) k) k) <$> keys_queried s (num_nor c);
          control := (λ k, trick_control_iteration (rank g (num_nor c) k))
                       <$> keys_queried s (num_nor c) |} (after_build s).
Proof.
  intros Hwf Hg. unfold trick_normal.
  rewrite run_bind, (run_sorted_array_build s Hwf). cbv zeta. fold (after_build s).
  rewrite run_bind. unfold while_index_below.
  rewrite (run_for_each_pure _
    (λ index, trick_iteration (js_sort cmp_asc (population s))
                (rank g (num_nor c) (js_get (queryset s) (JNum index)))
                (js_get (queryset s) (JNum index)))); cycle 1.
  { intros i _. rewrite run_bind, run_read_query by by apply wf_state_after_build.
    rewrite !queryset_after_build by done.
    rewrite run_bind, (run_normal_rank_Some _ _ _ g) by done.
    by rewrite run_bind, run_contents_after_build. }
  rewrite run_bind.
  rewrite (run_for_each_pure _
    (λ index, trick_control_iteration
                (rank g (num_nor c) (js_get (queryset s) (JNum index))))); cycle 1.
  { intros i _. rewrite run_bind, run_read_query by by apply wf_state_after_build.
    rewrite !queryset_after_build by done.
    rewrite run_bind, (run_normal_rank_Some _ _ _ g) by done. done. }
  unfold keys_queried. by rewrite <-!list_fmap_compose.
Qed.

Lemma run_trick_normal_undefined c s :
  wf_state s → distribution s = None → 0 < num_nor c →
  run (trick_normal c) s = Throw TypeError.
Proof.
  intros Hwf Hg Hnum. unfold trick_normal.
  rewrite run_bind, (run_sorted_array_build s Hwf). cbv zeta. fold (after_build s).
  rewrite run_bind. unfold while_index_below.
  rewrite seqZ_cons by done.
  rewrite (run_for_each_throw _ _ _ _ TypeError); [done|].
  rewrite run_bind, run_read_query by by apply wf_state_after_build.
  by rewrite run_bind, run_normal_rank_None.
Qed.

(** ** The generation handlers *)

Lemma run_route_generatenum_normal c g samples1 samples2 s :
  run (route_generatenum_normal c g samples1 samples2) s
  = Ok () {| heap := heap s ++ [samples1 <$> seqZ 0 (num_nor c);
                                samples2 <$> seqZ 0 (num_nor c)];
             dataset := length (heap s);
             testset := S (length (heap s));
             distribution := Some g |}.
Proof.
  unfold route_generatenum_normal, generatenum_normal.
  rewrite !run_bind. cbn. rewrite length_app, <-(assoc_L (++)). simpl.
  do 2 f_equal. lia.
Qed.

Lemma run_route_generatenum_uniform c samples1 samples2 s :
  run (route_generatenum_uniform c samples1 samples2) s
  = Ok () {| heap := heap s ++ [samples1 <$> seqZ 0 (num_uni c);
                                samples2 <$> seqZ 0 (num_uni c)];
             dataset := length (heap s);
             testset := S (length (heap s));
             distribution := distribution s |}.
Proof.
  unfold route_generatenum_uniform, generatenum_uniform.
  rewrite !run_bind. cbn. rewrite length_app, <-(assoc_L (++)). simpl.
  do 2 f_equal. lia.
Qed.

(** After [/generatenum_normal] the state is well formed, [distribution]
    is defined and the query set has [num_nor] entries. *)
Lemma generatenum_normal_ready c g samples1 samples2 s s' :
  0 ≤ num_nor c →
  run (route_generatenum_normal c g samples1 samples2) s = Ok () s' →
  wf_state s' ∧ distribution s' = Some g
  ∧ js_length (queryset s') = num_nor c
  ∧ js_length (population s') = num_nor c.
Proof.
  intros Hnum. rewrite run_route_generatenum_normal. intros [= <-].
  unfold wf_state, queryset, population, array_at, js_length.
  cbn [heap dataset testset distribution].
  rewrite length_app. simpl.
  replace (S (length (heap s))) with (length (heap s) + 1)%nat by lia.
  rewrite lookup_app_r, Nat.add_sub', lookup_app_r, Nat.sub_diag by lia.
  simpl. rewrite !length_fmap, !length_seqZ. split; [lia|]. split; [done|]. lia.
Qed.

Lemma generatenum_uniform_ready c samples1 samples2 s s' :
  0 ≤ num_uni c →
  run (route_generatenum_uniform c samples1 samples2) s = Ok () s' →
  wf_state s'
  ∧ js_length (queryset s') = num_uni c
  ∧ js_length (population s') = num_uni c.
Proof.
  intros Hnum. rewrite run_route_generatenum_uniform. intros [= <-].
  unfold wf_state, queryset, population, array_at, js_length.
  cbn [heap dataset testset distribution].
  rewrite length_app. simpl.
  replace (S (length (heap s))) with (length (heap s) + 1)%nat by lia.
  rewrite lookup_app_r, Nat.add_sub', lookup_app_r, Nat.sub_diag by lia.
  simpl. rewrite !length_fmap, !length_seqZ. split; [lia|]. lia.
Qed.

(** ** The build phase and the shared population *)

Lemma array_at_after_build s :
  array_at (after_build s) (S (S (length (heap s)))) = js_sort cmp_asc (population s).
Proof.
  unfold array_at, after_build. cbn [heap with_heap].
  rewrite lookup_app_r by lia.
  by replace (S (S (length (heap s))) - length (heap s))%nat with 2%nat by lia.
Qed.

Lemma sorted_array_build_preserves_population s :
  wf_state s → build_preserves_population sorted_array_build s.
Proof.
  intros Hwf array s'. rewrite run_sorted_array_build by done.
  intros [= _ <-]. by apply population_grow.
Qed.

Lemma sorted_array_build_older_population s array s' :
  wf_state s →
  run sorted_array_build_older s = Ok array s' →
  population s' = js_sort cmp_asc (population s) ∧ array = dataset s'.
Proof.
  intros Hwf. rewrite run_sorted_array_build_older by done.
  intros [= <- <-]. split; [|done].
  unfold population at 1, array_at. cbn [heap with_heap dataset].
  rewrite list_lookup_insert_eq; [done|]. apply Hwf.
Qed.

Lemma sorted_array_build_older_ascending s array s' :
  wf_state s →
  run sorted_array_build_older s = Ok array s' →
  ascending (array_at s' array) ∧ array_at s' array ≡ₚ population s.
Proof.
  intros Hwf Hrun.
  destruct (sorted_array_build_older_population s array s' Hwf Hrun) as [HP ->].
  fold (population s'). rewrite HP.
  split; [apply js_sort_ascending|apply js_sort_perm].
Qed.

(** ** Lookups over an empty population *)

Lemma keys_queried_length s num : length (keys_queried s num) = Z.to_nat num.
Proof. unfold keys_queried. by rewrite length_fmap, length_seqZ. Qed.

Lemma js_sort_nil cmp : js_sort cmp [] = [].
Proof. done. Qed.

Lemma binsearch_nil k : binsearch [] k = JNum (-1).
Proof. unfold binsearch. by rewrite binsearch_loop_step. Qed.

Lemma tricksearch_nil g k : tricksearch [] g k = JUndef.
Proof.
  apply tricksearch_falsy. destruct g as [| |z]; simpl; try done.
  by case_bool_decide.
Qed.

Lemma hash_lookup_nil k : map_has (hash_build []) k = false.
Proof.
  unfold map_has. change (hash_build []) with (∅ : gmap jsval Z).
  rewrite lookup_empty, bool_decide_eq_false_2; [done|]. by intros [? ?].
Qed.

Lemma avl_search_nil k : avl_search_js (avl_build []) k = [].
Proof. by destruct k. Qed.

Lemma empty_population_not_found c r s :
  wf_state s → population s = [] →
  (r = TrickNormal → is_Some (distribution s)) →
  ∃ rep s', run (benchmark c r) s = Ok rep s'
            ∧ Forall (reports_not_found r) (timed rep).
Proof.
  intros Hwf HP Hd.
  assert (∀ num, ∃ rep s', run (hashtable num) s = Ok rep s'
            ∧ Forall (reports_not_found HashtableNormal) (timed rep)) as Hhash.
  { intros num. eexists _, _. split; [by apply run_hashtable|].
    cbn [timed]. apply Forall_fmap, Forall_true. intros k.
    rewrite HP. unfold compose, hashtable_iteration.
    rewrite hash_lookup_nil. by exists k. }
  assert (∀ num, ∃ rep s', run (binarysearch num) s = Ok rep s'
            ∧ Forall (reports_not_found BinarysearchNormal) (timed rep)) as Hbin.
  { intros num. eexists _, _. split; [by apply run_binarysearch|].
    cbn [timed]. apply Forall_fmap, Forall_true. intros k.
    rewrite HP, js_sort_nil. unfold compose, binarysearch_iteration.
    rewrite binsearch_nil. by exists k. }
  assert (∀ num, ∃ rep s', run (avl num) s = Ok rep s'
            ∧ Forall (reports_not_found AvlNormal) (timed rep)) as Havl.
  { intros num. eexists _, _. split; [by apply run_avl|].
    cbn [timed]. apply Forall_fmap, Forall_true. intros k.
    rewrite HP. unfold compose, avl_iteration.
    rewrite avl_search_nil. by exists k. }
  destruct r; cbn [benchmark]; try done.
  - destruct Hd as [g Hg]; [done|].
    eexists _, _. split; [by apply run_trick_normal|].
    cbn [timed]. apply Forall_fmap, Forall_true. intros k.
    rewrite HP, js_sort_nil. unfold compose, trick_iteration.
    rewrite tricksearch_nil. by eexists _, k, _.
  - eexists _, _. split; [by apply run_trick_uniform|].
    cbn [timed]. apply Forall_fmap, Forall_true. intros k.
    rewrite HP, js_sort_nil. unfold compose, trick_iteration.
    rewrite tricksearch_nil. by eexists _, k, _.
Qed.

(** ** The query pass *)

Lemma ascending_fully_ordered A : ascending A → fully_ordered A.
Proof.
  intros Hasc i Hi.
  destruct (js_get_in_range A i) as (x & Hx & Hgx); [lia|].
  destruct (js_get_in_range A (i + 1)) as (y & Hy & Hgy); [lia|].
  exists x, y. split; [done|]. split; [done|].
  apply (ascending_lookup A (Z.to_nat i) (Z.to_nat (i + 1)) x y); [done|lia|done..].
Qed.

Lemma keys_queried_all s :
  keys_queried s (js_length (queryset s)) = JNum <$> queryset s.
Proof.
  unfold keys_queried, js_length. apply list_eq. intros i.
  rewrite !list_lookup_fmap.
  destruct (queryset s !! i) as [x|] eqn:Hx.
  - rewrite lookup_seqZ_lt by (apply lookup_lt_Some in Hx; lia).
    rewrite Z.add_0_l. cbn -[js_get]. by rewrite js_get_lookup, Hx.
  - rewrite lookup_seqZ_ge; [done|]. apply lookup_ge_None_1 in Hx. lia.
Qed.

Lemma Forall2_fmap_diag {A B} (P : B → A → Prop) (f : A → B) (l : list A) :
  (∀ x, P (f x) x) → Forall2 P (f <$> l) l.
Proof. intros H. induction l; constructor; auto. Qed.

Lemma hashtable_iteration_calls map k :
  looks_up (hashtable_iteration map (JNum k)) k
  ∧ calls_of_route HashtableNormal (JNum k) (calls (hashtable_iteration map (JNum k))).
Proof.
  unfold hashtable_iteration, looks_up.
  destruct (map_has map (JNum k)); cbn [calls calls_of_route];
    (split; [split; [done|repeat constructor]|tauto]).
Qed.

Lemma avl_iteration_calls t k :
  looks_up (avl_iteration t (JNum k)) k
  ∧ calls_of_route AvlNormal (JNum k) (calls (avl_iteration t (JNum k))).
Proof.
  unfold avl_iteration, looks_up.
  case_bool_decide; cbn [calls calls_of_route];
    (split; [split; [done|repeat constructor]|tauto]).
Qed.

Lemma binarysearch_iteration_calls a k :
  looks_up (binarysearch_iteration a (JNum k)) k
  ∧ calls_of_route BinarysearchNormal (JNum k) (calls (binarysearch_iteration a (JNum k))).
Proof.
  unfold binarysearch_iteration, looks_up. cbn [calls calls_of_route].
  split; [split; [done|repeat constructor]|done].
Qed.

Lemma trick_iteration_calls a g k :
  looks_up (trick_iteration a g (JNum k)) k
  ∧ calls_of_route TrickNormal (JNum k) (calls (trick_iteration a g (JNum k))).
Proof.
  unfold trick_iteration, looks_up. cbn [calls calls_of_route].
  split; [split; [done|repeat constructor]|eauto].
Qed.

Lemma hashtable_iteration_result map k :
  result (hashtable_iteration map k) = Value (hash_lookup map k).
Proof. unfold hashtable_iteration, hash_lookup. by destruct (map_has map k). Qed.

(** ** The claims of the specification *)

(** C1 (the four strategies find every key of the population): the
    iterative [tricksearch] of [index.js] does not.  With the constants of
    [index.js] the guess for a key [k] is [k] itself.  In the population
    [[2; 0; 1]] the key [1] sits exactly at its guess in the sorted array:
    the cell is neither below nor above the target, no branch of
    [tricksearch] returns, and the result is [undefined].  In [[3; 1; 2]]
    the guess for the key [2] lands on the cell to the right of it: the
    branch for a cell above the target repeats the advancing loop, never
    steps back, and the result is [-1].  The hash map, the binary search
    and the AVL tree find both keys (as they find every key,
    [other_strategies_find]). *)
Theorem tricksearch_misses_present_key :
  let P1 := [2; 0; 1] in
  let P2 := [3; 1; 2] in
  (1 ∈ P1
   ∧ js_sort cmp_asc P1 = [0; 1; 2]
   ∧ uniform_rank index_js (JNum 1) = JNum 1
   ∧ tricksearch (js_sort cmp_asc P1) (uniform_rank index_js (JNum 1)) (JNum 1) = JUndef
   ∧ hash_lookup (hash_build P1) (JNum 1) = JNum 2
   ∧ binsearch (js_sort cmp_asc P1) (JNum 1) = JNum 1
   ∧ avl_search (avl_build P1) 1 = [2])
  ∧ (2 ∈ P2
     ∧ js_sort cmp_asc P2 = [1; 2; 3]
     ∧ uniform_rank index_js (JNum 2) = JNum 2
     ∧ tricksearch (js_sort cmp_asc P2) (uniform_rank index_js (JNum 2)) (JNum 2) = JNum (-1)
     ∧ hash_lookup (hash_build P2) (JNum 2) = JNum 2
     ∧ binsearch (js_sort cmp_asc P2) (JNum 2) = JNum 1
     ∧ avl_search (avl_build P2) 2 = [2]).
Proof.
  cbv zeta. split.
  - split; [set_solver|]. by vm_compute.
  - split; [set_solver|]. by vm_compute.
Qed.

(** C2 (the correction scan of [tricksearch]): the iterative [tricksearch]
    of [index.js] departs from the specified scan.  From a guess whose cell
    is above the target the specified scan retreats and finds the key one
    cell to the left; [tricksearch] answers [-1].  On an exact hit at the
    guess the specified scan returns the guess; [tricksearch] returns
    [undefined].  The recursive [tricksearch] of the older copy returns the
    index of the specified scan on both inputs. *)
Theorem tricksearch_departs_from_correction_scan :
  (correction_scan [1; 2; 3] 1 1 = Some 0
   ∧ tricksearch [1; 2; 3] (JNum 1) (JNum 1) = JNum (-1)
   ∧ tricksearch_rec [1; 2; 3] (JNum 1) (JNum 1) = JNum 0)
  ∧ (correction_scan [1; 2; 3] 1 2 = Some 1
     ∧ tricksearch [1; 2; 3] (JNum 1) (JNum 2) = JUndef
     ∧ tricksearch_rec [1; 2; 3] (JNum 1) (JNum 2) = JNum 1).
Proof. by vm_compute. Qed.

(** C3: after the hash map is built over the population [P], the lookup of
    a key occurring in [P] returns the largest position holding it, and the
    lookup of a key that does not occur returns [-1]. *)
Theorem hash_lookup_last_position (P : list Z) (k : Z) :
  (k ∈ P →
   ∃ i, hash_lookup (hash_build P) (JNum k) = JNum i
        ∧ 0 ≤ i ∧ P !! Z.to_nat i = Some k
        ∧ ∀ j, P !! j = Some k → Z.of_nat j ≤ i)
  ∧ (k ∉ P → hash_lookup (hash_build P) (JNum k) = JNum (-1)).
Proof.
  unfold hash_lookup, map_has, map_get. split.
  - intros [i Hi]%hash_build_lookup_Some.
    rewrite Hi. rewrite bool_decide_eq_true_2 by eauto.
    apply hash_build_lookup in Hi as (Hrange & Hget & Hmax).
    exists i. split; [done|]. split; [lia|].
    destruct (js_get_in_range P i Hrange) as (x & Hx & Hget').
    rewrite Hget' in Hget. injection Hget as ->. split; [done|].
    intros j Hj. apply Hmax.
    + apply lookup_lt_Some in Hj. unfold js_length. lia.
    + by rewrite js_get_lookup, Hj.
  - intros Hk%hash_build_lookup_None. rewrite Hk.
    rewrite bool_decide_eq_false_2; [done|]. by intros [? ?].
Qed.

(** The population [[5; 2; 7; 2]]: the key [2] is found at its last
    position. *)
Lemma hash_lookup_last_position_witness :
  2 ∈ [5; 2; 7; 2]
  ∧ ∃ i, hash_lookup (hash_build [5; 2; 7; 2]) (JNum 2) = JNum i
         ∧ 0 ≤ i ∧ [5; 2; 7; 2] !! Z.to_nat i = Some 2
         ∧ ∀ j, [5; 2; 7; 2] !! j = Some 2 → Z.of_nat j ≤ i.
Proof.
  assert (2 ∈ [5; 2; 7; 2]) as H by (right; left).
  split; [exact H|].
  exact (proj1 (hash_lookup_last_position [5; 2; 7; 2] 2) H).
Defined.

(** C4: on an ascending array [binsearch] returns the index of some cell
    holding the target when the target occurs, and [-1] when it does not;
    for the population [[5; 1; 3; 2; 4]] the sorted array is
    [[1; 2; 3; 4; 5]], the lookup of [3] returns [2] and the lookup of [10]
    returns [-1]. *)
Theorem binsearch_correct (A : list Z) (t : Z) :
  ascending A →
  (t ∈ A →
   ∃ i, binsearch A (JNum t) = JNum i ∧ 0 ≤ i < js_length A
        ∧ A !! Z.to_nat i = Some t)
  ∧ (t ∉ A → binsearch A (JNum t) = JNum (-1))
  ∧ (js_sort cmp_asc [5; 1; 3; 2; 4] = [1; 2; 3; 4; 5]
     ∧ binsearch (js_sort cmp_asc [5; 1; 3; 2; 4]) (JNum 3) = JNum 2
     ∧ binsearch (js_sort cmp_asc [5; 1; 3; 2; 4]) (JNum 10) = JNum (-1)).
Proof.
  intros Hasc. destruct (binsearch_spec A t Hasc) as [Hin Hout].
  split; [done|]. split; [done|]. by vm_compute.
Qed.

(** The sorted array of scenario 1 and the key [3]. *)
Lemma binsearch_correct_witness :
  ascending [1; 2; 3; 4; 5]
  ∧ (3 ∈ [1; 2; 3; 4; 5] →
     ∃ i, binsearch [1; 2; 3; 4; 5] (JNum 3) = JNum i ∧ 0 ≤ i < js_length [1; 2; 3; 4; 5]
          ∧ [1; 2; 3; 4; 5] !! Z.to_nat i = Some 3).
Proof.
  assert (ascending [1; 2; 3; 4; 5]) as H.
  { unfold ascending. repeat constructor; lia. }
  split; [exact H|].
  exact (proj1 (binsearch_correct [1; 2; 3; 4; 5] 3 H)).
Defined.

(** C5: a guess outside [[0, N)] makes [tricksearch] return without an
    index and without an exception, whatever the array and the target:
    the iterative [tricksearch] of [index.js] returns [undefined], the
    recursive one of the older copy returns [-1] ([undefined] when the
    guess is [N]). *)
Theorem tricksearch_out_of_range (a : list Z) (g : Z) (target : jsval) (t : Z) :
  g < 0 ∨ js_length a ≤ g →
  (tricksearch a (JNum g) target = JUndef
   ∧ found_index (tricksearch a (JNum g) target) = None)
  ∧ (tricksearch_rec a (JNum g) (JNum t)
     = (if bool_decide (g = js_length a) then JUndef else JNum (-1))
     ∧ found_index (tricksearch_rec a (JNum g) (JNum t)) = None).
Proof.
  intros Hg. split.
  - rewrite tricksearch_falsy; [done|].
    by rewrite js_not_get_out_of_range.
  - rewrite tricksearch_rec_out_of_range by done.
    split; [done|]. by case_bool_decide.
Qed.

(** The guess 5 on an array of three cells. *)
Lemma tricksearch_out_of_range_witness :
  (5 < 0 ∨ js_length [1; 2; 3] ≤ 5)
  ∧ tricksearch [1; 2; 3] (JNum 5) (JNum 2) = JUndef
  ∧ tricksearch_rec [1; 2; 3] (JNum 5) (JNum 2) = JNum (-1).
Proof.
  assert (5 < 0 ∨ js_length [1; 2; 3] ≤ 5) as H by (right; vm_compute; discriminate).
  split; [exact H|].
  destruct (tricksearch_out_of_range [1; 2; 3] 5 (JNum 2) 2 H) as [[H1 _] [H2 _]].
  split; [exact H1|exact H2].
Defined.

(** C6 (before any generation every lookup reports "not found" and no
    error is raised): [/trick_normal] raises instead.  In the initial
    state [distribution] is [undefined], and the first iteration of the
    query loop evaluates [distribution.cdf(...)], a [TypeError].  The seven
    other handlers run to their end and every lookup of theirs reports
    "not found". *)
Theorem trick_normal_before_generation_throws :
  wf_state initial_state
  ∧ population initial_state = []
  ∧ queryset initial_state = []
  ∧ distribution initial_state = None
  ∧ run (benchmark index_js TrickNormal) initial_state = Throw TypeError
  ∧ ∀ r, r ≠ TrickNormal →
      ∃ rep s', run (benchmark index_js r) initial_state = Ok rep s'
                ∧ Forall (reports_not_found r) (timed rep).
Proof.
  assert (wf_state initial_state) as Hwf by (unfold wf_state; simpl; lia).
  split; [exact Hwf|]. do 3 (split; [done|]). split.
  - by apply run_trick_normal_undefined.
  - intros r Hr. by apply empty_population_not_found.
Qed.

(** C7 (the build leaves the shared population unchanged): the build phase
    of the older copy of the binarysearch and trick handlers sorts
    [dataset] itself.  On the population [[2; 1]] it leaves [dataset]
    holding [[1; 2]].  The build phase of [index.js], which sorts
    [dataset.slice(0)], leaves the population as it was. *)
Theorem older_build_sorts_population_in_place :
  let s := {| heap := [[2; 1]; []]; dataset := 0%nat; testset := 1%nat;
              distribution := None |} in
  wf_state s
  ∧ population s = [2; 1]
  ∧ run sorted_array_build_older s
    = Ok 0%nat {| heap := [[1; 2]; []]; dataset := 0%nat; testset := 1%nat;
                  distribution := None |}
  ∧ ¬ build_preserves_population sorted_array_build_older s
  ∧ build_preserves_population sorted_array_build s.
Proof.
  intros s.
  assert (wf_state s) as Hwf by (unfold wf_state; simpl; lia).
  assert (run sorted_array_build_older s
    = Ok 0%nat {| heap := [[1; 2]; []]; dataset := 0%nat; testset := 1%nat;
                  distribution := None |}) as Hrun by (by vm_compute).
  split; [exact Hwf|]. split; [done|]. split; [exact Hrun|]. split.
  - intros H. by specialize (H _ _ Hrun).
  - by apply sorted_array_build_preserves_population.
Qed.

(** C8: the array a build phase returns is fully ordered, and holds the
    cells of the population. *)
Theorem sorted_array_build_ascending (s : State) :
  wf_state s →
  ∃ array s', run sorted_array_build s = Ok array s'
              ∧ array_at s' array ≡ₚ population s
              ∧ fully_ordered (array_at s' array).
Proof.
  intros Hwf. eexists _, _. split; [by apply run_sorted_array_build|].
  fold (after_build s). rewrite array_at_after_build.
  split; [apply js_sort_perm|].
  apply ascending_fully_ordered, js_sort_ascending.
Qed.

(** The population of scenario 1. *)
Lemma sorted_array_build_ascending_witness :
  let s := {| heap := [[5; 1; 3; 2; 4]; []]; dataset := 0%nat; testset := 1%nat;
              distribution := None |} in
  wf_state s
  ∧ ∃ array s', run sorted_array_build s = Ok array s'
                ∧ array_at s' array ≡ₚ population s
                ∧ fully_ordered (array_at s' array).
Proof.
  intros s.
  assert (wf_state s) as H by (unfold wf_state; simpl; lia).
  split; [exact H|].
  exact (sorted_array_build_ascending s H).
Defined.

(** The calls of a lookup, tied to whether the entry occurs in the
    population. *)
Lemma map_has_hash_build P k :
  map_has (hash_build P) (JNum k) = bool_decide (k ∈ P).
Proof.
  unfold map_has. destruct (decide (k ∈ P)) as [Hin|Hout].
  - rewrite (bool_decide_eq_true_2 (k ∈ P)) by done.
    apply bool_decide_eq_true_2. by apply hash_build_lookup_Some.
  - rewrite (bool_decide_eq_false_2 (k ∈ P)) by done.
    apply bool_decide_eq_false_2.
    intros [i Hi]. by rewrite hash_build_lookup_None in Hi.
Qed.

Lemma hashtable_iteration_lookup P k g :
  calls (hashtable_iteration (hash_build P) (JNum k))
  = calls_of_lookup HashtableNormal g (bool_decide (k ∈ P)) (JNum k).
Proof.
  unfold hashtable_iteration. rewrite map_has_hash_build.
  by destruct (bool_decide (k ∈ P)).
Qed.

Lemma avl_iteration_lookup P k g :
  calls (avl_iteration (avl_build P) (JNum k))
  = calls_of_lookup AvlNormal g (bool_decide (k ∈ P)) (JNum k).
Proof.
  unfold avl_iteration, avl_search_js, js_length. cbn [calls_of_lookup].
  destruct (decide (k ∈ P)) as [Hin|Hout].
  - pose proof (avl_build_search_present P k Hin) as Hne.
    rewrite (bool_decide_eq_true_2 (k ∈ P)) by done.
    rewrite bool_decide_eq_true_2; [done|].
    destruct (avl_search (avl_build P) k); [done|]. simpl. lia.
  - rewrite (avl_build_search_absent P k Hout).
    rewrite (bool_decide_eq_false_2 (k ∈ P)) by done.
    rewrite bool_decide_eq_false_2; [done|]. simpl. lia.
Qed.

Lemma calls_of_lookup_once r g hit k :
  r ≠ AvlNormal → r ≠ AvlUniform →
  length (filter (λ c, is_lookup c) (calls_of_lookup r g hit k)) = 1%nat.
Proof. intros H1 H2. by destruct r, hit. Qed.

(** C9, as the specification states it, fails, in two ways.  The query
    loops count up to the constant [num_nor] or [num_uni], not to the length
    of the query set: before any generation the query set is empty and the
    timed loop of [/hashtable_normal] still runs 20000 iterations, each
    looking up [undefined].  And with a query set of the right length the
    AVL handlers search the tree twice for an entry that occurs in the
    population: three queries against a tree over four cells make five
    searches. *)
Lemma query_pass_not_one_lookup_per_entry :
  ¬ one_lookup_per_entry index_js HashtableNormal initial_state
  ∧ (let c := {| mean := 0; variance := 100; num_nor := 3; low := 0; high := 10;
                 num_uni := 3 |} in
     let s := {| heap := [[3; 1; 2; 3]; [1; 3; 7]]; dataset := 0%nat; testset := 1%nat;
                 distribution := None |} in
     wf_state s
     ∧ js_length (queryset s) = route_num c AvlUniform
     ∧ (∃ rep s', run (benchmark c AvlUniform) s = Ok rep s'
                  ∧ (calls <$> timed rep)
                    = [[AvlSearch (JNum 1); AvlSearch (JNum 1)];
                       [AvlSearch (JNum 3); AvlSearch (JNum 3)];
                       [AvlSearch (JNum 7)]])
     ∧ ¬ one_lookup_per_entry c AvlUniform s).
Proof.
  split.
  - assert (wf_state initial_state) as Hwf by (unfold wf_state; simpl; lia).
    intros H. specialize (H _ _ (run_hashtable _ _ Hwf)).
    apply Forall2_length in H. cbn [timed] in H.
    rewrite length_fmap, keys_queried_length in H.
    change (queryset initial_state) with (@nil Z) in H.
    change (num_nor index_js) with 20000 in H. simpl length in H. lia.
  - intros c s.
    assert (wf_state s) as Hwf by (unfold wf_state; simpl; lia).
    split; [exact Hwf|]. split; [reflexivity|]. split.
    + eexists _, _. split; [by apply run_avl|]. by vm_compute.
    + intros H. specialize (H _ _ (run_avl _ _ Hwf)).
      apply Forall2_cons_inv_l in H as (k & ks & [_ Hone] & _ & _).
      vm_compute in Hone. discriminate Hone.
Qed.

(** C9, amended: when the query set has as many entries as the handler's
    loop bound ([num_nor] for the normal handlers, [num_uni] for the
    uniform ones, as after the matching generation), the timed query pass
    runs one iteration for each entry of the query set, in order, and the
    iteration looks up that entry and nothing else.  Its calls are fixed by
    the entry: [binsearch] or [tricksearch] once; [map.has] once, followed
    by [map.get] exactly when the entry occurs in the population;
    [avl.search] once, and a second time exactly when the entry occurs in
    the population.  So the hash map, binary search and trick handlers
    perform exactly one lookup per entry, as the specification says.
    ([/trick_normal] also needs [distribution] to be defined.) *)
Theorem query_pass_one_iteration_per_entry (c : Config) (r : route) (s : State) :
  wf_state s →
  js_length (queryset s) = route_num c r →
  (r = TrickNormal → is_Some (distribution s)) →
  (∃ rep s', run (benchmark c r) s = Ok rep s'
             ∧ Forall2 (λ it k,
                          looks_up it k
                          ∧ calls_of_route r (JNum k) (calls it)
                          ∧ ∃ g, calls it
                                 = calls_of_lookup r g (bool_decide (k ∈ population s))
                                     (JNum k))
                       (timed rep) (queryset s))
  ∧ (r ≠ AvlNormal → r ≠ AvlUniform → one_lookup_per_entry c r s).
Proof.
  intros Hwf Hlen Hd.
  assert (∃ rep s', run (benchmark c r) s = Ok rep s'
             ∧ Forall2 (λ it k,
                          looks_up it k
                          ∧ calls_of_route r (JNum k) (calls it)
                          ∧ ∃ g, calls it
                                 = calls_of_lookup r g (bool_decide (k ∈ population s))
                                     (JNum k))
                       (timed rep) (queryset s)) as Hpass.
  { destruct r; cbn [benchmark route_num] in *.
    - eexists _, _. split; [by apply run_hashtable|]. cbn [timed].
      rewrite <-Hlen, keys_queried_all, <-list_fmap_compose.
      apply Forall2_fmap_diag. intros k. unfold compose.
      destruct (hashtable_iteration_calls (hash_build (population s)) k) as [H1 H2].
      split; [done|]. split; [done|].
      exists JUndef. apply hashtable_iteration_lookup.
    - eexists _, _. split; [by apply run_binarysearch|]. cbn [timed].
      rewrite <-Hlen, keys_queried_all, <-list_fmap_compose.
      apply Forall2_fmap_diag. intros k. unfold compose.
      destruct (binarysearch_iteration_calls (js_sort cmp_asc (population s)) k)
        as [H1 H2].
      split; [done|]. split; [done|]. by exists JUndef.
    - eexists _, _. split; [by apply run_avl|]. cbn [timed].
      rewrite <-Hlen, keys_queried_all, <-list_fmap_compose.
      apply Forall2_fmap_diag. intros k. unfold compose.
      destruct (avl_iteration_calls (avl_build (population s)) k) as [H1 H2].
      split; [done|]. split; [done|].
      exists JUndef. apply avl_iteration_lookup.
    - destruct Hd as [g Hg]; [done|].
      eexists _, _. split; [by apply run_trick_normal|]. cbn [timed].
      rewrite <-Hlen, keys_queried_all, <-list_fmap_compose.
      apply Forall2_fmap_diag. intros k. unfold compose.
      split; [apply trick_iteration_calls|]. split; [apply trick_iteration_calls|].
      eexists. reflexivity.
    - eexists _, _. split; [by apply run_binarysearch|]. cbn [timed].
      rewrite <-Hlen, keys_queried_all, <-list_fmap_compose.
      apply Forall2_fmap_diag. intros k. unfold compose.
      destruct (binarysearch_iteration_calls (js_sort cmp_asc (population s)) k)
        as [H1 H2].
      split; [done|]. split; [done|]. by exists JUndef.
    - eexists _, _. split; [by apply run_trick_uniform|]. cbn [timed].
      rewrite <-Hlen, keys_queried_all, <-list_fmap_compose.
      apply Forall2_fmap_diag. intros k. unfold compose.
      split; [apply trick_iteration_calls|]. split; [apply trick_iteration_calls|].
      eexists. reflexivity.
    - eexists _, _. split; [by apply run_hashtable|]. cbn [timed].
      rewrite <-Hlen, keys_queried_all, <-list_fmap_compose.
      apply Forall2_fmap_diag. intros k. unfold compose.
      destruct (hashtable_iteration_calls (hash_build (population s)) k) as [H1 H2].
      split; [done|]. split; [done|].
      exists JUndef. apply (hashtable_iteration_lookup _ _ JUndef).
    - eexists _, _. split; [by apply run_avl|]. cbn [timed].
      rewrite <-Hlen, keys_queried_all, <-list_fmap_compose.
      apply Forall2_fmap_diag. intros k. unfold compose.
      destruct (avl_iteration_calls (avl_build (population s)) k) as [H1 H2].
      split; [done|]. split; [done|].
      exists JUndef. apply (avl_iteration_lookup _ _ JUndef). }
  split; [exact Hpass|].
  intros Havl1 Havl2 rep s' Hrun.
  destruct Hpass as (rep0 & s0 & Hrun0 & Hall).
  rewrite Hrun in Hrun0. injection Hrun0 as <- <-.
  eapply Forall2_impl; [exact Hall|].
  intros it k (Hk & _ & g & Hcalls). split; [done|].
  unfold lookups. rewrite Hcalls. by apply calls_of_lookup_once.
Qed.

(** Three queries against a hash map over four cells, with the loop bound
    set to three: [map.get] follows [map.has] for the entries 1 and 3, not
    for the entry 7. *)
Lemma query_pass_one_iteration_per_entry_witness :
  let c := {| mean := 0; variance := 100; num_nor := 3; low := 0; high := 10;
              num_uni := 3 |} in
  let s := {| heap := [[3; 1; 2; 3]; [1; 3; 7]]; dataset := 0%nat; testset := 1%nat;
              distribution := None |} in
  wf_state s
  ∧ js_length (queryset s) = route_num c HashtableUniform
  ∧ (∃ rep s', run (benchmark c HashtableUniform) s = Ok rep s'
               ∧ Forall2 (λ it k,
                            looks_up it k
                            ∧ calls_of_route HashtableUniform (JNum k) (calls it)
                            ∧ ∃ g, calls it
                                   = calls_of_lookup HashtableUniform g
                                       (bool_decide (k ∈ population s)) (JNum k))
                         (timed rep) (queryset s))
  ∧ (HashtableUniform ≠ AvlNormal → HashtableUniform ≠ AvlUniform →
     one_lookup_per_entry c HashtableUniform s).
Proof.
  intros c s.
  assert (wf_state s) as Hwf by (unfold wf_state; simpl; lia).
  assert (js_length (queryset s) = route_num c HashtableUniform) as Hlen by reflexivity.
  split; [exact Hwf|]. split; [exact Hlen|].
  apply (query_pass_one_iteration_per_entry c HashtableUniform s Hwf Hlen).
  intros H. discriminate H.
Defined.

(** C10: in the iterative [tricksearch] of [index.js] a falsy cell at the
    guess (the guess is outside the array, the array is empty, or the cell
    holds [0]) makes the function return [undefined], not [-1]; so on an
    array holding [0] at the guess, the lookup of the present key [0]
    returns [undefined] and the key is not reported found. *)
Theorem tricksearch_falsy_cell (a : list Z) (index target : jsval) :
  (js_not (js_get a index) = true → tricksearch a index target = JUndef)
  ∧ (∀ g, g < 0 ∨ js_length a ≤ g → js_not (js_get a (JNum g)) = true)
  ∧ (a = [] → js_not (js_get a index) = true)
  ∧ (∀ g, js_get a (JNum g) = JNum 0 →
       js_not (js_get a (JNum g)) = true
       ∧ 0 ∈ a
       ∧ tricksearch a (JNum g) (JNum 0) = JUndef
       ∧ found_index (tricksearch a (JNum g) (JNum 0)) = None).
Proof.
  split; [apply tricksearch_falsy|].
  split; [intros g Hg; by rewrite js_not_get_out_of_range|].
  split.
  - intros ->. destruct index as [| |z]; simpl; try done.
    by case_bool_decide.
  - intros g Hget.
    assert (js_not (js_get a (JNum g)) = true) as Hnot by by rewrite Hget.
    split; [done|]. split.
    + pose proof Hget as Hget'.
      apply js_get_num_in_range in Hget' as (z & [= <-] & Hz).
      destruct (js_get_in_range a g Hz) as (x & Hx & Hgx).
      rewrite Hgx in Hget. injection Hget as ->.
      by eapply list_elem_of_lookup_2.
    + by rewrite tricksearch_falsy.
Qed.

(** An ascending array holding [0] at the guess. *)
Lemma tricksearch_falsy_cell_witness :
  ascending [-3; 0; 4]
  ∧ js_get [-3; 0; 4] (JNum 1) = JNum 0
  ∧ 0 ∈ [-3; 0; 4]
  ∧ tricksearch [-3; 0; 4] (JNum 1) (JNum 0) = JUndef.
Proof.
  assert (js_get [-3; 0; 4] (JNum 1) = JNum 0) as H by reflexivity.
  split; [unfold ascending; repeat constructor; lia|].
  split; [exact H|].
  destruct (proj2 (proj2 (proj2 (tricksearch_falsy_cell [-3; 0; 4] (JNum 1) (JNum 0)))) 1 H)
    as (_ & Hin & Hundef & _).
  split; [exact Hin|exact Hundef].
Defined.

(** ** Sample runs *)

Example binsearch_middle_of_duplicates : binsearch [1; 1; 1] (JNum 1) = JNum 1.
Proof. by vm_compute. Qed.

Example tricksearch_advances : tricksearch [1; 2; 3; 4; 5] (JNum 1) (JNum 4) = JNum 3.
Proof. by vm_compute. Qed.

Example tricksearch_rec_retreats :
  tricksearch_rec [1; 2; 3; 4; 5] (JNum 3) (JNum 1) = JNum 0.
Proof. by vm_compute. Qed.

Example hash_lookup_duplicate : hash_lookup (hash_build [5; 1; 5; 2]) (JNum 5) = JNum 2.
Proof. by vm_compute. Qed.

(** Scenario 4 of the specification: the key [7] at positions 2 and 9. *)
Example avl_search_duplicate :
  avl_search (avl_build [4; 1; 7; 3; 9; 2; 8; 6; 5; 7]) 7 = [2; 9].
Proof. by vm_compute. Qed.

Example avl_build_height : avl_height (avl_build (seqZ 1 15)) = 4%nat.
Proof. by vm_compute. Qed.

(** With the constants of the older copy the guess of a key is the key as
    well, and the recursive [tricksearch] finds the keys the iterative one
    misses. *)
Example tricksearch_rec_finds_present_keys :
  tricksearch_rec [0; 1; 2] (uniform_rank older_copy (JNum 1)) (JNum 1) = JNum 1
  ∧ tricksearch_rec [1; 2; 3] (uniform_rank older_copy (JNum 2)) (JNum 2) = JNum 1.
Proof. by vm_compute. Qed.

(** A population whose sorted array puts every key exactly at its guess:
    every lookup of [/trick_uniform] returns [undefined]. *)
Example trick_uniform_perfect_guesses :
  let c := {| mean := 0; variance := 1; num_nor := 3; low := 1; high := 4;
              num_uni := 3 |} in
  let s := {| heap := [[3; 1; 2]; [1; 2; 3]]; dataset := 0%nat; testset := 1%nat;
              distribution := None |} in
  ∃ rep s', run (benchmark c TrickUniform) s = Ok rep s'
    ∧ timed rep = [ trick_iteration [1; 2; 3] (JNum 0) (JNum 1);
                    trick_iteration [1; 2; 3] (JNum 1) (JNum 2);
                    trick_iteration [1; 2; 3] (JNum 2) (JNum 3) ]
    ∧ result <$> timed rep = [Value JUndef; Value JUndef; Value JUndef].
Proof. eexists _, _. by vm_compute. Qed.

(** * Further properties of the code *)

(** ** The two [tricksearch] variants and [binsearch] on arbitrary input *)

Lemma while_below_spec a t (n : nat) : ∀ g,
  cells_ahead a (JNum g) = n →
  ∃ i, while_below a (JNum g) (JNum t) = JNum i ∧ g ≤ i
       ∧ (∀ j, g ≤ j < i → js_lt (js_get a (JNum j)) (JNum t) = true)
       ∧ js_lt (js_get a (JNum i)) (JNum t) = false.
Proof.
  induction n as [n IH] using lt_wf_ind. intros g Hn.
  rewrite while_below_step.
  destruct (js_lt (js_get a (JNum g)) (JNum t)) eqn:Hlt.
  - pose proof Hlt as Hin. apply js_lt_get_in_range in Hin as (z & [= <-] & Hz).
    cbn [js_add].
    destruct (IH (cells_ahead a (JNum (g + 1)))) with (g := g + 1)
      as (i & Hw & Hle & Hbelow & Hexit); [|done|].
    { subst n. simpl. lia. }
    exists i. split; [done|]. split; [lia|]. split; [|done].
    intros j Hj. destruct (decide (j = g)) as [->|]; [done|].
    apply Hbelow. lia.
  - exists g. split; [done|]. split; [lia|]. split; [|done].
    intros j Hj. lia.
Qed.

Lemma found_index_Some r i : found_index r = Some i ↔ r = JNum i ∧ 0 ≤ i.
Proof.
  destruct r as [| |z]; simpl; try (split; [done|intros [? _]; done]).
  case_bool_decide; split.
  - intros [= ->]. done.
  - intros [[= ->] _]. done.
  - done.
  - intros [[= ->] ?]. lia.
Qed.

(** X1: the iterative [tricksearch] of [index.js] reports the index [i] for
    an integer target exactly when the cell at the guess holds a non-zero
    number strictly below the target, [i] lies after the guess, the cell at
    [i] holds the target, and every cell from the guess up to [i - 1] holds
    a number strictly below the target.  In particular it never reports the
    guess itself. *)
Theorem tricksearch_reports_iff (a : list Z) (g t i : Z) :
  found_index (tricksearch a (JNum g) (JNum t)) = Some i
  ↔ (∃ x, js_get a (JNum g) = JNum x ∧ x ≠ 0 ∧ x < t)
    ∧ g < i
    ∧ js_get a (JNum i) = JNum t
    ∧ ∀ j, g ≤ j < i → ∃ y, js_get a (JNum j) = JNum y ∧ y < t.
Proof.
  destruct (while_below_spec a t _ g eq_refl) as (w & Hw & Hle & Hbelow & Hexit).
  assert (Hlt_num : ∀ v, js_lt v (JNum t) = true ↔ ∃ y, v = JNum y ∧ y < t).
  { intros [| |y]; simpl; try (split; [done|intros (? & ? & ?); done]).
    rewrite bool_decide_eq_true. split; [eauto|]. by intros (? & [= <-] & ?). }
  split.
  - intros Hfound. unfold tricksearch in Hfound.
    destruct (js_not (js_get a (JNum g))) eqn:Hnot; [done|].
    destruct (js_lt (js_get a (JNum g)) (JNum t)) eqn:Hlt.
    + cbv zeta in Hfound. rewrite Hw in Hfound.
      destruct (js_eq (js_get a (JNum w)) (JNum t)) eqn:Heq; [|done].
      apply found_index_Some in Hfound as [[= <-] Hpos].
      apply Hlt_num in Hlt as (x & Hx & Hxt).
      assert (js_get a (JNum w) = JNum t) as Hcell.
      { destruct (js_get a (JNum w)); try done. simpl in Heq.
        apply bool_decide_eq_true in Heq. by subst. }
      split.
      { exists x. split; [done|]. split; [|done].
        rewrite Hx in Hnot. simpl in Hnot. by apply bool_decide_eq_false in Hnot. }
      split.
      { destruct (decide (w = g)) as [->|]; [|lia].
        rewrite Hx in Hcell. injection Hcell as ->. lia. }
      split; [done|].
      intros j Hj. apply Hlt_num, Hbelow, Hj.
    + destruct (js_gt (js_get a (JNum g)) (JNum t)) eqn:Hgt; [|done].
      cbv zeta in Hfound. rewrite while_below_step, Hlt in Hfound.
      destruct (js_eq (js_get a (JNum g)) (JNum t)) eqn:Heq; [|done].
      exfalso. unfold js_gt in Hgt. destruct (js_get a (JNum g)); try done.
      simpl in *. apply bool_decide_eq_true in Hgt, Heq. lia.
  - intros ((x & Hx & Hx0 & Hxt) & Hgi & Hcell & Hrun).
    assert (w = i) as ->.
    { destruct (Z.lt_trichotomy w i) as [Hlt|[->|Hgt]]; [|done|].
      - destruct (Hrun w) as (y & Hy & Hyt); [lia|].
        rewrite Hy in Hexit. simpl in Hexit.
        apply bool_decide_eq_false in Hexit. lia.
      - specialize (Hbelow i). rewrite Hcell in Hbelow. simpl in Hbelow.
        rewrite bool_decide_eq_true in Hbelow. lia. }
    unfold tricksearch. rewrite Hx. simpl.
    rewrite bool_decide_eq_false_2 by done.
    rewrite bool_decide_eq_true_2 by done.
    rewrite Hw, Hcell. simpl. rewrite bool_decide_eq_true_2 by done.
    simpl. rewrite bool_decide_eq_true_2; [done|].
    apply js_get_num_in_range in Hx as (z & [= <-] & Hz). lia.
Qed.

(** The recursion on a bounded call stack.  A value it returns is the value
    of [tricksearch_rec]; it returns one as soon as the stack has room for
    the cells the scan passes. *)
Lemma tricksearch_rec_stack_agrees frames : ∀ a index target v,
  tricksearch_rec_stack frames a index target = Some v →
  tricksearch_rec a index target = v.
Proof.
  induction frames as [|frames IH]; [done|]. intros a index target v H.
  rewrite tricksearch_rec_step. cbn [tricksearch_rec_stack] in H.
  destruct (js_eq (js_get a index) target); [by injection H|].
  destruct (js_lt index (JNum 0)); [by injection H|].
  destruct (js_gt index (JNum (js_length a))); [by injection H|].
  destruct (js_lt (js_get a index) target && js_gt (js_get a (js_add index 1)) target);
    [by injection H|].
  destruct (js_lt (js_get a index) target); [by apply IH|].
  destruct (js_gt (js_get a index) target); [by apply IH|].
  by injection H.
Qed.

Lemma tricksearch_rec_stack_enough frames : ∀ a index target,
  (rec_measure a index target < frames)%nat →
  tricksearch_rec_stack frames a index target = Some (tricksearch_rec a index target).
Proof.
  induction frames as [|frames IH]; [lia|]. intros a index target Hm.
  rewrite tricksearch_rec_step. cbn [tricksearch_rec_stack].
  destruct (js_eq (js_get a index) target); [done|].
  destruct (js_lt index (JNum 0)); [done|].
  destruct (js_gt index (JNum (js_length a))); [done|].
  destruct (js_lt (js_get a index) target) eqn:Hlt; cbn [andb].
  - destruct (js_gt (js_get a (js_add index 1)) target) eqn:Hnext; [done|].
    apply IH. pose proof (rec_measure_advance a index target Hlt Hnext). lia.
  - destruct (js_gt (js_get a index) target) eqn:Hgt; [|done].
    apply IH. pose proof (rec_measure_retreat a index target Hgt). lia.
Qed.

(** Once the scan advances it never retreats, and conversely. *)
Lemma tricksearch_rec_stack_up frames : ∀ a g t j,
  js_gt (js_get a (JNum g)) (JNum t) = false →
  tricksearch_rec_stack frames a (JNum g) (JNum t) = Some (JNum j) →
  0 ≤ j → g ≤ j.
Proof.
  induction frames as [|frames IH]; [done|]. intros a g t j Hngt H Hj.
  cbn [tricksearch_rec_stack] in H.
  destruct (js_eq (js_get a (JNum g)) (JNum t)); [injection H as ->; lia|].
  destruct (js_lt (JNum g) (JNum 0)); [injection H as <-; lia|].
  destruct (js_gt (JNum g) (JNum (js_length a))); [injection H as <-; lia|].
  destruct (js_lt (js_get a (JNum g)) (JNum t)) eqn:Hlt; cbn [andb] in H.
  - destruct (js_gt (js_get a (js_add (JNum g) 1)) (JNum t)) eqn:Hnext;
      [injection H as <-; lia|].
    cbn [js_add] in *. pose proof (IH _ _ _ _ Hnext H Hj). lia.
  - rewrite Hngt in H. done.
Qed.

Lemma tricksearch_rec_stack_down frames : ∀ a g t j,
  js_gt (js_get a (JNum (g + 1))) (JNum t) = true →
  tricksearch_rec_stack frames a (JNum g) (JNum t) = Some (JNum j) →
  0 ≤ j → j ≤ g.
Proof.
  induction frames as [|frames IH]; [done|]. intros a g t j Hnext H Hj.
  cbn [tricksearch_rec_stack] in H.
  destruct (js_eq (js_get a (JNum g)) (JNum t)); [injection H as ->; lia|].
  destruct (js_lt (JNum g) (JNum 0)); [injection H as <-; lia|].
  destruct (js_gt (JNum g) (JNum (js_length a))); [injection H as <-; lia|].
  cbn [js_add] in H. rewrite Hnext in H.
  destruct (js_lt (js_get a (JNum g)) (JNum t)) eqn:Hlt; cbn [andb] in H;
    [injection H as <-; lia|].
  destruct (js_gt (js_get a (JNum g)) (JNum t)) eqn:Hgt; [|done].
  assert (js_gt (js_get a (JNum (g + -1 + 1))) (JNum t) = true) as Hgt'.
  { by replace (g + -1 + 1) with g by lia. }
  pose proof (IH _ _ _ _ Hgt' H Hj). lia.
Qed.

Lemma tricksearch_rec_stack_bound frames : ∀ a g t j,
  tricksearch_rec_stack frames a (JNum g) (JNum t) = Some (JNum j) →
  0 ≤ j → Z.abs (j - g) < Z.of_nat frames.
Proof.
  induction frames as [|frames IH]; [done|]. intros a g t j H Hj.
  cbn [tricksearch_rec_stack] in H.
  destruct (js_eq (js_get a (JNum g)) (JNum t)); [injection H as ->; lia|].
  destruct (js_lt (JNum g) (JNum 0)); [injection H as <-; lia|].
  destruct (js_gt (JNum g) (JNum (js_length a))); [injection H as <-; lia|].
  destruct (js_lt (js_get a (JNum g)) (JNum t) &&
            js_gt (js_get a (js_add (JNum g) 1)) (JNum t)); [injection H as <-; lia|].
  cbn [js_add] in H.
  destruct (js_lt (js_get a (JNum g)) (JNum t)).
  { pose proof (IH _ _ _ _ H Hj). lia. }
  destruct (js_gt (js_get a (JNum g)) (JNum t)); [|done].
  pose proof (IH _ _ _ _ H Hj). lia.
Qed.

Lemma tricksearch_rec_stack_shrink big : ∀ a g t j (frames : nat),
  tricksearch_rec_stack big a (JNum g) (JNum t) = Some (JNum j) →
  0 ≤ j → Z.abs (j - g) < Z.of_nat frames →
  tricksearch_rec_stack frames a (JNum g) (JNum t) = Some (JNum j).
Proof.
  induction big as [|big IH]; [done|]. intros a g t j frames H Hj Hroom.
  destruct frames as [|frames]; [lia|].
  cbn [tricksearch_rec_stack] in *.
  destruct (js_eq (js_get a (JNum g)) (JNum t)); [done|].
  destruct (js_lt (JNum g) (JNum 0)); [done|].
  destruct (js_gt (JNum g) (JNum (js_length a))); [done|].
  destruct (js_lt (js_get a (JNum g)) (JNum t)) eqn:Hlt; cbn [andb] in *.
  - destruct (js_gt (js_get a (js_add (JNum g) 1)) (JNum t)) eqn:Hnext; [done|].
    cbn [js_add] in *.
    pose proof (tricksearch_rec_stack_up _ _ _ _ _ Hnext H Hj).
    apply IH; [done..|]. lia.
  - destruct (js_gt (js_get a (JNum g)) (JNum t)) eqn:Hgt; [|done].
    cbn [js_add] in *.
    assert (js_gt (js_get a (JNum (g + -1 + 1))) (JNum t) = true) as Hgt'.
    { by replace (g + -1 + 1) with g by lia. }
    pose proof (tricksearch_rec_stack_down _ _ _ _ _ Hgt' H Hj).
    apply IH; [done..|]. lia.
Qed.

Lemma tricksearch_rec_stack_found a g t j (frames : nat) :
  found_index (tricksearch_rec a (JNum g) (JNum t)) = Some j →
  tricksearch_rec_stack frames a (JNum g) (JNum t)
  = if decide (Z.abs (j - g) < Z.of_nat frames) then Some (JNum j) else None.
Proof.
  intros [Hres Hj]%found_index_Some.
  pose proof (tricksearch_rec_stack_enough
                (S (rec_measure a (JNum g) (JNum t))) a (JNum g) (JNum t)) as Hbig.
  rewrite Hres in Hbig. specialize (Hbig ltac:(lia)).
  destruct (decide (Z.abs (j - g) < Z.of_nat frames)) as [Hroom|Hroom].
  - by eapply tricksearch_rec_stack_shrink.
  - destruct (tricksearch_rec_stack frames a (JNum g) (JNum t)) as [v|] eqn:Hv; [|done].
    pose proof (tricksearch_rec_stack_agrees _ _ _ _ _ Hv) as Hagree.
    rewrite Hres in Hagree. subst v.
    pose proof (tricksearch_rec_stack_bound _ _ _ _ _ Hv Hj). lia.
Qed.

(** A stack with room for two calls per cell, and two more, is enough for
    every scan. *)
Lemma tricksearch_rec_stack_total a index target (frames : nat) :
  (2 * length a + 2 ≤ frames)%nat →
  tricksearch_rec_stack frames a index target
  = Some (tricksearch_rec a index target).
Proof.
  intros Hframes.
  destruct (js_get a index) as [| |x] eqn:Hcell.
  1,2: destruct frames as [|frames]; [lia|];
       rewrite tricksearch_rec_step; cbn [tricksearch_rec_stack];
       rewrite Hcell;
       destruct (js_eq _ target); [done|];
       destruct (js_lt index (JNum 0)); [done|];
       destruct (js_gt index (JNum (js_length a))); [done|];
       cbn [js_lt andb]; unfold js_gt; by destruct target.
  apply tricksearch_rec_stack_enough.
  apply js_get_num_in_range in Hcell as (z & -> & Hz).
  unfold rec_measure, js_length in *.
  destruct (js_gt (js_get a (JNum z)) target); lia.
Qed.

Lemma scan_up_ge cells : ∀ i k j, scan_up cells i k = Some j → i ≤ j.
Proof.
  induction cells as [|x cells IH]; [done|]. intros i k j H. simpl in H.
  case_bool_decide; [injection H as ->; lia|].
  case_bool_decide; [|done]. apply IH in H. lia.
Qed.

Lemma tricksearch_rec_extends_iterative a g t i :
  found_index (tricksearch a (JNum g) (JNum t)) = Some i →
  found_index (tricksearch_rec a (JNum g) (JNum t)) = Some i ∧ g < i.
Proof.
  rewrite tricksearch_characterization, tricksearch_rec_correction_scan.
  destruct (js_get a (JNum g)) as [| |x] eqn:Hx; try done.
  case_bool_decide as Hcond; [|done]. intros Hscan. split; [done|].
  unfold correction_scan in Hscan.
  apply js_get_num_in_range in Hx as Hin. destruct Hin as (z & [= <-] & Hz).
  rewrite bool_decide_eq_true_2 in Hscan by lia.
  destruct (js_get_in_range a g Hz) as (y & Hy & Hget).
  rewrite Hget in Hx. injection Hx as ->. rewrite Hy in Hscan.
  rewrite bool_decide_eq_false_2 in Hscan by lia.
  rewrite bool_decide_eq_true_2 in Hscan by lia.
  apply scan_up_ge in Hscan. lia.
Qed.

(** X2: whatever index [i] the iterative [tricksearch] of [index.js]
    reports from the guess [g], the recursive [tricksearch] of the older
    copy returns the same index when the call stack has room for the
    [i - g + 1] nested calls of its scan, one per cell; with less room it
    ends in a [RangeError] where the loop of [index.js] returns. *)
Theorem tricksearch_found_by_recursive (a : list Z) (g t i : Z) (frames : nat) :
  found_index (tricksearch a (JNum g) (JNum t)) = Some i →
  g < i
  ∧ tricksearch_rec_stack frames a (JNum g) (JNum t)
    = if decide (i - g < Z.of_nat frames) then Some (JNum i) else None.
Proof.
  intros [Hrec Hgi]%tricksearch_rec_extends_iterative. split; [done|].
  rewrite (tricksearch_rec_stack_found a g t i frames Hrec).
  destruct (decide (Z.abs (i - g) < Z.of_nat frames)),
           (decide (i - g < Z.of_nat frames)); (done || lia).
Qed.

(** The key 5 from the guess 0 on four cells: found with room for three calls, not with room for two. *)
Lemma tricksearch_found_by_recursive_witness :
  found_index (tricksearch [1; 3; 5; 7] (JNum 0) (JNum 5)) = Some 2
  ∧ ((0 < 2
      ∧ tricksearch_rec_stack 3 [1; 3; 5; 7] (JNum 0) (JNum 5)
        = if decide (2 - 0 < Z.of_nat 3) then Some (JNum 2) else None)
     ∧ (0 < 2
        ∧ tricksearch_rec_stack 2 [1; 3; 5; 7] (JNum 0) (JNum 5)
          = if decide (2 - 0 < Z.of_nat 2) then Some (JNum 2) else None)).
Proof.
  assert (found_index (tricksearch [1; 3; 5; 7] (JNum 0) (JNum 5)) = Some 2) as H
    by (by vm_compute).
  split; [exact H|]. split.
  - exact (tricksearch_found_by_recursive [1; 3; 5; 7] 0 5 2 3 H).
  - exact (tricksearch_found_by_recursive [1; 3; 5; 7] 0 5 2 2 H).
Defined.

Lemma tricksearch_rec_hit a target (n : nat) : ∀ index i,
  rec_measure a index target = n →
  tricksearch_rec a index target = JNum i →
  0 ≤ i →
  js_eq (js_get a (JNum i)) target = true.
Proof.
  induction n as [n IH] using lt_wf_ind. intros index i Hn Hres Hpos.
  rewrite tricksearch_rec_step in Hres.
  destruct (js_eq (js_get a index) target) eqn:Hhit; [by subst|].
  destruct (js_lt index (JNum 0)); [injection Hres as <-; lia|].
  destruct (js_gt index (JNum (js_length a))); [injection Hres as <-; lia|].
  destruct (js_lt (js_get a index) target) eqn:Hlt; cbn [andb] in Hres.
  - destruct (js_gt (js_get a (js_add index 1)) target) eqn:Hnext;
      [injection Hres as <-; lia|].
    eapply (IH (rec_measure a (js_add index 1) target)); [|done..].
    subst n. by apply rec_measure_advance.
  - destruct (js_gt (js_get a index) target) eqn:Hgt; [|done].
    eapply (IH (rec_measure a (js_add index (-1)) target)); [|done..].
    subst n. by apply rec_measure_retreat.
Qed.

Lemma js_eq_get_num a i t :
  js_eq (js_get a (JNum i)) (JNum t) = true →
  0 ≤ i < js_length a ∧ a !! Z.to_nat i = Some t.
Proof.
  intros Heq.
  destruct (js_get a (JNum i)) as [| |x] eqn:Hx; try done.
  simpl in Heq. apply bool_decide_eq_true in Heq as ->.
  pose proof Hx as Hin. apply js_get_num_in_range in Hin as (z & [= <-] & Hz).
  split; [done|].
  destruct (js_get_in_range a i Hz) as (y & Hy & Hget). congruence.
Qed.

(** X3: on any array, sorted or not, an index reported by the recursive
    [tricksearch] for an integer target lies inside the array and its cell
    holds the target. *)
Theorem tricksearch_rec_sound (a : list Z) (g t i : Z) :
  found_index (tricksearch_rec a (JNum g) (JNum t)) = Some i →
  0 ≤ i < js_length a ∧ a !! Z.to_nat i = Some t.
Proof.
  intros [Hres Hpos]%found_index_Some.
  apply js_eq_get_num. by eapply tricksearch_rec_hit.
Qed.

(** An unsorted array: the search started at index 1 walks up to the key 9. *)
Lemma tricksearch_rec_sound_witness :
  found_index (tricksearch_rec [4; 1; 3; 9] (JNum 1) (JNum 9)) = Some 3
  ∧ 0 ≤ 3 < js_length [4; 1; 3; 9] ∧ [4; 1; 3; 9] !! Z.to_nat 3 = Some 9.
Proof.
  assert (found_index (tricksearch_rec [4; 1; 3; 9] (JNum 1) (JNum 9)) = Some 3) as H
    by (by vm_compute).
  split; [exact H|].
  exact (tricksearch_rec_sound [4; 1; 3; 9] 1 9 3 H).
Defined.

(** X4: on an ascending array and from a guess [g] inside it, the
    recursive [tricksearch] finds a key that occurs in the array: there is an
    index [i] holding the key that it returns exactly when the call stack
    has room for [|i - g| + 1] nested calls, and it ends in a [RangeError]
    otherwise.  For a key that does not occur, whatever it returns is no
    index, and it does return when the stack has room for two calls per
    cell and two more. *)
Theorem tricksearch_rec_decides_membership (a : list Z) (g k : Z) :
  ascending a → 0 ≤ g < js_length a →
  (k ∈ a →
   ∃ i, 0 ≤ i < js_length a ∧ a !! Z.to_nat i = Some k
        ∧ ∀ frames : nat,
            tricksearch_rec_stack frames a (JNum g) (JNum k)
            = if decide (Z.abs (i - g) < Z.of_nat frames) then Some (JNum i) else None)
  ∧ (k ∉ a →
     (∀ (frames : nat) v,
        tricksearch_rec_stack frames a (JNum g) (JNum k) = Some v →
        found_index v = None)
     ∧ ∀ frames : nat, (2 * length a + 2 ≤ frames)%nat →
         is_Some (tricksearch_rec_stack frames a (JNum g) (JNum k))).
Proof.
  intros Hasc Hg. split.
  - intros Hin.
    destruct (tricksearch_rec_finds a g k Hasc Hin Hg) as (i & Hfound & Hpos & Hcell).
    exists i. split; [|split; [done|]].
    { apply lookup_lt_Some in Hcell. unfold js_length. lia. }
    intros frames. by apply tricksearch_rec_stack_found.
  - intros Hout. split.
    + intros frames v Hv. apply tricksearch_rec_stack_agrees in Hv as <-.
      destruct (found_index (tricksearch_rec a (JNum g) (JNum k))) as [i|] eqn:Hfound;
        [|done].
      apply found_index_Some in Hfound as [Hres Hpos].
      exfalso. apply Hout.
      pose proof (tricksearch_rec_hit a (JNum k) _ _ i eq_refl Hres Hpos) as Heq.
      apply js_eq_get_num in Heq as [_ Hcell].
      by eapply list_elem_of_lookup_2.
    + intros frames Hframes. rewrite tricksearch_rec_stack_total by done. eauto.
Qed.

(** The key 3 searched from the last cell of four. *)
Lemma tricksearch_rec_decides_membership_witness :
  ascending [1; 3; 5; 7]
  ∧ 0 ≤ 3 < js_length [1; 3; 5; 7]
  ∧ (3 ∈ [1; 3; 5; 7] →
     ∃ i, 0 ≤ i < js_length [1; 3; 5; 7] ∧ [1; 3; 5; 7] !! Z.to_nat i = Some 3
          ∧ ∀ frames : nat,
              tricksearch_rec_stack frames [1; 3; 5; 7] (JNum 3) (JNum 3)
              = if decide (Z.abs (i - 3) < Z.of_nat frames) then Some (JNum i) else None)
  ∧ (3 ∉ [1; 3; 5; 7] →
     (∀ (frames : nat) v,
        tricksearch_rec_stack frames [1; 3; 5; 7] (JNum 3) (JNum 3) = Some v →
        found_index v = None)
     ∧ ∀ frames : nat, (2 * length [1; 3; 5; 7] + 2 ≤ frames)%nat →
         is_Some (tricksearch_rec_stack frames [1; 3; 5; 7] (JNum 3) (JNum 3))).
Proof.
  assert (ascending [1; 3; 5; 7]) as Hasc.
  { unfold ascending. repeat constructor; lia. }
  assert (0 ≤ 3 < js_length [1; 3; 5; 7]) as Hg by (vm_compute; split; [discriminate|done]).
  split; [exact Hasc|]. split; [exact Hg|].
  exact (tricksearch_rec_decides_membership [1; 3; 5; 7] 3 3 Hasc Hg).
Defined.

Lemma binsearch_loop_sound a target (n : nat) : ∀ low high,
  Z.to_nat (high - low + 1) = n →
  0 ≤ low → high < js_length a →
  binsearch_loop a target low high = JNum (-1)
  ∨ ∃ i t, target = JNum t ∧ binsearch_loop a target low high = JNum i
           ∧ low ≤ i ≤ high ∧ a !! Z.to_nat i = Some t.
Proof.
  induction n as [n IH] using lt_wf_ind. intros low high Hn Hlow Hhigh.
  rewrite binsearch_loop_step.
  case_bool_decide as Hle; [|by left].
  cbv zeta.
  pose proof (Z.div_pos (high - low) 2).
  pose proof (Z.mul_div_le (high - low) 2).
  pose proof (Z.mod_pos_bound (high - low) 2).
  pose proof (Z.div_mod (high - low) 2).
  set (mid := (high - low) `div` 2 + low) in *.
  destruct (js_get_in_range a mid) as (x & Hx & Hget); [lia|].
  rewrite Hget.
  destruct (js_seq (JNum x) target) eqn:Hseq.
  - right. destruct target as [| |t]; try done.
    simpl in Hseq. apply bool_decide_eq_true in Hseq as ->.
    exists mid, t. split; [done|]. split; [done|]. split; [lia|done].
  - destruct (js_gt (JNum x) target).
    + destruct (IH (Z.to_nat (mid - 1 - low + 1))) with (low := low) (high := mid - 1)
        as [Hnone|(i & t & Ht & Hres & Hi & Hcell)]; [lia|done|lia|lia|by left|].
      right. exists i, t. split; [done|]. split; [done|]. split; [lia|done].
    + destruct (IH (Z.to_nat (high - (mid + 1) + 1))) with (low := mid + 1) (high := high)
        as [Hnone|(i & t & Ht & Hres & Hi & Hcell)]; [lia|done|lia|lia|by left|].
      right. exists i, t. split; [done|]. split; [done|]. split; [lia|done].
Qed.

(** X5: on any array, sorted or not, and for any target, [binsearch]
    returns either [-1] or an index inside the array whose cell holds the
    target; for a target that is no number ([undefined]) it returns [-1]. *)
Theorem binsearch_sound_any_array (a : list Z) (target : jsval) :
  binsearch a target = JNum (-1)
  ∨ ∃ i t, target = JNum t ∧ binsearch a target = JNum i
           ∧ 0 ≤ i < js_length a ∧ a !! Z.to_nat i = Some t.
Proof.
  unfold binsearch.
  destruct (binsearch_loop_sound a target _ 0 (js_length a - 1) eq_refl)
    as [Hnone|(i & t & Ht & Hres & Hi & Hcell)]; [lia|lia|by left|].
  right. exists i, t. split; [done|]. split; [done|]. split; [lia|done].
Qed.

(** ** The guess of [/trick_uniform] and the hash map *)

(** X6: when [num_uni = high - low], as with the constants of both copies
    of the file, the guess [Math.floor(num_uni * (key - low) / (high - low))]
    is [key - low]: the trick search starts at the cell indexed by the key
    itself.  The bound keeps the product exact in double precision. *)
Theorem uniform_rank_identity (c : Config) (k : Z) :
  high c ≠ low c →
  num_uni c = high c - low c →
  Z.abs (num_uni c * (k - low c)) < 2 ^ 53 →
  uniform_rank c (JNum k) = JNum (k - low c).
Proof.
  intros Hne Hnum _. unfold uniform_rank.
  rewrite bool_decide_eq_false_2 by lia.
  rewrite Hnum, Z.mul_comm, Z.div_mul by lia. done.
Qed.

(** The largest key of [index.js]. *)
Lemma uniform_rank_identity_witness :
  high index_js ≠ low index_js
  ∧ num_uni index_js = high index_js - low index_js
  ∧ Z.abs (num_uni index_js * (9999999 - low index_js)) < 2 ^ 53
  ∧ uniform_rank index_js (JNum 9999999) = JNum (9999999 - low index_js).
Proof.
  assert (high index_js ≠ low index_js) as H1 by (vm_compute; discriminate).
  assert (num_uni index_js = high index_js - low index_js) as H2 by reflexivity.
  assert (Z.abs (num_uni index_js * (9999999 - low index_js)) < 2 ^ 53) as H3
    by (vm_compute; reflexivity).
  split; [exact H1|]. split; [exact H2|]. split; [exact H3|].
  exact (uniform_rank_identity index_js 9999999 H1 H2 H3).
Defined.

Lemma hash_build_key dataset key i :
  hash_build dataset !! key = Some i → ∃ k, key = JNum k ∧ k ∈ dataset.
Proof.
  intros (Hrange & Hget & _)%hash_build_lookup.
  destruct (js_get_in_range dataset i Hrange) as (x & Hx & Hget').
  exists x. split; [congruence|]. by eapply list_elem_of_lookup_2.
Qed.

Lemma hash_build_dom (P : list Z) :
  dom (hash_build P) = list_to_set (JNum <$> P).
Proof.
  apply set_eq. intros key.
  rewrite elem_of_dom, elem_of_list_to_set, list_elem_of_fmap. split.
  - intros [i Hi]. apply hash_build_key in Hi as (k & -> & Hk). eauto.
  - intros (k & -> & Hk). by apply hash_build_lookup_Some.
Qed.

(** X7: over the map built from the population, [map.has] holds exactly
    for the numbers occurring in the population (never for [undefined] or
    [NaN]), the position [map.get] returns holds the key, and the map has at
    most as many entries as the population, exactly as many when the
    population has no duplicates. *)
Theorem map_has_membership (P : list Z) (key : jsval) :
  (map_has (hash_build P) key = true ↔ ∃ k, key = JNum k ∧ k ∈ P)
  ∧ (∀ i, map_get (hash_build P) key = JNum i → js_get P (JNum i) = key)
  ∧ (size (hash_build P) ≤ length P)%nat
  ∧ (NoDup P → size (hash_build P) = length P).
Proof.
  split; [|split; [|split]].
  - unfold map_has. rewrite bool_decide_eq_true. split.
    + intros [i Hi]. by eapply hash_build_key.
    + intros (k & -> & Hk). by apply hash_build_lookup_Some.
  - intros i. unfold map_get.
    destruct (hash_build P !! key) as [j|] eqn:Hj; [|done].
    simpl. intros [= ->]. by apply hash_build_lookup in Hj as (_ & ? & _).
  - unfold hash_build, js_length.
    assert (∀ n : nat,
      (size (foldl (λ map i, <[js_get P (JNum i) := i]> map) (∅ : gmap jsval Z)
                   (seqZ 0 (Z.of_nat n))) ≤ n)%nat) as Hsize; [|apply Hsize].
    induction n as [|n IH]; [done|].
    rewrite seqZ_S, foldl_app. cbn [foldl].
    rewrite map_size_insert. case_match; unfold id; lia.
  - intros Hnd. rewrite <-size_dom, hash_build_dom.
    rewrite size_list_to_set, length_fmap; [done|].
    apply NoDup_fmap_2; [|done]. by intros ?? [=].
Qed.

(** ** What the handlers of [index.js] leave and log *)

Lemma run_trick_normal_idle c s :
  wf_state s → num_nor c ≤ 0 →
  run (trick_normal c) s = Ok {| timed := []; control := [] |} (after_build s).
Proof.
  intros Hwf Hnum. unfold trick_normal.
  rewrite run_bind, (run_sorted_array_build s Hwf). cbv zeta. fold (after_build s).
  unfold while_index_below. rewrite seqZ_nil by done. done.
Qed.

Lemma keys_queried_nil s num : num ≤ 0 → keys_queried s num = [].
Proof. intros. unfold keys_queried. by rewrite seqZ_nil. Qed.

Lemma keys_queried_lookup s num (i : nat) k :
  keys_queried s num !! i = Some k → k = js_get (queryset s) (JNum (Z.of_nat i)).
Proof.
  unfold keys_queried. rewrite list_lookup_fmap.
  destruct (seqZ 0 num !! i) as [j|] eqn:Hj; [|done].
  apply lookup_seqZ in Hj as [-> _]. simpl. by intros [= <-].
Qed.

Lemma hashtable_iteration_route map k :
  calls_of_route HashtableNormal k (calls (hashtable_iteration map k)).
Proof. unfold hashtable_iteration. simpl. destruct (map_has map k); simpl; auto. Qed.

Lemma avl_iteration_route t k :
  calls_of_route AvlNormal k (calls (avl_iteration t k)).
Proof. unfold avl_iteration. simpl. case_bool_decide; simpl; auto. Qed.

(** What a handler of [index.js] that runs to its end leaves and logs. *)
Lemma run_benchmark_Ok c r s rep s' :
  wf_state s → run (benchmark c r) s = Ok rep s' →
  (s' = s ∨ s' = after_build s)
  ∧ ∃ f : jsval → iteration,
      timed rep = f <$> keys_queried s (route_num c r)
      ∧ ∀ k, calls_of_route r k (calls (f k)).
Proof.
  intros Hwf Hrun. destruct r; cbn [benchmark route_num] in *.
  - rewrite run_hashtable in Hrun by done. injection Hrun as <- <-.
    split; [by left|]. eexists. split; [done|]. apply hashtable_iteration_route.
  - rewrite run_binarysearch in Hrun by done. injection Hrun as <- <-.
    split; [by right|]. eexists. split; [done|]. by intros k.
  - rewrite run_avl in Hrun by done. injection Hrun as <- <-.
    split; [by left|]. eexists. split; [done|]. apply avl_iteration_route.
  - destruct (distribution s) as [g|] eqn:Hg.
    + rewrite (run_trick_normal c s g) in Hrun by done. injection Hrun as <- <-.
      split; [by right|]. eexists. split; [done|]. intros k. by eexists.
    + destruct (decide (0 < num_nor c)) as [Hnum|Hnum].
      * by rewrite run_trick_normal_undefined in Hrun.
      * rewrite run_trick_normal_idle in Hrun by (done || lia).
        injection Hrun as <- <-. split; [by right|].
        exists (λ k, trick_iteration [] k k).
        split; [by rewrite keys_queried_nil by lia|]. intros k. by eexists.
  - rewrite run_binarysearch in Hrun by done. injection Hrun as <- <-.
    split; [by right|]. eexists. split; [done|]. by intros k.
  - rewrite run_trick_uniform in Hrun by done. injection Hrun as <- <-.
    split; [by right|]. eexists. split; [done|]. intros k. by eexists.
  - rewrite run_hashtable in Hrun by done. injection Hrun as <- <-.
    split; [by left|]. eexists. split; [done|]. apply hashtable_iteration_route.
  - rewrite run_avl in Hrun by done. injection Hrun as <- <-.
    split; [by left|]. eexists. split; [done|]. apply avl_iteration_route.
Qed.

Lemma heap_after_build s l a :
  heap s !! l = Some a → heap (after_build s) !! l = Some a.
Proof. intros Hl. unfold after_build. simpl. by apply lookup_app_l_Some. Qed.

(** X8: a benchmark handler of [index.js] that runs to its end leaves the
    globals [dataset], [testset] and [distribution] as they were, and every
    array that existed before with the same cells: population and query set
    are unchanged, whatever the handler sorted. *)
Theorem benchmark_frame (c : Config) (r : route) (s s' : State) (rep : report) :
  wf_state s →
  run (benchmark c r) s = Ok rep s' →
  wf_state s'
  ∧ dataset s' = dataset s ∧ testset s' = testset s
  ∧ distribution s' = distribution s
  ∧ population s' = population s ∧ queryset s' = queryset s
  ∧ ∀ l a, heap s !! l = Some a → heap s' !! l = Some a.
Proof.
  intros Hwf Hrun.
  destruct (run_benchmark_Ok c r s rep s' Hwf Hrun) as [[->| ->] _].
  - done.
  - split; [by apply wf_state_after_build|]. do 3 (split; [done|]).
    split; [by apply population_after_build|].
    split; [by apply queryset_after_build|].
    apply heap_after_build.
Qed.

(** [/binarysearch_uniform] with the loop bound 3 on a population of four cells. *)
Lemma benchmark_frame_witness :
  let c := {| mean := 0; variance := 100; num_nor := 3; low := 0; high := 10;
              num_uni := 3 |} in
  let s := {| heap := [[3; 1; 2; 3]; [1; 3; 7]]; dataset := 0%nat; testset := 1%nat;
              distribution := None |} in
  let rep := {| timed := [binarysearch_iteration [1; 2; 3; 3] (JNum 1);
                          binarysearch_iteration [1; 2; 3; 3] (JNum 3);
                          binarysearch_iteration [1; 2; 3; 3] (JNum 7)];
                control := [] |} in
  let s' := {| heap := [[3; 1; 2; 3]; [1; 3; 7]; [1; 2; 3; 3]; [1; 2; 3; 3];
                        [1; 2; 3; 3]];
               dataset := 0%nat; testset := 1%nat; distribution := None |} in
  wf_state s
  ∧ run (benchmark c BinarysearchUniform) s = Ok rep s'
  ∧ wf_state s'
  ∧ dataset s' = dataset s ∧ testset s' = testset s
  ∧ distribution s' = distribution s
  ∧ population s' = population s ∧ queryset s' = queryset s
  ∧ ∀ l a, heap s !! l = Some a → heap s' !! l = Some a.
Proof.
  intros c s rep s'.
  assert (wf_state s) as Hwf by (unfold wf_state; simpl; lia).
  assert (run (benchmark c BinarysearchUniform) s = Ok rep s') as Hrun
    by (by vm_compute).
  split; [exact Hwf|]. split; [exact Hrun|].
  exact (benchmark_frame c BinarysearchUniform s s' rep Hwf Hrun).
Defined.

(** X9: the timed loop of a benchmark handler of [index.js] that runs to
    its end has as many iterations as its constant ([num_nor] or [num_uni])
    says, and its [i]-th iteration looks up [testset[i]] ([undefined] past
    the end).  For the hash map, binary search and trick handlers this holds
    whatever the length of the query set; for the AVL handlers it is stated
    for an empty population or a query set that covers the loop bound, where
    the tree is never asked for a key it cannot compare. *)
Theorem timed_pass_reads_queryset_in_order (c : Config) (r : route) (s s' : State)
    (rep : report) :
  wf_state s →
  (r = AvlNormal ∨ r = AvlUniform →
   population s = [] ∨ route_num c r ≤ js_length (queryset s)) →
  run (benchmark c r) s = Ok rep s' →
  length (timed rep) = Z.to_nat (route_num c r)
  ∧ ∀ (i : nat) it, timed rep !! i = Some it →
      calls_of_route r (js_get (queryset s) (JNum (Z.of_nat i))) (calls it).
Proof.
  intros Hwf _ Hrun.
  destruct (run_benchmark_Ok c r s rep s' Hwf Hrun) as [_ (f & -> & Hf)].
  split; [by rewrite length_fmap, keys_queried_length|].
  intros i it. rewrite list_lookup_fmap.
  destruct (keys_queried s (route_num c r) !! i) as [k|] eqn:Hk; [|done].
  apply keys_queried_lookup in Hk as ->. intros [= <-]. apply Hf.
Qed.

(** Three iterations over a query set of one entry. *)
Lemma timed_pass_reads_queryset_in_order_witness :
  let c := {| mean := 0; variance := 100; num_nor := 3; low := 0; high := 10;
              num_uni := 3 |} in
  let s := {| heap := [[3; 1; 2; 3]; [7]]; dataset := 0%nat; testset := 1%nat;
              distribution := None |} in
  let rep := {| timed := [hashtable_iteration (hash_build [3; 1; 2; 3]) (JNum 7);
                          hashtable_iteration (hash_build [3; 1; 2; 3]) JUndef;
                          hashtable_iteration (hash_build [3; 1; 2; 3]) JUndef];
                control := [] |} in
  wf_state s
  ∧ (HashtableNormal = AvlNormal ∨ HashtableNormal = AvlUniform →
     population s = [] ∨ route_num c HashtableNormal ≤ js_length (queryset s))
  ∧ run (benchmark c HashtableNormal) s = Ok rep s
  ∧ length (timed rep) = Z.to_nat (route_num c HashtableNormal)
  ∧ ∀ (i : nat) it, timed rep !! i = Some it →
      calls_of_route HashtableNormal (js_get (queryset s) (JNum (Z.of_nat i))) (calls it).
Proof.
  intros c s rep.
  assert (wf_state s) as Hwf by (unfold wf_state; simpl; lia).
  assert (HashtableNormal = AvlNormal ∨ HashtableNormal = AvlUniform →
          population s = [] ∨ route_num c HashtableNormal ≤ js_length (queryset s))
    as Havl by (intros [H|H]; discriminate H).
  assert (run (benchmark c HashtableNormal) s = Ok rep s) as Hrun by (by vm_compute).
  split; [exact Hwf|]. split; [exact Havl|]. split; [exact Hrun|].
  exact (timed_pass_reads_queryset_in_order c HashtableNormal s s rep Hwf Havl Hrun).
Defined.

(** X10: [/trick_normal] of [index.js] throws a [TypeError] exactly when
    [distribution] is undefined and [num_nor] is positive; otherwise it runs
    to its end, leaving the three arrays of its build phase behind. *)
Theorem trick_normal_throws_iff (c : Config) (s : State) :
  wf_state s →
  (run (trick_normal c) s = Throw TypeError ↔ distribution s = None ∧ 0 < num_nor c)
  ∧ (is_Some (distribution s) ∨ num_nor c ≤ 0 →
     ∃ rep, run (trick_normal c) s = Ok rep (after_build s)).
Proof.
  intros Hwf.
  assert (is_Some (distribution s) ∨ num_nor c ≤ 0 →
          ∃ rep, run (trick_normal c) s = Ok rep (after_build s)) as Hok.
  { intros [[g Hg]|Hnum].
    - eexists. by apply run_trick_normal.
    - eexists. by apply run_trick_normal_idle. }
  split; [|exact Hok]. split.
  - intros Hthrow.
    destruct (distribution s) as [g|] eqn:Hg.
    { destruct Hok as [rep Hrep]; [by left; eauto|]. congruence. }
    split; [done|].
    destruct (decide (0 < num_nor c)) as [|Hnum]; [done|].
    destruct Hok as [rep Hrep]; [right; lia|]. congruence.
  - intros [Hg Hnum]. by apply run_trick_normal_undefined.
Qed.

(** The state of [index.js] before any generation. *)
Lemma trick_normal_throws_iff_witness :
  wf_state initial_state
  ∧ (run (trick_normal index_js) initial_state = Throw TypeError
     ↔ distribution initial_state = None ∧ 0 < num_nor index_js)
  ∧ (is_Some (distribution initial_state) ∨ num_nor index_js ≤ 0 →
     ∃ rep, run (trick_normal index_js) initial_state = Ok rep (after_build initial_state)).
Proof.
  assert (wf_state initial_state) as Hwf by (unfold wf_state; simpl; lia).
  split; [exact Hwf|].
  exact (trick_normal_throws_iff index_js initial_state Hwf).
Defined.

Lemma js_get_past_end a (i : nat) : (length a ≤ i)%nat → js_get a (JNum (Z.of_nat i)) = JUndef.
Proof. intros. apply js_not_get_out_of_range. unfold js_length. lia. Qed.

Lemma map_has_not_number P key :
  (∀ k, key ≠ JNum k) → map_has (hash_build P) key = false.
Proof.
  intros Hkey. unfold map_has. apply bool_decide_eq_false. intros [i Hi].
  apply hash_build_key in Hi as (k & -> & _). by eapply Hkey.
Qed.

Lemma binsearch_not_number a target :
  (∀ t, target ≠ JNum t) → binsearch a target = JNum (-1).
Proof.
  intros Htarget. unfold binsearch.
  destruct (binsearch_loop_sound a target _ 0 (js_length a - 1) eq_refl)
    as [Hnone|(i & t & Ht & _)]; [lia|lia|done|].
  by destruct (Htarget t).
Qed.

Lemma tricksearch_not_number a index target :
  (∀ t, target ≠ JNum t) → found_index (tricksearch a index target) = None.
Proof.
  intros Htarget.
  destruct (found_index (tricksearch a index target)) as [i|] eqn:Hfound; [|done].
  apply tricksearch_sound in Hfound as (t & Ht & _). by destruct (Htarget t).
Qed.

(** X11: in the hash map, binary search and trick handlers of
    [index.js], an iteration of the timed loop whose index lies past the end
    of the query set looks up [undefined] and reports "not found": no
    [map.get], [binsearch] returns [-1], [tricksearch] returns no index. *)
Theorem lookups_past_queryset_report_not_found (c : Config) (r : route)
    (s s' : State) (rep : report) (i : nat) (it : iteration) :
  wf_state s →
  r ≠ AvlNormal → r ≠ AvlUniform →
  run (benchmark c r) s = Ok rep s' →
  timed rep !! i = Some it →
  (length (queryset s) ≤ i)%nat →
  reports_not_found r it.
Proof.
  intros Hwf Havl1 Havl2 Hrun Hit Hi.
  assert (∀ (f : jsval → iteration) num,
    (f <$> keys_queried s num) !! i = Some it → it = f JUndef) as Hkey.
  { intros f num. rewrite list_lookup_fmap.
    destruct (keys_queried s num !! i) as [k|] eqn:Hk; [|done].
    apply keys_queried_lookup in Hk as ->. rewrite js_get_past_end by done.
    by intros [= <-]. }
  assert (∀ t, JUndef ≠ JNum t) as Hundef by done.
  destruct r; try done; cbn [benchmark] in Hrun.
  - rewrite run_hashtable in Hrun by done. injection Hrun as <- <-.
    apply Hkey in Hit as ->. exists JUndef.
    unfold hashtable_iteration. by rewrite map_has_not_number.
  - rewrite run_binarysearch in Hrun by done. injection Hrun as <- <-.
    apply Hkey in Hit as ->. exists JUndef.
    unfold binarysearch_iteration. by rewrite binsearch_not_number.
  - destruct (distribution s) as [g|] eqn:Hg.
    + rewrite (run_trick_normal c s g) in Hrun by done. injection Hrun as <- <-.
      apply (Hkey (λ k, trick_iteration _ (rank g (num_nor c) k) k)) in Hit as ->.
      eexists _, _, _. split; [done|]. by apply tricksearch_not_number.
    + destruct (decide (0 < num_nor c)) as [Hnum|Hnum].
      * by rewrite run_trick_normal_undefined in Hrun.
      * rewrite run_trick_normal_idle in Hrun by (done || lia).
        by injection Hrun as <- <-.
  - rewrite run_binarysearch in Hrun by done. injection Hrun as <- <-.
    apply Hkey in Hit as ->. exists JUndef.
    unfold binarysearch_iteration. by rewrite binsearch_not_number.
  - rewrite run_trick_uniform in Hrun by done. injection Hrun as <- <-.
    apply (Hkey (λ k, trick_iteration _ (uniform_rank c k) k)) in Hit as ->.
    eexists _, _, _. split; [done|]. by apply tricksearch_not_number.
  - rewrite run_hashtable in Hrun by done. injection Hrun as <- <-.
    apply Hkey in Hit as ->. exists JUndef.
    unfold hashtable_iteration. by rewrite map_has_not_number.
Qed.

(** The third iteration of [/binarysearch_normal] over a query set of one entry. *)
Lemma lookups_past_queryset_report_not_found_witness :
  let c := {| mean := 0; variance := 100; num_nor := 3; low := 0; high := 10;
              num_uni := 3 |} in
  let s := {| heap := [[3; 1; 2; 3]; [7]]; dataset := 0%nat; testset := 1%nat;
              distribution := None |} in
  let rep := {| timed := [binarysearch_iteration [1; 2; 3; 3] (JNum 7);
                          binarysearch_iteration [1; 2; 3; 3] JUndef;
                          binarysearch_iteration [1; 2; 3; 3] JUndef];
                control := [] |} in
  wf_state s
  ∧ run (benchmark c BinarysearchNormal) s = Ok rep (after_build s)
  ∧ timed rep !! 2%nat = Some (binarysearch_iteration [1; 2; 3; 3] JUndef)
  ∧ (length (queryset s) ≤ 2)%nat
  ∧ reports_not_found BinarysearchNormal (binarysearch_iteration [1; 2; 3; 3] JUndef).
Proof.
  intros c s rep.
  assert (wf_state s) as Hwf by (unfold wf_state; simpl; lia).
  assert (run (benchmark c BinarysearchNormal) s = Ok rep (after_build s)) as Hrun
    by (by vm_compute).
  assert (timed rep !! 2%nat = Some (binarysearch_iteration [1; 2; 3; 3] JUndef)) as Hit
    by reflexivity.
  assert (length (queryset s) ≤ 2)%nat as Hlen by (simpl; lia).
  assert (BinarysearchNormal ≠ AvlNormal) as H1 by discriminate.
  assert (BinarysearchNormal ≠ AvlUniform) as H2 by discriminate.
  split; [exact Hwf|]. split; [exact Hrun|]. split; [exact Hit|]. split; [exact Hlen|].
  exact (lookups_past_queryset_report_not_found c BinarysearchNormal s (after_build s)
           rep 2 _ Hwf H1 H2 Hrun Hit Hlen).
Defined.

(** X12: in the binarysearch handlers of [index.js] (build phase, then
    query loop) the [i]-th iteration returns an index of the sorted copy
    holding [testset[i]] when that key occurs in the population, and [-1]
    when it does not. *)
Theorem binarysearch_answers_membership (num : Z) (s s' : State) (rep : report)
    (i : nat) (it : iteration) (k : Z) :
  wf_state s →
  run (binarysearch num) s = Ok rep s' →
  timed rep !! i = Some it →
  queryset s !! i = Some k →
  (k ∈ population s →
   ∃ j, result it = Value (JNum j) ∧ 0 ≤ j < js_length (population s)
        ∧ js_sort cmp_asc (population s) !! Z.to_nat j = Some k)
  ∧ (k ∉ population s → result it = Value (JNum (-1))).
Proof.
  intros Hwf Hrun Hit Hk.
  rewrite run_binarysearch in Hrun by done. injection Hrun as <- <-.
  cbn [timed] in Hit. rewrite list_lookup_fmap in Hit.
  destruct (keys_queried s num !! i) as [key|] eqn:Hkey; [|done].
  apply keys_queried_lookup in Hkey as ->.
  rewrite js_get_lookup, Hk in Hit. cbn [from_option fmap option_fmap option_map] in Hit.
  injection Hit as <-. cbn [binarysearch_iteration result].
  destruct (binsearch_spec (js_sort cmp_asc (population s)) k (js_sort_ascending _))
    as [Hin Hout].
  split.
  - intros Hel. destruct Hin as (j & Hres & Hj & Hcell); [by apply js_sort_elem_of|].
    exists j. rewrite Hres. split; [done|]. split; [|done].
    unfold js_length in *. by rewrite js_sort_length in Hj.
  - intros Hel. rewrite Hout; [done|]. by rewrite js_sort_elem_of.
Qed.

(** The absent key 7, third entry of the query set. *)
Lemma binarysearch_answers_membership_witness :
  let s := {| heap := [[3; 1; 2; 3]; [1; 3; 7]]; dataset := 0%nat; testset := 1%nat;
              distribution := None |} in
  let rep := {| timed := [binarysearch_iteration [1; 2; 3; 3] (JNum 1);
                          binarysearch_iteration [1; 2; 3; 3] (JNum 3);
                          binarysearch_iteration [1; 2; 3; 3] (JNum 7)];
                control := [] |} in
  let it := binarysearch_iteration [1; 2; 3; 3] (JNum 7) in
  wf_state s
  ∧ run (binarysearch 3) s = Ok rep (after_build s)
  ∧ timed rep !! 2%nat = Some it
  ∧ queryset s !! 2%nat = Some 7
  ∧ (7 ∈ population s →
     ∃ j, result it = Value (JNum j) ∧ 0 ≤ j < js_length (population s)
          ∧ js_sort cmp_asc (population s) !! Z.to_nat j = Some 7)
  ∧ (7 ∉ population s → result it = Value (JNum (-1))).
Proof.
  intros s rep it.
  assert (wf_state s) as Hwf by (unfold wf_state; simpl; lia).
  assert (run (binarysearch 3) s = Ok rep (after_build s)) as Hrun by (by vm_compute).
  assert (timed rep !! 2%nat = Some it) as Hit by reflexivity.
  assert (queryset s !! 2%nat = Some 7) as Hk by reflexivity.
  split; [exact Hwf|]. split; [exact Hrun|]. split; [exact Hit|]. split; [exact Hk|].
  exact (binarysearch_answers_membership 3 s (after_build s) rep 2 it 7 Hwf Hrun Hit Hk).
Defined.

(** X13: a hashtable handler followed by a binarysearch handler with
    the same loop bound find the same query entries: iteration by iteration,
    one has a result index exactly when the other has. *)
Theorem hashtable_and_binarysearch_agree (num : Z) (s s1 s2 : State)
    (rep1 rep2 : report) :
  wf_state s →
  run (hashtable num) s = Ok rep1 s1 →
  run (binarysearch num) s1 = Ok rep2 s2 →
  Forall2 (λ it1 it2,
             (∃ j, result it1 = Value (JNum j) ∧ 0 ≤ j)
             ↔ (∃ j, result it2 = Value (JNum j) ∧ 0 ≤ j))
          (timed rep1) (timed rep2).
Proof.
  intros Hwf Hrun1 Hrun2.
  rewrite run_hashtable in Hrun1 by done. injection Hrun1 as <- <-.
  rewrite run_binarysearch in Hrun2 by done. injection Hrun2 as <- <-.
  cbn [timed]. apply Forall2_fmap, Forall_Forall2_diag, Forall_forall.
  intros key _. rewrite hashtable_iteration_result.
  cbn [binarysearch_iteration result].
  set (P := population s).
  assert (∀ v, (∃ j, Value v = Value (JNum j) ∧ 0 ≤ j) ↔ is_Some (found_index v)) as Hfound.
  { intros v. split.
    - intros (j & [= ->] & Hj). simpl. rewrite bool_decide_eq_true_2 by done. eauto.
    - intros [j [-> Hj]%found_index_Some]. eauto. }
  rewrite !Hfound.
  assert ((∃ k, key = JNum k ∧ k ∈ P) ∨ ¬ (∃ k, key = JNum k ∧ k ∈ P))
    as [(k & -> & Hk)|Hno].
  { destruct key as [| |k]; [by right; intros (? & ? & ?)..|].
    destruct (decide (k ∈ P)); [left; eauto|].
    right. by intros (? & [= <-] & ?). }
  - split; intros _.
    + destruct (binsearch_spec (js_sort cmp_asc P) k (js_sort_ascending _)) as [Hin _].
      destruct Hin as (j & -> & Hj & _); [by apply js_sort_elem_of|].
      simpl. rewrite bool_decide_eq_true_2 by lia. eauto.
    + pose proof (hash_build_lookup_Some P k Hk) as [j Hj].
      unfold hash_lookup, map_has, map_get. rewrite Hj.
      rewrite bool_decide_eq_true_2 by eauto. simpl.
      apply hash_build_lookup in Hj as (Hrange & _).
      rewrite bool_decide_eq_true_2 by lia. eauto.
  - assert (hash_lookup (hash_build P) key = JNum (-1)) as ->.
    { unfold hash_lookup. destruct (map_has (hash_build P) key) eqn:Hhas; [|done].
      exfalso. apply Hno. unfold map_has in Hhas.
      apply bool_decide_eq_true in Hhas as [j Hj]. by eapply hash_build_key. }
    assert (binsearch (js_sort cmp_asc P) key = JNum (-1)) as ->; [|done].
    destruct key as [| |k]; [by apply binsearch_not_number..|].
    destruct (binsearch_spec (js_sort cmp_asc P) k (js_sort_ascending _)) as [_ Hout].
    apply Hout. rewrite js_sort_elem_of. intros Hk. apply Hno. eauto.
Qed.

(** Two present keys and an absent one. *)
Lemma hashtable_and_binarysearch_agree_witness :
  let s := {| heap := [[3; 1; 2; 3]; [1; 3; 7]]; dataset := 0%nat; testset := 1%nat;
              distribution := None |} in
  let rep1 := {| timed := [hashtable_iteration (hash_build [3; 1; 2; 3]) (JNum 1);
                           hashtable_iteration (hash_build [3; 1; 2; 3]) (JNum 3);
                           hashtable_iteration (hash_build [3; 1; 2; 3]) (JNum 7)];
                 control := [] |} in
  let rep2 := {| timed := [binarysearch_iteration [1; 2; 3; 3] (JNum 1);
                           binarysearch_iteration [1; 2; 3; 3] (JNum 3);
                           binarysearch_iteration [1; 2; 3; 3] (JNum 7)];
                 control := [] |} in
  wf_state s
  ∧ run (hashtable 3) s = Ok rep1 s
  ∧ run (binarysearch 3) s = Ok rep2 (after_build s)
  ∧ Forall2 (λ it1 it2,
               (∃ j, result it1 = Value (JNum j) ∧ 0 ≤ j)
               ↔ (∃ j, result it2 = Value (JNum j) ∧ 0 ≤ j))
            (timed rep1) (timed rep2).
Proof.
  intros s rep1 rep2.
  assert (wf_state s) as Hwf by (unfold wf_state; simpl; lia).
  assert (run (hashtable 3) s = Ok rep1 s) as Hrun1 by (by vm_compute).
  assert (run (binarysearch 3) s = Ok rep2 (after_build s)) as Hrun2 by (by vm_compute).
  split; [exact Hwf|]. split; [exact Hrun1|]. split; [exact Hrun2|].
  exact (hashtable_and_binarysearch_agree 3 s s (after_build s) rep1 rep2 Hwf Hrun1 Hrun2).
Defined.

Lemma keys_queried_after_build s num :
  wf_state s → keys_queried (after_build s) num = keys_queried s num.
Proof. intros Hwf. unfold keys_queried. by rewrite queryset_after_build. Qed.

Lemma run_benchmark_after_build c r s rep s' :
  wf_state s →
  run (benchmark c r) s = Ok rep s' →
  ∃ s'', run (benchmark c r) (after_build s) = Ok rep s''.
Proof.
  intros Hwf Hrun.
  pose proof (wf_state_after_build s Hwf) as Hwf'.
  destruct r; cbn [benchmark] in *.
  - rewrite run_hashtable in Hrun by done. injection Hrun as <- <-.
    rewrite run_hashtable by done.
    rewrite population_after_build, keys_queried_after_build by done. eauto.
  - rewrite run_binarysearch in Hrun by done. injection Hrun as <- <-.
    rewrite run_binarysearch by done.
    rewrite population_after_build, keys_queried_after_build by done. eauto.
  - rewrite run_avl in Hrun by done. injection Hrun as <- <-.
    rewrite run_avl by done.
    rewrite population_after_build, keys_queried_after_build by done. eauto.
  - destruct (distribution s) as [g|] eqn:Hg.
    + rewrite (run_trick_normal c s g) in Hrun by done. injection Hrun as <- <-.
      rewrite (run_trick_normal c (after_build s) g) by done.
      rewrite population_after_build, keys_queried_after_build by done. eauto.
    + destruct (decide (0 < num_nor c)) as [Hnum|Hnum].
      * by rewrite run_trick_normal_undefined in Hrun.
      * rewrite run_trick_normal_idle in Hrun by (done || lia).
        injection Hrun as <- <-.
        rewrite run_trick_normal_idle by (done || lia). eauto.
  - rewrite run_binarysearch in Hrun by done. injection Hrun as <- <-.
    rewrite run_binarysearch by done.
    rewrite population_after_build, keys_queried_after_build by done. eauto.
  - rewrite run_trick_uniform in Hrun by done. injection Hrun as <- <-.
    rewrite run_trick_uniform by done.
    rewrite population_after_build, keys_queried_after_build, queryset_after_build
      by done. eauto.
  - rewrite run_hashtable in Hrun by done. injection Hrun as <- <-.
    rewrite run_hashtable by done.
    rewrite population_after_build, keys_queried_after_build by done. eauto.
  - rewrite run_avl in Hrun by done. injection Hrun as <- <-.
    rewrite run_avl by done.
    rewrite population_after_build, keys_queried_after_build by done. eauto.
Qed.

(** X26: the benchmark handlers of [index.js] do not disturb one another:
    a handler run after another handler logs what it would have logged
    before it (in the older copy a binarysearch or trick handler leaves
    [dataset] sorted for the handlers that follow). *)
Theorem benchmark_report_unaffected_by_earlier_benchmark (c : Config) (r1 r2 : route)
    (s s1 s2 : State) (rep1 rep2 : report) :
  wf_state s →
  run (benchmark c r1) s = Ok rep1 s1 →
  run (benchmark c r2) s = Ok rep2 s2 →
  ∃ s2', run (benchmark c r2) s1 = Ok rep2 s2'.
Proof.
  intros Hwf Hrun1 Hrun2.
  destruct (run_benchmark_Ok c r1 s rep1 s1 Hwf Hrun1) as [[->| ->] _].
  - eauto.
  - by eapply run_benchmark_after_build.
Qed.

(** [/hashtable_normal] after [/binarysearch_normal]. *)
Lemma benchmark_report_unaffected_by_earlier_benchmark_witness :
  let c := {| mean := 0; variance := 100; num_nor := 3; low := 0; high := 10;
              num_uni := 3 |} in
  let s := {| heap := [[3; 1; 2; 3]; [1; 3; 7]]; dataset := 0%nat; testset := 1%nat;
              distribution := None |} in
  let rep1 := {| timed := [binarysearch_iteration [1; 2; 3; 3] (JNum 1);
                           binarysearch_iteration [1; 2; 3; 3] (JNum 3);
                           binarysearch_iteration [1; 2; 3; 3] (JNum 7)];
                 control := [] |} in
  let rep2 := {| timed := [hashtable_iteration (hash_build [3; 1; 2; 3]) (JNum 1);
                           hashtable_iteration (hash_build [3; 1; 2; 3]) (JNum 3);
                           hashtable_iteration (hash_build [3; 1; 2; 3]) (JNum 7)];
                 control := [] |} in
  wf_state s
  ∧ run (benchmark c BinarysearchNormal) s = Ok rep1 (after_build s)
  ∧ run (benchmark c HashtableNormal) s = Ok rep2 s
  ∧ ∃ s2', run (benchmark c HashtableNormal) (after_build s) = Ok rep2 s2'.
Proof.
  intros c s rep1 rep2.
  assert (wf_state s) as Hwf by (unfold wf_state; simpl; lia).
  assert (run (benchmark c BinarysearchNormal) s = Ok rep1 (after_build s)) as Hrun1
    by (by vm_compute).
  assert (run (benchmark c HashtableNormal) s = Ok rep2 s) as Hrun2 by (by vm_compute).
  split; [exact Hwf|]. split; [exact Hrun1|]. split; [exact Hrun2|].
  exact (benchmark_report_unaffected_by_earlier_benchmark c BinarysearchNormal
           HashtableNormal s (after_build s) s rep1 rep2 Hwf Hrun1 Hrun2).
Defined.

(** X14: the control loop of the AVL handlers of [index.js] still
    calls [avl.search] once per iteration, with the key of the timed
    iteration; the timed loop differs from it only by the second
    [avl.search] on a hit. *)
Theorem avl_control_pass_repeats_first_search (num : Z) (s s' : State) (rep : report) :
  wf_state s →
  run (avl num) s = Ok rep s' →
  Forall2 (λ it ct, ∃ k,
             calls ct = [AvlSearch k]
             ∧ ((calls it = [AvlSearch k]
                 ∧ result it = Value (JNum (-1)) ∧ result ct = Value (JNum (-1)))
                ∨ (calls it = [AvlSearch k; AvlSearch k]
                   ∧ (∃ ps, result it = Positions ps ∧ ps ≠ [])
                   ∧ result ct = Value JUndef)))
          (timed rep) (control rep).
Proof.
  intros Hwf Hrun.
  rewrite run_avl in Hrun by done. injection Hrun as <- <-.
  cbn [timed control]. apply Forall2_fmap, Forall_Forall2_diag, Forall_forall.
  intros k _. exists k. unfold avl_iteration, avl_control_iteration.
  case_bool_decide as Hlen; cbn [calls result].
  - split; [done|]. right. split; [done|]. split; [|done].
    eexists. split; [done|]. intros Hnil. rewrite Hnil in Hlen. unfold js_length in Hlen. simpl in Hlen. lia.
  - split; [done|]. by left.
Qed.

(** Two hits and a miss. *)
Lemma avl_control_pass_repeats_first_search_witness :
  let s := {| heap := [[3; 1; 2; 3]; [1; 3; 7]]; dataset := 0%nat; testset := 1%nat;
              distribution := None |} in
  let t := avl_build [3; 1; 2; 3] in
  let rep := {| timed := [avl_iteration t (JNum 1); avl_iteration t (JNum 3);
                          avl_iteration t (JNum 7)];
                control := [avl_control_iteration t (JNum 1);
                            avl_control_iteration t (JNum 3);
                            avl_control_iteration t (JNum 7)] |} in
  wf_state s
  ∧ run (avl 3) s = Ok rep s
  ∧ Forall2 (λ it ct, ∃ k,
               calls ct = [AvlSearch k]
               ∧ ((calls it = [AvlSearch k]
                   ∧ result it = Value (JNum (-1)) ∧ result ct = Value (JNum (-1)))
                  ∨ (calls it = [AvlSearch k; AvlSearch k]
                     ∧ (∃ ps, result it = Positions ps ∧ ps ≠ [])
                     ∧ result ct = Value JUndef)))
            (timed rep) (control rep).
Proof.
  intros s t rep.
  assert (wf_state s) as Hwf by (unfold wf_state; simpl; lia).
  assert (run (avl 3) s = Ok rep s) as Hrun by (by vm_compute).
  split; [exact Hwf|]. split; [exact Hrun|].
  exact (avl_control_pass_repeats_first_search 3 s s rep Hwf Hrun).
Defined.

(** X15: the control loop of [/trick_uniform] runs [num_nor] iterations
    (not [num_uni]) and each computes the guess of the same cell
    [testset[index]], with [index] left at the bound of the timed loop; when
    the query set has no such cell every one of these guesses is [NaN]. *)
Theorem trick_uniform_control_pass_reads_one_cell (c : Config) (s s' : State)
    (rep : report) :
  wf_state s →
  run (trick_uniform c) s = Ok rep s' →
  control rep
  = replicate (Z.to_nat (num_nor c))
      (trick_control_iteration
         (uniform_rank c (js_get (queryset s) (JNum (0 `max` num_uni c)))))
  ∧ (js_length (queryset s) ≤ 0 `max` num_uni c →
     Forall (λ ct, result ct = Value JNaN) (control rep)).
Proof.
  intros Hwf Hrun.
  rewrite run_trick_uniform in Hrun by done. injection Hrun as <- <-.
  cbn [control].
  rewrite (const_fmap _ _ (trick_control_iteration
    (uniform_rank c (js_get (queryset s) (JNum (0 `max` num_uni c)))))) by done.
  rewrite length_seqZ. split; [done|].
  intros Hlen. apply Forall_replicate.
  rewrite js_not_get_out_of_range by lia. done.
Qed.

(** A query set of [num_uni] entries: [testset[num_uni]] is [undefined]. *)
Lemma trick_uniform_control_pass_reads_one_cell_witness :
  let c := {| mean := 0; variance := 100; num_nor := 2; low := 0; high := 3;
              num_uni := 3 |} in
  let s := {| heap := [[2; 0; 1]; [1; 2; 0]]; dataset := 0%nat; testset := 1%nat;
              distribution := None |} in
  let rep := {| timed := [trick_iteration [0; 1; 2] (JNum 1) (JNum 1);
                          trick_iteration [0; 1; 2] (JNum 2) (JNum 2);
                          trick_iteration [0; 1; 2] (JNum 0) (JNum 0)];
                control := [trick_control_iteration JNaN; trick_control_iteration JNaN] |} in
  wf_state s
  ∧ run (trick_uniform c) s = Ok rep (after_build s)
  ∧ control rep
    = replicate (Z.to_nat (num_nor c))
        (trick_control_iteration
           (uniform_rank c (js_get (queryset s) (JNum (0 `max` num_uni c)))))
  ∧ (js_length (queryset s) ≤ 0 `max` num_uni c →
     Forall (λ ct, result ct = Value JNaN) (control rep)).
Proof.
  intros c s rep.
  assert (wf_state s) as Hwf by (unfold wf_state; simpl; lia).
  assert (run (trick_uniform c) s = Ok rep (after_build s)) as Hrun by (by vm_compute).
  split; [exact Hwf|]. split; [exact Hrun|].
  exact (trick_uniform_control_pass_reads_one_cell c s (after_build s) rep Hwf Hrun).
Defined.

(** ** Generation, and generation followed by a benchmark *)

Lemma run_generatenum_normal_sets c g samples1 samples2 s :
  ∃ s', run (route_generatenum_normal c g samples1 samples2) s = Ok () s'
        ∧ wf_state s'
        ∧ population s' = drawn samples1 (num_nor c)
        ∧ queryset s' = drawn samples2 (num_nor c)
        ∧ distribution s' = Some g.
Proof.
  eexists. split; [apply run_route_generatenum_normal|].
  unfold wf_state, population, queryset, array_at, drawn. cbn [heap dataset testset distribution].
  rewrite length_app. cbn [length].
  rewrite (lookup_app_r _ _ (length (heap s))) by lia.
  rewrite (lookup_app_r _ _ (S (length (heap s)))) by lia.
  replace (length (heap s) - length (heap s))%nat with 0%nat by lia.
  replace (S (length (heap s)) - length (heap s))%nat with 1%nat by lia.
  split; [lia|]. done.
Qed.

Lemma run_generatenum_uniform_sets c samples1 samples2 s :
  ∃ s', run (route_generatenum_uniform c samples1 samples2) s = Ok () s'
        ∧ wf_state s'
        ∧ population s' = drawn samples1 (num_uni c)
        ∧ queryset s' = drawn samples2 (num_uni c)
        ∧ distribution s' = distribution s.
Proof.
  eexists. split; [apply run_route_generatenum_uniform|].
  unfold wf_state, population, queryset, array_at, drawn. cbn [heap dataset testset distribution].
  rewrite length_app. cbn [length].
  rewrite (lookup_app_r _ _ (length (heap s))) by lia.
  rewrite (lookup_app_r _ _ (S (length (heap s)))) by lia.
  replace (length (heap s) - length (heap s))%nat with 0%nat by lia.
  replace (S (length (heap s)) - length (heap s))%nat with 1%nat by lia.
  split; [lia|]. done.
Qed.

(** X16: [/generatenum_normal] of [index.js] always runs to its end; it
    replaces population and query set by two new, distinct arrays holding
    the [num_nor] draws each, sets [distribution], and leaves every earlier
    array as it was. *)
Theorem generatenum_normal_replaces_both_sets (c : Config) (g : Gaussian)
    (samples1 samples2 : Z → Z) (s : State) :
  ∃ s', run (route_generatenum_normal c g samples1 samples2) s = Ok () s'
        ∧ wf_state s'
        ∧ population s' = drawn samples1 (num_nor c)
        ∧ queryset s' = drawn samples2 (num_nor c)
        ∧ length (population s') = Z.to_nat (num_nor c)
        ∧ length (queryset s') = Z.to_nat (num_nor c)
        ∧ dataset s' ≠ testset s'
        ∧ distribution s' = Some g
        ∧ ∀ l a, heap s !! l = Some a → heap s' !! l = Some a.
Proof.
  eexists. split; [apply run_route_generatenum_normal|].
  unfold wf_state, population, queryset, array_at, drawn. cbn [heap dataset testset distribution].
  rewrite length_app. cbn [length].
  rewrite (lookup_app_r _ _ (length (heap s))) by lia.
  rewrite (lookup_app_r _ _ (S (length (heap s)))) by lia.
  replace (length (heap s) - length (heap s))%nat with 0%nat by lia.
  replace (S (length (heap s)) - length (heap s))%nat with 1%nat by lia.
  cbn [lookup list_lookup default from_option id].
  rewrite !length_fmap, !length_seqZ.
  split; [lia|]. do 4 (split; [done|]). split; [lia|]. split; [done|].
  intros l a Hl. by apply lookup_app_l_Some.
Qed.

(** X17: [/generatenum_uniform] of [index.js] always runs to its end;
    it replaces population and query set by two new, distinct arrays holding
    the [num_uni] draws each and leaves [distribution] and every earlier
    array as they were. *)
Theorem generatenum_uniform_replaces_both_sets (c : Config)
    (samples1 samples2 : Z → Z) (s : State) :
  ∃ s', run (route_generatenum_uniform c samples1 samples2) s = Ok () s'
        ∧ wf_state s'
        ∧ population s' = drawn samples1 (num_uni c)
        ∧ queryset s' = drawn samples2 (num_uni c)
        ∧ length (population s') = Z.to_nat (num_uni c)
        ∧ length (queryset s') = Z.to_nat (num_uni c)
        ∧ dataset s' ≠ testset s'
        ∧ distribution s' = distribution s
        ∧ ∀ l a, heap s !! l = Some a → heap s' !! l = Some a.
Proof.
  eexists. split; [apply run_route_generatenum_uniform|].
  unfold wf_state, population, queryset, array_at, drawn. cbn [heap dataset testset distribution].
  rewrite length_app. cbn [length].
  rewrite (lookup_app_r _ _ (length (heap s))) by lia.
  rewrite (lookup_app_r _ _ (S (length (heap s)))) by lia.
  replace (length (heap s) - length (heap s))%nat with 0%nat by lia.
  replace (S (length (heap s)) - length (heap s))%nat with 1%nat by lia.
  cbn [lookup list_lookup default from_option id].
  rewrite !length_fmap, !length_seqZ.
  split; [lia|]. do 4 (split; [done|]). split; [lia|]. split; [done|].
  intros l a Hl. by apply lookup_app_l_Some.
Qed.

Lemma calls_of_route_looks_up r k it :
  calls_of_route r (JNum k) (calls it) → looks_up it k.
Proof.
  unfold looks_up.
  destruct r; simpl; intros H;
    repeat match goal with
           | H : _ ∨ _ |- _ => destruct H as [H|H]
           | H : ∃ _, _ |- _ => destruct H as [? H]
           end; rewrite H; (split; [done|]); repeat constructor.
Qed.

Lemma run_benchmark_total c r s :
  wf_state s →
  (r = TrickNormal → is_Some (distribution s) ∨ num_nor c ≤ 0) →
  ∃ rep s', run (benchmark c r) s = Ok rep s'.
Proof.
  intros Hwf Hd. destruct r; cbn [benchmark].
  - eexists _, _. by apply run_hashtable.
  - eexists _, _. by apply run_binarysearch.
  - eexists _, _. by apply run_avl.
  - destruct Hd as [[g Hg]|Hnum]; [done|..].
    + eexists _, _. by apply run_trick_normal.
    + eexists _, _. by apply run_trick_normal_idle.
  - eexists _, _. by apply run_binarysearch.
  - eexists _, _. by apply run_trick_uniform.
  - eexists _, _. by apply run_hashtable.
  - eexists _, _. by apply run_avl.
Qed.

Lemma timed_pass_over_full_queryset c r s rep s' :
  wf_state s →
  js_length (queryset s) = route_num c r →
  run (benchmark c r) s = Ok rep s' →
  Forall2 (λ it k, looks_up it k ∧ calls_of_route r (JNum k) (calls it))
          (timed rep) (queryset s).
Proof.
  intros Hwf Hlen Hrun.
  destruct (run_benchmark_Ok c r s rep s' Hwf Hrun) as [_ (f & -> & Hf)].
  rewrite <-Hlen, keys_queried_all, <-list_fmap_compose.
  apply Forall2_fmap_diag. intros k. unfold compose. split; [|apply Hf].
  eapply calls_of_route_looks_up, Hf.
Qed.

(** X18: [/generatenum_normal] followed by a benchmark handler that
    loops up to [num_nor] ([/trick_normal] included) runs to its end from any
    state; the timed loop looks up exactly the draws of the query set, in
    order, and population and query set are still the draws afterwards. *)
Theorem benchmark_after_generatenum_normal (c : Config) (g : Gaussian)
    (samples1 samples2 : Z → Z) (r : route) (s : State) :
  0 ≤ num_nor c →
  route_num c r = num_nor c →
  ∃ rep s',
    run (route_generatenum_normal c g samples1 samples2 ≫= λ _, benchmark c r) s
    = Ok rep s'
    ∧ Forall2 (λ it k, looks_up it k ∧ calls_of_route r (JNum k) (calls it))
              (timed rep) (drawn samples2 (num_nor c))
    ∧ population s' = drawn samples1 (num_nor c)
    ∧ queryset s' = drawn samples2 (num_nor c).
Proof.
  intros Hnum Hr.
  destruct (run_generatenum_normal_sets c g samples1 samples2 s)
    as (s1 & Hgen & Hwf & Hpop & Hqs & Hd).
  rewrite run_bind, Hgen.
  destruct (run_benchmark_total c r s1 Hwf) as (rep & s' & Hrun).
  { intros _. left. rewrite Hd. eauto. }
  exists rep, s'. split; [done|].
  destruct (run_benchmark_Ok c r s1 rep s' Hwf Hrun) as [Hs' _].
  assert (population s' = population s1 ∧ queryset s' = queryset s1) as [-> ->].
  { destruct Hs' as [->| ->]; [done|].
    by rewrite population_after_build, queryset_after_build. }
  split; [|done]. rewrite <-Hqs.
  apply (timed_pass_over_full_queryset c r s1 rep s'); [done| |done].
  rewrite Hr, Hqs. unfold js_length, drawn. rewrite length_fmap, length_seqZ. lia.
Qed.

(** [/generatenum_normal] then [/trick_normal], from the initial state. *)
Lemma benchmark_after_generatenum_normal_witness :
  let c := {| mean := 0; variance := 100; num_nor := 3; low := 0; high := 10;
              num_uni := 5 |} in
  let g := {| rank := λ n _, JNum 0 |} in
  let samples1 := λ i, 2 * i + 1 in
  let samples2 := λ i, 5 - 2 * i in
  0 ≤ num_nor c
  ∧ route_num c TrickNormal = num_nor c
  ∧ ∃ rep s',
      run (route_generatenum_normal c g samples1 samples2 ≫= λ _, benchmark c TrickNormal)
          initial_state
      = Ok rep s'
      ∧ Forall2 (λ it k, looks_up it k ∧ calls_of_route TrickNormal (JNum k) (calls it))
                (timed rep) (drawn samples2 (num_nor c))
      ∧ population s' = drawn samples1 (num_nor c)
      ∧ queryset s' = drawn samples2 (num_nor c).
Proof.
  intros c g samples1 samples2.
  assert (0 ≤ num_nor c) as Hnum by (simpl; lia).
  assert (route_num c TrickNormal = num_nor c) as Hr by reflexivity.
  split; [exact Hnum|]. split; [exact Hr|].
  exact (benchmark_after_generatenum_normal c g samples1 samples2 TrickNormal
           initial_state Hnum Hr).
Defined.

(** X19: [/generatenum_uniform] followed by a benchmark handler other
    than [/trick_normal] that loops up to [num_uni] runs to its end from any
    state; the timed loop looks up exactly the draws of the query set, in
    order, and population and query set are still the draws afterwards. *)
Theorem benchmark_after_generatenum_uniform (c : Config)
    (samples1 samples2 : Z → Z) (r : route) (s : State) :
  0 ≤ num_uni c →
  route_num c r = num_uni c →
  r ≠ TrickNormal →
  ∃ rep s',
    run (route_generatenum_uniform c samples1 samples2 ≫= λ _, benchmark c r) s
    = Ok rep s'
    ∧ Forall2 (λ it k, looks_up it k ∧ calls_of_route r (JNum k) (calls it))
              (timed rep) (drawn samples2 (num_uni c))
    ∧ population s' = drawn samples1 (num_uni c)
    ∧ queryset s' = drawn samples2 (num_uni c).
Proof.
  intros Hnum Hr Hroute.
  destruct (run_generatenum_uniform_sets c samples1 samples2 s)
    as (s1 & Hgen & Hwf & Hpop & Hqs & Hd).
  rewrite run_bind, Hgen.
  destruct (run_benchmark_total c r s1 Hwf) as (rep & s' & Hrun); [done|].
  exists rep, s'. split; [done|].
  destruct (run_benchmark_Ok c r s1 rep s' Hwf Hrun) as [Hs' _].
  assert (population s' = population s1 ∧ queryset s' = queryset s1) as [-> ->].
  { destruct Hs' as [->| ->]; [done|].
    by rewrite population_after_build, queryset_after_build. }
  split; [|done]. rewrite <-Hqs.
  apply (timed_pass_over_full_queryset c r s1 rep s'); [done| |done].
  rewrite Hr, Hqs. unfold js_length, drawn. rewrite length_fmap, length_seqZ. lia.
Qed.

(** [/generatenum_uniform] then [/trick_uniform], from the initial state. *)
Lemma benchmark_after_generatenum_uniform_witness :
  let c := {| mean := 0; variance := 100; num_nor := 3; low := 0; high := 10;
              num_uni := 5 |} in
  let samples1 := λ i, 2 * i + 1 in
  let samples2 := λ i, 9 - 2 * i in
  0 ≤ num_uni c
  ∧ route_num c TrickUniform = num_uni c
  ∧ ∃ rep s',
      run (route_generatenum_uniform c samples1 samples2 ≫= λ _, benchmark c TrickUniform)
          initial_state
      = Ok rep s'
      ∧ Forall2 (λ it k, looks_up it k ∧ calls_of_route TrickUniform (JNum k) (calls it))
                (timed rep) (drawn samples2 (num_uni c))
      ∧ population s' = drawn samples1 (num_uni c)
      ∧ queryset s' = drawn samples2 (num_uni c).
Proof.
  intros c samples1 samples2.
  assert (0 ≤ num_uni c) as Hnum by (simpl; lia).
  assert (route_num c TrickUniform = num_uni c) as Hr by reflexivity.
  assert (TrickUniform ≠ TrickNormal) as Hroute by discriminate.
  split; [exact Hnum|]. split; [exact Hr|].
  exact (benchmark_after_generatenum_uniform c samples1 samples2 TrickUniform
           initial_state Hnum Hr Hroute).
Defined.

(** X20: [/generatenum_uniform] does not define [distribution]: when
    no normal generation ran before, [/trick_normal] after it throws a
    [TypeError]. *)
Theorem trick_normal_after_generatenum_uniform_throws (c : Config)
    (samples1 samples2 : Z → Z) (s : State) :
  distribution s = None →
  0 < num_nor c →
  run (route_generatenum_uniform c samples1 samples2 ≫= λ _, trick_normal c) s
  = Throw TypeError.
Proof.
  intros Hd Hnum.
  destruct (run_generatenum_uniform_sets c samples1 samples2 s)
    as (s1 & Hgen & Hwf & _ & _ & Hd1).
  rewrite run_bind, Hgen. apply run_trick_normal_undefined; [done| |done].
  by rewrite Hd1.
Qed.

(** [index.js] started, [/generatenum_uniform], [/trick_normal]. *)
Lemma trick_normal_after_generatenum_uniform_throws_witness :
  distribution initial_state = None
  ∧ 0 < num_nor index_js
  ∧ run (route_generatenum_uniform index_js (λ i, i) (λ i, i) ≫= λ _, trick_normal index_js)
        initial_state
    = Throw TypeError.
Proof.
  assert (distribution initial_state = None) as Hd by reflexivity.
  assert (0 < num_nor index_js) as Hnum by reflexivity.
  split; [exact Hd|]. split; [exact Hnum|].
  exact (trick_normal_after_generatenum_uniform_throws index_js (λ i, i) (λ i, i)
           initial_state Hd Hnum).
Defined.

(** ** The handlers of the older copy *)

Lemma js_get_drawn samples num i :
  0 ≤ i < num → js_get (drawn samples num) (JNum i) = JNum (samples i).
Proof.
  intros Hi. unfold js_get, drawn. rewrite bool_decide_eq_true_2 by lia.
  rewrite list_lookup_fmap, lookup_seqZ_lt by lia. simpl.
  do 2 f_equal. lia.
Qed.

Lemma run_query_at s t ts index :
  heap s !! t = Some ts → run (query_at t index) s = Ok (js_get ts (JNum index)) s.
Proof. intros Ht. unfold query_at. by rewrite run_bind, (run_contents _ _ ts). Qed.

Lemma run_for_each_drawn {A} (f : jsval → A) samples num s :
  run (for_each (λ index, k ← query_at (length (heap s)) index; mret (f k)) (seqZ 0 num))
      (with_heap s (heap s ++ [drawn samples num]))
  = Ok ((λ i, f (JNum (samples i))) <$> seqZ 0 num)
       (with_heap s (heap s ++ [drawn samples num])).
Proof.
  apply run_for_each_pure. intros i Hi%elem_of_seqZ.
  rewrite run_bind, (run_query_at _ _ (drawn samples num)).
  - by rewrite js_get_drawn by lia.
  - apply lookup_snoc_last.
Qed.

Lemma run_generatenum_uniform samples num s :
  run (generatenum_uniform samples num) s
  = Ok (length (heap s)) (with_heap s (heap s ++ [drawn samples num])).
Proof. apply run_alloc. Qed.

Lemma run_contents_grown s extra l a :
  heap s !! l = Some a →
  run (contents l) (with_heap s (heap s ++ extra)) = Ok a (with_heap s (heap s ++ extra)).
Proof. intros Hl. apply run_contents. simpl. by apply lookup_app_l_Some. Qed.

Lemma run_hashtable_normal_older samples num s :
  wf_state s →
  run (hashtable_normal_older samples num) s
  = Ok {| timed := (λ i, hashtable_iteration (hash_build (population s))
                           (JNum (samples i))) <$> seqZ 0 num;
          control := [] |}
       (with_heap s (heap s ++ [drawn samples num])).
Proof.
  intros Hwf. pose proof (wf_state_population s Hwf) as Hpop.
  unfold hashtable_normal_older.
  rewrite run_bind, run_read_dataset, run_bind, (run_contents _ _ _ Hpop).
  cbv zeta. rewrite run_bind. unfold generatenum_normal_older. rewrite run_alloc.
  fold (drawn samples num).
  rewrite run_bind, run_read_dataset. cbn [dataset with_heap].
  rewrite run_bind, (run_contents_grown _ _ _ _ Hpop).
  rewrite run_bind. unfold while_index_below.
  by rewrite (run_for_each_drawn (hashtable_iteration (hash_build (population s)))).
Qed.

Lemma run_hashtable_uniform_older samples num s :
  wf_state s →
  run (hashtable_uniform_older samples num) s
  = Ok {| timed := (λ i, hashtable_iteration (hash_build (population s))
                           (JNum (samples i))) <$> seqZ 0 num;
          control := [] |}
       (with_heap s (heap s ++ [drawn samples num])).
Proof.
  intros Hwf. pose proof (wf_state_population s Hwf) as Hpop.
  unfold hashtable_uniform_older.
  rewrite run_bind, run_generatenum_uniform.
  rewrite run_bind, run_read_dataset. cbn [dataset with_heap].
  rewrite run_bind, (run_contents_grown _ _ _ _ Hpop). cbv zeta.
  rewrite run_bind, run_read_dataset. cbn [dataset with_heap].
  rewrite run_bind, (run_contents_grown _ _ _ _ Hpop).
  rewrite run_bind. unfold while_index_below.
  by rewrite (run_for_each_drawn (hashtable_iteration (hash_build (population s)))).
Qed.

Lemma run_avl_older samples num s :
  wf_state s →
  run (avl_older samples num) s
  = Ok {| timed := (λ i, avl_iteration (avl_build (population s))
                           (JNum (samples i))) <$> seqZ 0 num;
          control := [] |}
       (with_heap s (heap s ++ [drawn samples num])).
Proof.
  intros Hwf. pose proof (wf_state_population s Hwf) as Hpop.
  unfold avl_older.
  rewrite run_bind, run_generatenum_uniform.
  rewrite run_bind, run_read_dataset. cbn [dataset with_heap].
  rewrite run_bind, (run_contents_grown _ _ _ _ Hpop). cbv zeta.
  rewrite run_bind, run_read_dataset. cbn [dataset with_heap].
  rewrite run_bind, (run_contents_grown _ _ _ _ Hpop).
  rewrite run_bind. unfold while_index_below.
  by rewrite (run_for_each_drawn (avl_iteration (avl_build (population s)))).
Qed.

(** The state the build phase of the older copy leaves: [dataset] sorted
    where it stands. *)
Lemma wf_state_sorted_in_place s a :
  wf_state s → wf_state (with_heap s (<[dataset s := a]> (heap s))).
Proof. unfold wf_state. simpl. by rewrite length_insert. Qed.

Lemma population_sorted_in_place s a :
  wf_state s → population (with_heap s (<[dataset s := a]> (heap s))) = a.
Proof.
  intros [Hd _]. unfold population, array_at. simpl.
  by rewrite list_lookup_insert_eq.
Qed.

Lemma run_for_each_sorted {A} (f : list Z → jsval → A) samples num s a :
  heap s !! dataset s = Some a →
  run (for_each (λ index, k ← query_at (length (heap s)) index;
                          cells ← contents (dataset s);
                          mret (f cells k)) (seqZ 0 num))
      (with_heap s (heap s ++ [drawn samples num]))
  = Ok ((λ i, f a (JNum (samples i))) <$> seqZ 0 num)
       (with_heap s (heap s ++ [drawn samples num])).
Proof.
  intros Ha. apply run_for_each_pure. intros i Hi%elem_of_seqZ.
  rewrite run_bind, (run_query_at _ _ (drawn samples num)) by apply lookup_snoc_last.
  rewrite js_get_drawn by lia.
  by rewrite run_bind, (run_contents_grown _ _ _ _ Ha).
Qed.

Lemma run_binarysearch_older samples num s :
  wf_state s →
  let sorted := js_sort cmp_asc (population s) in
  let s1 := with_heap s (<[dataset s := sorted]> (heap s)) in
  run (binarysearch_older samples num) s
  = Ok {| timed := (λ i, binarysearch_iteration sorted (JNum (samples i)))
                     <$> seqZ 0 num;
          control := [] |}
       (with_heap s1 (heap s1 ++ [drawn samples num])).
Proof.
  intros Hwf sorted s1. unfold binarysearch_older.
  rewrite run_bind, (run_sorted_array_build_older s Hwf). fold sorted. fold s1.
  rewrite run_bind, run_generatenum_uniform.
  rewrite run_bind. unfold while_index_below.
  change (dataset s) with (dataset s1).
  rewrite (run_for_each_sorted binarysearch_iteration _ _ _ sorted); [done|].
  pose proof (wf_state_sorted_in_place s sorted Hwf) as Hwf1.
  rewrite (wf_state_population s1 Hwf1). f_equal.
  by apply population_sorted_in_place.
Qed.

Lemma run_for_each_raising_pure {E A} (body : Z → M (E + A)) (f : Z → E + A)
    s indices :
  (∀ i, i ∈ indices → run (body i) s = Ok (f i) s) →
  ∃ r, run (for_each_raising body indices) s = Ok r s
       ∧ match r with
         | inr log => Forall2 (λ x i, f i = inr x) log indices
         | inl e => ∃ i, i ∈ indices ∧ f i = inl e
         end.
Proof.
  induction indices as [|index rest IH]; intros Hbody.
  - exists (inr []). split; [done|]. constructor.
  - destruct IH as (r & Hrun & Hr).
    { intros i Hi. apply Hbody. by right. }
    cbn [for_each_raising]. rewrite run_bind, (Hbody index) by left.
    destruct (f index) as [e|x] eqn:Hf.
    + exists (inl e). split; [done|]. exists index. split; [left|done].
    + rewrite run_bind, Hrun. destruct r as [e|log].
      * exists (inl e). split; [done|].
        destruct Hr as (i & Hi & He). exists i. split; [by right|done].
      * exists (inr (x :: log)). split; [done|]. by constructor.
Qed.

(** What [/trick_uniform] of the older copy leaves and returns: the query
    loop stops at the first search the call stack has no room for. *)
Lemma run_trick_uniform_older c frames samples s :
  wf_state s →
  let sorted := js_sort cmp_asc (population s) in
  let s1 := with_heap s (<[dataset s := sorted]> (heap s)) in
  let f := λ i, trick_rec_iteration frames sorted
                  (uniform_rank c (JNum (samples i))) (JNum (samples i)) in
  ∃ res, run (trick_uniform_older c frames samples) s
         = Ok res (with_heap s1 (heap s1 ++ [drawn samples (num_uni c)]))
         ∧ match res with
           | inr rep => Forall2 (λ it i, f i = inr it) (timed rep) (seqZ 0 (num_uni c))
                        ∧ control rep = []
           | inl e => ∃ i, 0 ≤ i < num_uni c ∧ f i = inl e
           end.
Proof.
  intros Hwf sorted s1 f. unfold trick_uniform_older.
  rewrite run_bind, (run_sorted_array_build_older s Hwf). fold sorted. fold s1.
  rewrite run_bind, run_generatenum_uniform.
  pose proof (wf_state_sorted_in_place s sorted Hwf) as Hwf1.
  assert (heap s1 !! dataset s1 = Some sorted) as Hpop1.
  { rewrite (wf_state_population s1 Hwf1). f_equal.
    by apply population_sorted_in_place. }
  destruct (run_for_each_raising_pure
              (λ index, k ← query_at (length (heap s1)) index;
                        a ← contents (dataset s);
                        mret (trick_rec_iteration frames a (uniform_rank c k) k))
              f (with_heap s1 (heap s1 ++ [drawn samples (num_uni c)]))
              (seqZ 0 (num_uni c))) as (r & Hrun & Hr).
  { intros i Hi%elem_of_seqZ.
    rewrite run_bind, (run_query_at _ _ (drawn samples (num_uni c)))
      by apply lookup_snoc_last.
    rewrite js_get_drawn by lia.
    by rewrite run_bind, (run_contents_grown _ _ _ _ Hpop1). }
  rewrite run_bind, Hrun. destruct r as [e|log].
  - exists (inl e). split; [done|].
    destruct Hr as (i & Hi%elem_of_seqZ & He). exists i. split; [lia|done].
  - exists (inr {| timed := log; control := [] |}). split; [done|]. by split.
Qed.

Lemma run_for_each_raising_first {E A} (body : Z → M (E + A)) s index rest e :
  run (body index) s = Ok (inl e) s →
  run (for_each_raising body (index :: rest)) s = Ok (inl e) s.
Proof. intros Hbody. cbn [for_each_raising]. by rewrite run_bind, Hbody. Qed.

Lemma run_trick_normal_older c frames samples s :
  wf_state s →
  let sorted := js_sort cmp_asc (population s) in
  let s1 := with_heap s (<[dataset s := sorted]> (heap s)) in
  run (trick_normal_older c frames samples) s
  = Ok (if decide (0 < num_nor c) then inl ReferenceError
        else inr {| timed := []; control := [] |})
       (with_heap s1 (heap s1 ++ [drawn samples (num_nor c)])).
Proof.
  intros Hwf sorted s1. pose proof (wf_state_population s Hwf) as Hpop.
  pose proof (wf_state_sorted_in_place s sorted Hwf) as Hwf1.
  assert (heap s1 !! dataset s1 = Some sorted) as Hpop1.
  { rewrite (wf_state_population s1 Hwf1). f_equal.
    by apply population_sorted_in_place. }
  unfold trick_normal_older.
  rewrite run_bind, run_read_dataset, run_bind, (run_sort_asc _ _ _ Hpop).
  fold sorted. fold s1.
  rewrite run_bind. unfold generatenum_normal_older. rewrite run_alloc.
  fold (drawn samples (num_nor c)).
  rewrite run_bind, run_read_dataset. cbn [dataset with_heap].
  rewrite run_bind, (run_sort_asc _ _ sorted) by by apply lookup_app_l_Some.
  replace (js_sort cmp_asc sorted) with sorted
    by (symmetry; apply js_sort_idempotent).
  rewrite list_insert_id by by apply lookup_app_l_Some.
  change (with_heap (with_heap s1 (heap s1 ++ [drawn samples (num_nor c)]))
            (heap s1 ++ [drawn samples (num_nor c)]))
    with (with_heap s1 (heap s1 ++ [drawn samples (num_nor c)])).
  rewrite run_bind.
  destruct (decide (0 < num_nor c)) as [Hnum|Hnum].
  - rewrite seqZ_cons by done.
    rewrite (run_for_each_raising_first _ _ _ _ ReferenceError); [done|].
    rewrite run_bind, (run_query_at _ _ (drawn samples (num_nor c)));
      [done|apply lookup_snoc_last].
  - by rewrite seqZ_nil by lia.
Qed.

Lemma with_heap_id s : with_heap s (heap s) = s.
Proof. by destruct s. Qed.

(** X21: the build phase of the older copy returns the [dataset] array
    itself: no array is created, [dataset] is left in ascending order with
    the same cells, the other arrays are untouched, and running the phase
    again changes nothing. *)
Theorem sorted_array_build_older_in_place (s : State) :
  wf_state s →
  ∃ s', run sorted_array_build_older s = Ok (dataset s) s'
        ∧ wf_state s'
        ∧ dataset s' = dataset s
        ∧ length (heap s') = length (heap s)
        ∧ ascending (population s')
        ∧ population s' ≡ₚ population s
        ∧ (∀ l, l ≠ dataset s → heap s' !! l = heap s !! l)
        ∧ run sorted_array_build_older s' = Ok (dataset s) s'.
Proof.
  intros Hwf. set (sorted := js_sort cmp_asc (population s)).
  exists (with_heap s (<[dataset s := sorted]> (heap s))).
  pose proof (wf_state_sorted_in_place s sorted Hwf) as Hwf1.
  pose proof (population_sorted_in_place s sorted Hwf) as Hpop1.
  split; [by apply run_sorted_array_build_older|].
  split; [done|]. split; [done|].
  split; [simpl; by rewrite length_insert|].
  rewrite Hpop1.
  split; [apply js_sort_ascending|].
  split; [apply js_sort_perm|].
  split; [intros l Hl; simpl; by rewrite list_lookup_insert_ne|].
  rewrite run_sorted_array_build_older by done.
  rewrite Hpop1.
  replace (js_sort cmp_asc sorted) with sorted
    by (symmetry; apply js_sort_idempotent).
  cbn [dataset with_heap heap]. do 2 f_equal.
  rewrite list_insert_insert_eq. done.
Qed.

(** A population of five cells. *)
Lemma sorted_array_build_older_in_place_witness :
  let s := {| heap := [[5; 1; 3; 2; 4]]; dataset := 0%nat; testset := 0%nat;
              distribution := None |} in
  wf_state s
  ∧ ∃ s', run sorted_array_build_older s = Ok (dataset s) s'
          ∧ wf_state s'
          ∧ dataset s' = dataset s
          ∧ length (heap s') = length (heap s)
          ∧ ascending (population s')
          ∧ population s' ≡ₚ population s
          ∧ (∀ l, l ≠ dataset s → heap s' !! l = heap s !! l)
          ∧ run sorted_array_build_older s' = Ok (dataset s) s'.
Proof.
  intros s.
  assert (wf_state s) as Hwf by (unfold wf_state; simpl; lia).
  split; [exact Hwf|].
  exact (sorted_array_build_older_in_place s Hwf).
Defined.

(** X22: in the older copy every benchmark handler but [/trick_normal]
    runs to its end from any state ([/trick_uniform] when the call stack
    has room for two nested calls of [tricksearch] per cell of the
    population, and two more); it draws its own query set of as many entries
    as its loop bound, so the timed loop looks up exactly the draws, in
    order, and there is no control loop. *)
Theorem older_query_pass_covers_its_draws (c : Config) (frames : nat)
    (samples : Z → Z) (r : route) (s : State) :
  wf_state s →
  r ≠ TrickNormal →
  (r = TrickUniform → (2 * length (population s) + 2 ≤ frames)%nat) →
  ∃ rep s',
    run (benchmark_older c frames samples r) s = Ok (inr rep) s'
    ∧ Forall2 (λ it k, looks_up it k ∧ calls_of_route r (JNum k) (calls it))
              (timed rep) (drawn samples (route_num c r))
    ∧ control rep = [].
Proof.
  intros Hwf Hr Hframes.
  assert (∀ (f : Z → iteration) num,
    (∀ i, calls_of_route r (JNum (samples i)) (calls (f i))) →
    Forall2 (λ it k, looks_up it k ∧ calls_of_route r (JNum k) (calls it))
            (f <$> seqZ 0 num) (drawn samples num)) as Hlog.
  { intros f num Hf. unfold drawn. apply Forall2_fmap, Forall_Forall2_diag, Forall_forall.
    intros i _. split; [|apply Hf]. eapply calls_of_route_looks_up, Hf. }
  destruct r; try done; cbn [benchmark_older route_num]; try rewrite run_bind.
  - rewrite run_hashtable_normal_older by done. eexists _, _. split; [done|].
    split; [|done]. apply Hlog. intros i. apply hashtable_iteration_route.
  - rewrite run_binarysearch_older by done. eexists _, _. split; [done|].
    split; [|done]. apply Hlog. by intros i.
  - rewrite run_avl_older by done. eexists _, _. split; [done|].
    split; [|done]. apply Hlog. intros i. apply avl_iteration_route.
  - rewrite run_binarysearch_older by done. eexists _, _. split; [done|].
    split; [|done]. apply Hlog. by intros i.
  - destruct (run_trick_uniform_older c frames samples s Hwf) as (res & Hrun & Hres).
    assert (∀ i, trick_rec_iteration frames (js_sort cmp_asc (population s))
                   (uniform_rank c (JNum (samples i))) (JNum (samples i))
                 = inr {| calls := [Tricksearch (uniform_rank c (JNum (samples i)))
                                      (JNum (samples i))];
                          result := Value (tricksearch_rec (js_sort cmp_asc (population s))
                                             (uniform_rank c (JNum (samples i)))
                                             (JNum (samples i))) |}) as Hiter.
    { intros i. unfold trick_rec_iteration.
      rewrite tricksearch_rec_stack_total; [done|].
      rewrite js_sort_length. by apply Hframes. }
    destruct res as [e|rep].
    { destruct Hres as (i & _ & He). by rewrite Hiter in He. }
    destruct Hres as [Hall Hcontrol].
    exists rep. eexists. split; [exact Hrun|]. split; [|done].
    unfold drawn. apply Forall2_fmap_r.
    eapply Forall2_impl; [exact Hall|].
    intros it i Hit. cbv beta in Hit. rewrite Hiter in Hit. injection Hit as <-.
    split.
    + split; [done|]. by repeat constructor.
    + by eexists.
  - rewrite run_hashtable_uniform_older by done. eexists _, _. split; [done|].
    split; [|done]. apply Hlog. intros i. apply hashtable_iteration_route.
  - rewrite run_avl_older by done. eexists _, _. split; [done|].
    split; [|done]. apply Hlog. intros i. apply avl_iteration_route.
Qed.

(** [/trick_uniform] of the older copy over three cells, with room for eight nested calls. *)
Lemma older_query_pass_covers_its_draws_witness :
  let c := {| mean := 0; variance := 100; num_nor := 2; low := 0; high := 3;
              num_uni := 3 |} in
  let s := {| heap := [[3; 1; 2]]; dataset := 0%nat; testset := 0%nat;
              distribution := None |} in
  let samples := λ i, 2 - i in
  wf_state s
  ∧ TrickUniform ≠ TrickNormal
  ∧ (TrickUniform = TrickUniform → (2 * length (population s) + 2 ≤ 8)%nat)
  ∧ ∃ rep s',
      run (benchmark_older c 8 samples TrickUniform) s = Ok (inr rep) s'
      ∧ Forall2 (λ it k, looks_up it k
                         ∧ calls_of_route TrickUniform (JNum k) (calls it))
                (timed rep) (drawn samples (route_num c TrickUniform))
      ∧ control rep = [].
Proof.
  intros c s samples.
  assert (wf_state s) as Hwf by (unfold wf_state; simpl; lia).
  assert (TrickUniform ≠ TrickNormal) as Hr by discriminate.
  assert (TrickUniform = TrickUniform → (2 * length (population s) + 2 ≤ 8)%nat)
    as Hframes by (intros _; simpl; lia).
  split; [exact Hwf|]. split; [exact Hr|]. split; [exact Hframes|].
  exact (older_query_pass_covers_its_draws c 8 samples TrickUniform s Hwf Hr Hframes).
Defined.

Lemma population_grown_sorted s sorted extra :
  wf_state s →
  let s1 := with_heap s (<[dataset s := sorted]> (heap s)) in
  population (with_heap s1 (heap s1 ++ extra)) = sorted.
Proof.
  intros Hwf s1.
  rewrite population_grow by by apply wf_state_sorted_in_place.
  by apply population_sorted_in_place.
Qed.

(** X23: in the older copy the binarysearch and trick handlers leave
    the global [dataset] sorted (also when the query loop fails later, with
    the [ReferenceError] of [/trick_normal] or a [RangeError] of the
    recursive search), the hashtable and AVL handlers leave it as it was;
    each handler creates one array, its query set. *)
Theorem older_benchmark_effect_on_population (c : Config) (frames : nat)
    (samples : Z → Z) (r : route) (s s' : State) (res : older_error + report) :
  wf_state s →
  run (benchmark_older c frames samples r) s = Ok res s' →
  population s'
  = match r with
    | HashtableNormal | HashtableUniform | AvlNormal | AvlUniform => population s
    | BinarysearchNormal | BinarysearchUniform | TrickNormal | TrickUniform =>
        js_sort cmp_asc (population s)
    end
  ∧ dataset s' = dataset s
  ∧ length (heap s') = S (length (heap s)).
Proof.
  intros Hwf Hrun.
  assert (∀ a, length (heap s ++ [a]) = S (length (heap s))) as Hlen.
  { intros a. rewrite length_app. simpl. lia. }
  assert (∀ a b, length (<[dataset s := a]> (heap s) ++ [b]) = S (length (heap s)))
    as Hlen'.
  { intros a b. rewrite length_app, length_insert. simpl. lia. }
  destruct r; cbn [benchmark_older] in Hrun; try rewrite run_bind in Hrun.
  - rewrite run_hashtable_normal_older in Hrun by done. injection Hrun as <- <-.
    rewrite population_grow by done. split; [done|]. split; [done|]. apply Hlen.
  - rewrite run_binarysearch_older in Hrun by done. injection Hrun as <- <-.
    rewrite population_grown_sorted by done. split; [done|]. split; [done|].
    apply Hlen'.
  - rewrite run_avl_older in Hrun by done. injection Hrun as <- <-.
    rewrite population_grow by done. split; [done|]. split; [done|]. apply Hlen.
  - rewrite run_trick_normal_older in Hrun by done. injection Hrun as <- <-.
    rewrite population_grown_sorted by done. split; [done|]. split; [done|].
    apply Hlen'.
  - rewrite run_binarysearch_older in Hrun by done. injection Hrun as <- <-.
    rewrite population_grown_sorted by done. split; [done|]. split; [done|].
    apply Hlen'.
  - destruct (run_trick_uniform_older c frames samples s Hwf) as (res0 & Hrun0 & _).
    rewrite Hrun0 in Hrun. injection Hrun as <- <-.
    rewrite population_grown_sorted by done. split; [done|]. split; [done|].
    apply Hlen'.
  - rewrite run_hashtable_uniform_older in Hrun by done. injection Hrun as <- <-.
    rewrite population_grow by done. split; [done|]. split; [done|]. apply Hlen.
  - rewrite run_avl_older in Hrun by done. injection Hrun as <- <-.
    rewrite population_grow by done. split; [done|]. split; [done|]. apply Hlen.
Qed.

(** [/trick_uniform] of the older copy with room for one call only: the first search fails, [dataset] stays sorted. *)
Lemma older_benchmark_effect_on_population_witness :
  let c := {| mean := 0; variance := 100; num_nor := 2; low := 0; high := 3;
              num_uni := 3 |} in
  let s := {| heap := [[3; 1; 2]]; dataset := 0%nat; testset := 0%nat;
              distribution := None |} in
  let samples := λ i, i + 1 in
  let s' := {| heap := [[1; 2; 3]; [1; 2; 3]]; dataset := 0%nat; testset := 0%nat;
               distribution := None |} in
  wf_state s
  ∧ run (benchmark_older c 1 samples TrickUniform) s = Ok (inl RangeError) s'
  ∧ population s' = js_sort cmp_asc (population s)
  ∧ dataset s' = dataset s
  ∧ length (heap s') = S (length (heap s)).
Proof.
  intros c s samples s'.
  assert (wf_state s) as Hwf by (unfold wf_state; simpl; lia).
  assert (run (benchmark_older c 1 samples TrickUniform) s = Ok (inl RangeError) s')
    as Hrun by (by vm_compute).
  split; [exact Hwf|]. split; [exact Hrun|].
  exact (older_benchmark_effect_on_population c 1 samples TrickUniform s s'
           (inl RangeError) Hwf Hrun).
Defined.

(** X24: [/trick_normal] of the older copy cannot finish: with a
    positive [num_nor] the first iteration of its query loop fails with a
    [ReferenceError] on [distribution], after [dataset] has been sorted in
    place. *)
Theorem older_trick_normal_reference_error (c : Config) (frames : nat)
    (samples : Z → Z) (s : State) :
  wf_state s →
  0 < num_nor c →
  ∃ s', run (benchmark_older c frames samples TrickNormal) s = Ok (inl ReferenceError) s'
        ∧ population s' = js_sort cmp_asc (population s).
Proof.
  intros Hwf Hnum. cbn [benchmark_older].
  rewrite run_trick_normal_older by done.
  rewrite decide_True by done. eexists. split; [done|].
  by rewrite population_grown_sorted.
Qed.

(** The constants of the older copy. *)
Lemma older_trick_normal_reference_error_witness :
  let s := {| heap := [[3; 1; 2]]; dataset := 0%nat; testset := 0%nat;
              distribution := None |} in
  wf_state s
  ∧ 0 < num_nor older_copy
  ∧ ∃ s', run (benchmark_older older_copy 100 (λ i, i) TrickNormal) s
          = Ok (inl ReferenceError) s'
          ∧ population s' = js_sort cmp_asc (population s).
Proof.
  intros s.
  assert (wf_state s) as Hwf by (unfold wf_state; simpl; lia).
  assert (0 < num_nor older_copy) as Hnum by reflexivity.
  split; [exact Hwf|]. split; [exact Hnum|].
  exact (older_trick_normal_reference_error older_copy 100 (λ i, i) s Hwf Hnum).
Defined.

(** X25: when [/trick_uniform] of the older copy runs to its end (no
    search exhausted the call stack), an iteration whose guess falls inside
    the array has returned an index of the sorted [dataset] holding the
    drawn key, at most [frames - 1] cells from the guess, when the key
    occurs in the population, and no index when it does not.  The bound on
    the product keeps the guess exact in double precision. *)
Theorem older_trick_uniform_answers_membership (c : Config) (frames : nat)
    (samples : Z → Z) (s s' : State) (rep : report) (i : nat) (it : iteration)
    (g : Z) :
  wf_state s →
  run (trick_uniform_older c frames samples) s = Ok (inr rep) s' →
  timed rep !! i = Some it →
  high c ≠ low c →
  Z.abs (num_uni c * (samples (Z.of_nat i) - low c)) < 2 ^ 53 →
  uniform_rank c (JNum (samples (Z.of_nat i))) = JNum g →
  0 ≤ g < js_length (population s) →
  let k := samples (Z.of_nat i) in
  (k ∈ population s →
   ∃ j, result it = Value (JNum j) ∧ 0 ≤ j < js_length (population s)
        ∧ population s' !! Z.to_nat j = Some k
        ∧ Z.abs (j - g) < Z.of_nat frames)
  ∧ (k ∉ population s →
     ∃ v, result it = Value v ∧ found_index v = None).
Proof.
  intros Hwf Hrun Hit _ _ Hg Hrange. cbv zeta.
  destruct (run_trick_uniform_older c frames samples s Hwf) as (res & Hrun0 & Hres).
  rewrite Hrun0 in Hrun. injection Hrun as -> <-.
  rewrite population_grown_sorted by done.
  destruct Hres as [Hall _].
  destruct (Forall2_lookup_l _ _ _ _ _ Hall Hit) as (z & Hz & Hiter).
  apply lookup_seqZ in Hz as [-> _]. rewrite Z.add_0_l in Hiter.
  cbv beta in Hiter. rewrite Hg in Hiter.
  set (k := samples (Z.of_nat i)) in *.
  set (sorted := js_sort cmp_asc (population s)) in *.
  unfold trick_rec_iteration in Hiter.
  destruct (tricksearch_rec_stack frames sorted (JNum g) (JNum k)) as [v|] eqn:Hv;
    [|done].
  injection Hiter as <-. cbn [result].
  pose proof (tricksearch_rec_stack_agrees _ _ _ _ _ Hv) as Hagree.
  assert (js_length sorted = js_length (population s)) as Hlen.
  { unfold js_length, sorted. by rewrite js_sort_length. }
  split.
  - intros Hk.
    destruct (tricksearch_rec_finds sorted g k) as (j & Hfound & Hpos & Hcell).
    { apply js_sort_ascending. }
    { by apply js_sort_elem_of. }
    { lia. }
    apply found_index_Some in Hfound as [Hres _].
    rewrite Hagree in Hres. subst v.
    exists j. split; [by rewrite Hres|]. split; [|split; [done|]].
    + apply lookup_lt_Some in Hcell. unfold js_length in *. lia.
    + rewrite Hres in Hv. eapply tricksearch_rec_stack_bound; [exact Hv|done].
  - intros Hk. exists v. split; [done|].
    destruct (found_index v) as [j|] eqn:Hfound; [|done].
    apply found_index_Some in Hfound as [-> Hpos].
    exfalso. apply Hk.
    pose proof (tricksearch_rec_hit sorted (JNum k) _ _ j eq_refl Hagree Hpos) as Heq.
    apply js_eq_get_num in Heq as [_ Hcell].
    apply (js_sort_elem_of cmp_asc). by eapply list_elem_of_lookup_2.
Qed.

(** The second draw, the key 1, guessed at index 1 and found at index 0. *)
Lemma older_trick_uniform_answers_membership_witness :
  let c := {| mean := 0; variance := 100; num_nor := 2; low := 0; high := 3;
              num_uni := 3 |} in
  let s := {| heap := [[3; 1; 2]]; dataset := 0%nat; testset := 0%nat;
              distribution := None |} in
  let samples := λ i, 2 - i in
  let rep := {| timed := [{| calls := [Tricksearch (JNum 2) (JNum 2)];
                             result := Value (JNum 1) |};
                          {| calls := [Tricksearch (JNum 1) (JNum 1)];
                             result := Value (JNum 0) |};
                          {| calls := [Tricksearch (JNum 0) (JNum 0)];
                             result := Value (JNum (-1)) |}];
                control := [] |} in
  let s' := {| heap := [[1; 2; 3]; [2; 1; 0]]; dataset := 0%nat; testset := 0%nat;
               distribution := None |} in
  let it := {| calls := [Tricksearch (JNum 1) (JNum 1)]; result := Value (JNum 0) |} in
  wf_state s
  ∧ run (trick_uniform_older c 4 samples) s = Ok (inr rep) s'
  ∧ timed rep !! 1%nat = Some it
  ∧ high c ≠ low c
  ∧ Z.abs (num_uni c * (samples 1 - low c)) < 2 ^ 53
  ∧ uniform_rank c (JNum (samples 1)) = JNum 1
  ∧ 0 ≤ 1 < js_length (population s)
  ∧ (samples 1 ∈ population s →
     ∃ j, result it = Value (JNum j) ∧ 0 ≤ j < js_length (population s)
          ∧ population s' !! Z.to_nat j = Some (samples 1)
          ∧ Z.abs (j - 1) < Z.of_nat 4)
  ∧ (samples 1 ∉ population s →
     ∃ v, result it = Value v ∧ found_index v = None).
Proof.
  intros c s samples rep s' it.
  assert (wf_state s) as Hwf by (unfold wf_state; simpl; lia).
  assert (run (trick_uniform_older c 4 samples) s = Ok (inr rep) s') as Hrun
    by (by vm_compute).
  assert (timed rep !! 1%nat = Some it) as Hit by reflexivity.
  assert (high c ≠ low c) as Hne by (simpl; lia).
  assert (Z.abs (num_uni c * (samples (Z.of_nat 1) - low c)) < 2 ^ 53) as Hexact
    by (vm_compute; reflexivity).
  assert (uniform_rank c (JNum (samples (Z.of_nat 1))) = JNum 1) as Hg by reflexivity.
  assert (0 ≤ 1 < js_length (population s)) as Hrange by (by vm_compute).
  split; [exact Hwf|]. split; [exact Hrun|]. split; [exact Hit|]. split; [exact Hne|].
  split; [exact Hexact|]. split; [exact Hg|]. split; [exact Hrange|].
  exact (older_trick_uniform_answers_membership c 4 samples s s' rep 1 it 1
           Hwf Hrun Hit Hne Hexact Hg Hrange).
Defined.
